(** * Maze generation and solving (maze.py): a shallow embedding

    The Python program builds a rectangular table of cells, carves a maze
    into it by randomized recursive backtracking ([Maze._break_walls_r]) and
    then searches a path from the top left to the bottom right cell by a
    depth-first search ([Maze.solve_r]).

    The embedding keeps the program's own shape: the cell table is a list of
    rows indexed the way Python indexes lists, every method of [Maze] is a
    computation in a small state-and-error monad, and the effects the
    program has on the outside (canvas lines, window refreshes) and on the
    cell table are recorded, in order, in a log. *)

From Stdlib Require Import ZArith String.
From stdpp Require Import base tactics option list list_numbers relations.

Local Open Scope Z_scope.

(** ** Data model *)

(** [Line]: a segment on the canvas. *)
Record Line := mkLine { lx1 : Z; ly1 : Z; lx2 : Z; ly2 : Z }.

(** [Cell]: the dataclass of the source, without the window handle. *)
Record Cell := mkCell {
  top_x : Z;
  top_y : Z;
  bottom_x : Z;
  bottom_y : Z;
  has_left_wall : bool;
  has_right_wall : bool;
  has_top_wall : bool;
  has_bottom_wall : bool;
  visited : bool
}.

(** The four wall attributes of a cell, named by their side. *)
Inductive Side := Top | Bottom | Left | Right.

#[global] Instance Side_eq_dec : EqDecision Side.
Proof. solve_decision. Defined.

Definition opposite (d : Side) : Side :=
  match d with Top => Bottom | Bottom => Top | Left => Right | Right => Left end.

Definition has_wall (d : Side) (c : Cell) : bool :=
  match d with
  | Top => has_top_wall c
  | Bottom => has_bottom_wall c
  | Left => has_left_wall c
  | Right => has_right_wall c
  end.

(** [c.has_<d>_wall = b] *)
Definition set_wall (d : Side) (b : bool) (c : Cell) : Cell :=
  match d with
  | Top => mkCell (top_x c) (top_y c) (bottom_x c) (bottom_y c)
             (has_left_wall c) (has_right_wall c) b (has_bottom_wall c) (visited c)
  | Bottom => mkCell (top_x c) (top_y c) (bottom_x c) (bottom_y c)
             (has_left_wall c) (has_right_wall c) (has_top_wall c) b (visited c)
  | Left => mkCell (top_x c) (top_y c) (bottom_x c) (bottom_y c)
             b (has_right_wall c) (has_top_wall c) (has_bottom_wall c) (visited c)
  | Right => mkCell (top_x c) (top_y c) (bottom_x c) (bottom_y c)
             (has_left_wall c) b (has_top_wall c) (has_bottom_wall c) (visited c)
  end.

(** [c.visited = b] *)
Definition set_visited (b : bool) (c : Cell) : Cell :=
  mkCell (top_x c) (top_y c) (bottom_x c) (bottom_y c)
    (has_left_wall c) (has_right_wall c) (has_top_wall c) (has_bottom_wall c) b.

(** The geometric part of a cell, which no method assigns. *)
Definition box (c : Cell) : Z * Z * Z * Z :=
  (top_x c, top_y c, bottom_x c, bottom_y c).

(** The table [Maze._cells]: a list of rows. *)
Abbreviation grid := (list (list Cell)).

(** The fields of [Maze] that are set once by the constructor. *)
Record Maze := mkMaze {
  x1 : Z;
  y1 : Z;
  num_rows : Z;
  num_cols : Z;
  cell_size_x : Z;
  cell_size_y : Z;
  seed : option Z
}.

(** ** Python list indexing *)

(** [l[i]] for a list of length [len]: a negative index counts from the
    end, anything outside [-len, len) raises IndexError ([None]). *)
Definition py_index (len : nat) (i : Z) : option nat :=
  if 0 <=? i then
    (if i <? Z.of_nat len then Some (Z.to_nat i) else None)
  else
    (if - Z.of_nat len <=? i then Some (Z.to_nat (Z.of_nat len + i)) else None).

Definition py_get {A} (l : list A) (i : Z) : option A :=
  n ← py_index (length l) i; l !! n.

(** [self._cells[i][j]] *)
Definition cell_at (g : grid) (i j : Z) : option Cell :=
  row ← py_get g i; py_get row j.

(** [self._cells[i][j].<attr> = ...]: the cell object is updated in place. *)
Definition modify_cell (g : grid) (i j : Z) (f : Cell → Cell) : option grid :=
  ri ← py_index (length g) i;
  row ← g !! ri;
  cj ← py_index (length row) j;
  c ← row !! cj;
  Some (<[ri := <[cj := f c]> row]> g).

(** [range(n)] *)
Definition range (n : Z) : list Z := seqZ 0 n.

(** ** Effects *)

(** What the program does to the cell table and to the window, one entry
    per operation.  Breaking the two walls between neighbouring cells
    (one branch of the if/elif chain of [_break_walls_r]) is one operation. *)
Inductive Event :=
| CreateCells
| OpenWall (i j : Z) (d : Side)
| BreakWalls (i j new_i new_j : Z)
| SetVisited (i j : Z)
| ClearVisited (i j : Z)
| CreateLine (l : Line) (fill_color : string)
| Redraw.

(** A log entry: the operation and the cell table right after it. *)
Record Entry := mkEntry { ev : Event; after : grid }.

(** The mutable part of a run: the cell table, the number of values drawn
    from the random generator so far, and the log (newest entry first). *)
Record State := mkState {
  cells : grid;
  draws : nat;
  log : list Entry
}.

Inductive Res (A : Type) :=
| Ok (a : A)
| IndexError
| OutOfFuel.
Arguments Ok {A} a.
Arguments IndexError {A}.
Arguments OutOfFuel {A}.

Definition M (A : Type) : Type := State → Res (A * State).

Definition ret {A} (a : A) : M A := fun st => Ok (a, st).

Definition bind {A B} (m : M A) (k : A → M B) : M B :=
  fun st => match m st with
            | Ok (a, st') => k a st'
            | IndexError => IndexError
            | OutOfFuel => OutOfFuel
            end.

Declare Scope maze_scope.
Delimit Scope maze_scope with maze.
Notation "x <- m ;; k" := (bind m (fun x => k))
  (at level 100, m at next level, k at level 200, right associativity) : maze_scope.
Notation "m ;; k" := (bind m (fun _ => k))
  (at level 100, k at level 200, right associativity) : maze_scope.
Local Open Scope maze_scope.

Definition out_of_fuel {A} : M A := fun _ => OutOfFuel.

(** An operation that leaves the cell table alone. *)
Definition emit (e : Event) : M unit :=
  fun st => Ok (tt, mkState (cells st) (draws st) (mkEntry e (cells st) :: log st)).

(** An operation on the cell table; it raises where the table access does. *)
Definition update (e : Event) (f : grid → option grid) : M unit :=
  fun st => match f (cells st) with
            | Some g => Ok (tt, mkState g (draws st) (mkEntry e g :: log st))
            | None => IndexError
            end.

Definition read_cell (i j : Z) : M Cell :=
  fun st => match cell_at (cells st) i j with
            | Some c => Ok (c, st)
            | None => IndexError
            end.

Fixpoint for_each {A} (l : list A) (body : A → M unit) : M unit :=
  match l with
  | [] => ret tt
  | x :: l' => body x ;; for_each l' body
  end.

(** ** Rendering *)

(** [Line.draw]: [canvas.create_line(...)]. *)
Definition Line_draw (l : Line) (fill_color : string) : M unit :=
  emit (CreateLine l fill_color).

(** [Cell.draw] *)
Definition Cell_draw (c : Cell) (color : string) : M unit :=
  let bg := "#d9d9d9"%string in
  Line_draw (mkLine (top_x c) (top_y c) (top_x c) (bottom_y c))
    (if has_left_wall c then color else bg) ;;
  Line_draw (mkLine (bottom_x c) (top_y c) (bottom_x c) (bottom_y c))
    (if has_right_wall c then color else bg) ;;
  Line_draw (mkLine (top_x c) (top_y c) (bottom_x c) (top_y c))
    (if has_top_wall c then color else bg) ;;
  Line_draw (mkLine (top_x c) (bottom_y c) (bottom_x c) (bottom_y c))
    (if has_bottom_wall c then color else bg).

(** [Cell.draw_move] *)
Definition Cell_draw_move (c to_cell : Cell) (undo : bool) : M unit :=
  let this_x := (bottom_x c + top_x c) / 2 in
  let this_y := (bottom_y c + top_y c) / 2 in
  let other_x := (bottom_x to_cell + top_x to_cell) / 2 in
  let other_y := (bottom_y to_cell + top_y to_cell) / 2 in
  Line_draw (mkLine this_x this_y other_x other_y)
    (if undo then "gray"%string else "red"%string).

(** ** The methods of [Maze] *)

(** [random.choice(l)]: the module-level generator of Python is not seeded by
    the program, so the values it yields are an arbitrary sequence [pick];
    the k-th draw selects the element at index [pick k mod len(l)].  On an
    empty list [random.choice] raises IndexError. *)
Definition random_choice {A} (pick : nat → nat) (l : list A) : M A :=
  fun st => match l !! (pick (draws st) mod length l)%nat with
            | Some x => Ok (x, mkState (cells st) (S (draws st)) (log st))
            | None => IndexError
            end.

Section Methods.

Variable self : Maze.
Variable pick : nat → nat.

(** The cell built by the inner loop of [_create_cells] at row [i], column [j]. *)
Definition new_cell (i j : Z) : Cell :=
  mkCell (x1 self + j * cell_size_x self) (y1 self + i * cell_size_y self)
         (x1 self + (j + 1) * cell_size_x self) (y1 self + (i + 1) * cell_size_y self)
         true true true true false.

(** The table built by the two loops of [_create_cells]. *)
Definition build_cells : grid :=
  (fun i => (fun j => new_cell i j) <$> range (num_cols self)) <$> range (num_rows self).

Definition _animate : M unit := emit Redraw.

Definition _draw_cell (i j : Z) : M unit :=
  c <- read_cell i j ;;
  Cell_draw c "black" ;;
  _animate.

Definition _break_entrance_and_exit : M unit :=
  update (OpenWall 0 0 Top) (fun g => modify_cell g 0 0 (set_wall Top false)) ;;
  update (OpenWall (num_rows self - 1) (num_cols self - 1) Bottom)
    (fun g => modify_cell g (num_rows self - 1) (num_cols self - 1) (set_wall Bottom false)).

Definition neighbors (i j : Z) : list (Z * Z) :=
  [(i - 1, j); (i + 1, j); (i, j - 1); (i, j + 1)].

(** The [for test_i, test_j in neighbors] loop of [_break_walls_r]. *)
Fixpoint collect_to_visit (ns : list (Z * Z)) (to_visit : list (Z * Z)) : M (list (Z * Z)) :=
  match ns with
  | [] => ret to_visit
  | (test_i, test_j) :: ns' =>
      if (test_i <? 0) || (test_j <? 0) then collect_to_visit ns' to_visit
      else if (test_i >=? num_rows self) || (test_j >=? num_cols self)
      then collect_to_visit ns' to_visit
      else
        c <- read_cell test_i test_j ;;
        if negb (visited c) then collect_to_visit ns' (to_visit ++ [(test_i, test_j)])
        else collect_to_visit ns' to_visit
  end.

(** The if/elif chain "break down walls inbetween". *)
Definition break_walls_between (i j new_i new_j : Z) (g : grid) : option grid :=
  if new_j >? j then
    g1 ← modify_cell g i j (set_wall Right false);
    modify_cell g1 new_i new_j (set_wall Left false)
  else if new_j <? j then
    g1 ← modify_cell g i j (set_wall Left false);
    modify_cell g1 new_i new_j (set_wall Right false)
  else if new_i >? i then
    g1 ← modify_cell g i j (set_wall Bottom false);
    modify_cell g1 new_i new_j (set_wall Top false)
  else if new_i <? i then
    g1 ← modify_cell g i j (set_wall Top false);
    modify_cell g1 new_i new_j (set_wall Bottom false)
  else Some g.

Definition mark_visited (i j : Z) : M unit :=
  update (SetVisited i j) (fun g => modify_cell g i j (set_visited true)).

(** The [while True] loop of [_break_walls_r(i, j)]; one unit of fuel per
    iteration.  The recursive call [_break_walls_r(new_i, new_j)] is the
    assignment to [visited] followed by the loop at the new cell. *)
Fixpoint break_walls_loop (fuel : nat) (i j : Z) : M unit :=
  match fuel with
  | O => out_of_fuel
  | S fuel' =>
      to_visit <- collect_to_visit (neighbors i j) [] ;;
      match to_visit with
      | [] => _draw_cell i j
      | _ :: _ =>
          new <- random_choice pick to_visit ;;
          update (BreakWalls i j new.1 new.2) (break_walls_between i j new.1 new.2) ;;
          (mark_visited new.1 new.2 ;; break_walls_loop fuel' new.1 new.2) ;;
          break_walls_loop fuel' i j
      end
  end.

Definition _break_walls_r (fuel : nat) (i j : Z) : M unit :=
  mark_visited i j ;;
  break_walls_loop fuel i j.

Definition _reset_cells_visited : M unit :=
  for_each (range (num_rows self)) (fun i =>
    for_each (range (num_cols self)) (fun j =>
      update (ClearVisited i j) (fun g => modify_cell g i j (set_visited false)))).

(** Lines 101-114 of [_create_cells]: the table is built and assigned. *)
Definition _init_cells : M unit :=
  update CreateCells (fun _ => Some build_cells).

Definition _create_cells (fuel : nat) : M unit :=
  _init_cells ;;
  _break_entrance_and_exit ;;
  _break_walls_r fuel 0 0 ;;
  _reset_cells_visited.

Definition __post_init__ (fuel : nat) : M unit := _create_cells fuel.

(** The [for test_i, test_j, wall in neighbors] loop of [solve_r]; [rec] is
    the recursive call. *)
Fixpoint solve_for (rec : Z → Z → M bool) (this_cell : Cell)
    (ns : list (Z * Z * bool)) : M bool :=
  match ns with
  | [] => ret false
  | (test_i, test_j, wall) :: ns' =>
      if (test_i <? 0) || (test_j <? 0) then solve_for rec this_cell ns'
      else if (test_i >=? num_rows self) || (test_j >=? num_cols self)
      then solve_for rec this_cell ns'
      else
        next_cell <- read_cell test_i test_j ;;
        if negb (visited next_cell) then
          if negb wall then
            Cell_draw_move this_cell next_cell false ;;
            found <- rec test_i test_j ;;
            if negb found then
              Cell_draw_move this_cell next_cell true ;;
              solve_for rec this_cell ns'
            else ret true
          else solve_for rec this_cell ns'
        else solve_for rec this_cell ns'
  end.

Fixpoint solve_r (fuel : nat) (i j : Z) : M bool :=
  match fuel with
  | O => out_of_fuel
  | S fuel' =>
      _animate ;;
      (* [this_cell] is a reference into the table: read after the
         assignment, it is the cell with [visited] set. *)
      mark_visited i j ;;
      this_cell <- read_cell i j ;;
      if (i =? num_rows self - 1) && (j =? num_cols self - 1) then ret true
      else
        solve_for (solve_r fuel') this_cell
          [(i - 1, j, has_top_wall this_cell);
           (i + 1, j, has_bottom_wall this_cell);
           (i, j - 1, has_left_wall this_cell);
           (i, j + 1, has_right_wall this_cell)]
  end.

Definition solve (fuel : nat) : M bool := solve_r fuel 0 0.

End Methods.

(** [main]: the fixed entry point.  The window is not modelled; the wait
    for its closing, which follows [maze.solve()], is left out. *)
Definition main_maze : Maze :=
  let win_width := 800 in
  let win_height := 600 in
  let top_x := 5 in
  let top_y := 5 in
  let num_rows := 20 in
  let num_cols := 30 in
  let cell_width := (win_width - top_x) / num_cols in
  let cell_height := (win_height - top_y) / num_rows in
  mkMaze top_x top_y num_rows num_cols cell_width cell_height None.

Definition main (pick : nat → nat) (fuel fuel' : nat) : M bool :=
  __post_init__ main_maze pick fuel ;;
  solve main_maze fuel'.

(** A state before the constructor has run. *)
Definition fresh : State := mkState [] 0 [].


(** ** Vocabulary of the specification *)

Section Vocabulary.

Variable self : Maze.

(** A position of the table. *)
Definition in_bounds (p : Z * Z) : Prop :=
  (0 ≤ p.1 < num_rows self) ∧ (0 ≤ p.2 < num_cols self).

(** The table has [num_rows] rows of [num_cols] cells each. *)
Definition well_formed (g : grid) : Prop :=
  length g = Z.to_nat (num_rows self) ∧
  Forall (fun row => length row = Z.to_nat (num_cols self)) g.

Definition nonneg (p : Z * Z) : Prop := 0 ≤ p.1 ∧ 0 ≤ p.2.

(** The neighbour of [p] on side [d]. *)
Definition step (p : Z * Z) (d : Side) : Z * Z :=
  match d with
  | Top => (p.1 - 1, p.2)
  | Bottom => (p.1 + 1, p.2)
  | Left => (p.1, p.2 - 1)
  | Right => (p.1, p.2 + 1)
  end.

(** The flags of the cell at [p]. *)
Definition wallb (g : grid) (p : Z * Z) (d : Side) : bool :=
  match cell_at g p.1 p.2 with Some c => has_wall d c | None => true end.

Definition visitedb (g : grid) (p : Z * Z) : bool :=
  match cell_at g p.1 p.2 with Some c => visited c | None => false end.

Definition box_at (g : grid) (p : Z * Z) : option (Z * Z * Z * Z) :=
  box <$> cell_at g p.1 p.2.

(** All positions, row by row. *)
Definition all_cells : list (Z * Z) :=
  i ← range (num_rows self); j ← range (num_cols self); [(i, j)].

(** The interior wall pairs: a cell together with its right or bottom
    side, when there is a neighbour on that side. *)
Definition wall_pairs : list (Z * Z * Side) :=
  p ← all_cells; d ← [Right; Bottom];
  if decide (in_bounds (step p d)) then [(p, d)] else [].

(** Both walls of the pair are gone. *)
Definition broken (g : grid) (e : Z * Z * Side) : bool :=
  negb (wallb g e.1 e.2) && negb (wallb g (step e.1 e.2) (opposite e.2)).

Definition broken_pairs (g : grid) : nat :=
  length (filter (fun e => broken g e) wall_pairs).

Definition visited_count (g : grid) : nat :=
  length (filter (fun p => visitedb g p) all_cells).

Definition unvisited_count (g : grid) : nat :=
  length (filter (fun p => negb (visitedb g p)) all_cells).

(** An open adjacency: [b] is the neighbour of [a] on some side, and the
    walls of both cells between them are gone. *)
Definition passage (g : grid) (a b : Z * Z) : Prop :=
  in_bounds a ∧ in_bounds b ∧
  ∃ d, b = step a d ∧ wallb g a d = false ∧ wallb g b (opposite d) = false.

(** What a flood fill over open adjacencies reaches from [a]. *)
Definition reachable (g : grid) (a b : Z * Z) : Prop := rtc (passage g) a b.

(** Mirrored walls: the two flags of every interior wall pair agree. *)
Definition mirrored (g : grid) : Prop :=
  ∀ a d, in_bounds a → in_bounds (step a d) →
    (wallb g a d = false ↔ wallb g (step a d) (opposite d) = false).

(** The walls on the outer boundary, apart from the entrance and the exit,
    are present. *)
Definition boundary_closed (g : grid) : Prop :=
  ∀ a d, in_bounds a → ¬ in_bounds (step a d) →
    (a, d) ≠ ((0, 0), Top) →
    (a, d) ≠ ((num_rows self - 1, num_cols self - 1), Bottom) →
    wallb g a d = true.

(** The two walls between [p] and its neighbour on side [d] are cleared. *)
Definition carve (g : grid) (p : Z * Z) (d : Side) : option grid :=
  g1 ← modify_cell g p.1 p.2 (set_wall d false);
  modify_cell g1 (step p d).1 (step p d).2 (set_wall (opposite d) false).

(** The operations of the generator on the table. *)
Inductive gen_step : grid → grid → Prop :=
| gen_same g : gen_step g g
| gen_mark g g' p :
    in_bounds p →
    modify_cell g p.1 p.2 (set_visited true) = Some g' →
    gen_step g g'
| gen_break g g' p d :
    in_bounds p → in_bounds (step p d) →
    carve g p d = Some g' →
    gen_step g g'.

(** The operations of the solver on the table. *)
Inductive solve_step : grid → grid → Prop :=
| solve_same g : solve_step g g
| solve_mark g g' p :
    in_bounds p →
    modify_cell g p.1 p.2 (set_visited true) = Some g' →
    solve_step g g'.

(** The operations of the constructor after the table is built. *)
Inductive init_step : grid → grid → Prop :=
| init_gen g g' : gen_step g g' → init_step g g'
| init_entrance g g' :
    in_bounds (0, 0) →
    modify_cell g 0 0 (set_wall Top false) = Some g' → init_step g g'
| init_exit g g' :
    in_bounds (num_rows self - 1, num_cols self - 1) →
    modify_cell g (num_rows self - 1) (num_cols self - 1) (set_wall Bottom false) = Some g' →
    init_step g g'
| init_clear g g' p :
    in_bounds p →
    modify_cell g p.1 p.2 (set_visited false) = Some g' →
    init_step g g'.

(** How one table relates to a later one. *)
Definition visited_grows (g g' : grid) : Prop :=
  ∀ q, in_bounds q → visitedb g q = true → visitedb g' q = true.

Definition walls_fall (g g' : grid) : Prop :=
  ∀ q d, in_bounds q → wallb g' q d = true → wallb g q d = true.

Definition same_walls (g g' : grid) : Prop :=
  ∀ q d, in_bounds q → wallb g' q d = wallb g q d.

Definition same_boxes (g g' : grid) : Prop :=
  ∀ q, in_bounds q → box_at g' q = box_at g q.

(** The entrance and the exit are open. *)
Definition openings (g : grid) : Prop :=
  wallb g (0, 0) Top = false ∧
  wallb g (num_rows self - 1, num_cols self - 1) Bottom = false.

(** No cell is marked. *)
Definition all_unvisited (g : grid) : Prop :=
  ∀ q, in_bounds q → visitedb g q = false.

End Vocabulary.

(** ** Logs *)

(** The table after the newest of the entries [l], [g0] when there is none. *)
Definition last_grid (g0 : grid) (l : list Entry) : grid :=
  match l with [] => g0 | e :: _ => after e end.

(** Every entry of [l] (newest first) is related by [rel] to the table
    before it, the table before the oldest entry being [g0]. *)
Fixpoint linked (rel : grid → grid → Prop) (g0 : grid) (l : list Entry) : Prop :=
  match l with
  | [] => True
  | e :: older => rel (last_grid g0 older) (after e) ∧ linked rel g0 older
  end.

(** A run from [st] to [st'] appended [new] to the log, one [rel] step per entry. *)
Definition extends_by (rel : grid → grid → Prop) (st st' : State) (new : list Entry) : Prop :=
  log st' = new ++ log st ∧
  cells st' = last_grid (cells st) new ∧
  linked rel (cells st) new.

(** The cells whose [visited] attribute was assigned [True], oldest first. *)
Definition entered (l : list Entry) : list (Z * Z) :=
  omap (fun e => match ev e with SetVisited i j => Some (i, j) | _ => None end) (rev l).

(** The wall pairs broken, oldest first. *)
Definition broken_sequence (l : list Entry) : list (Z * Z * (Z * Z)) :=
  omap (fun e => match ev e with
                 | BreakWalls i j ni nj => Some ((i, j), (ni, nj))
                 | _ => None
                 end) (rev l).


(** The entries of [l] are window operations only, recorded with table [g]. *)
Definition rendering (e : Event) : Prop :=
  match e with CreateLine _ _ | Redraw => True | _ => False end.

Definition render_only (g : grid) (l : list Entry) : Prop :=
  Forall (fun e => after e = g ∧ rendering (ev e)) l.

(** A run from [st] to [st'] that only talked to the window. *)
Definition quiet (st st' : State) (new : list Entry) : Prop :=
  cells st' = cells st ∧ draws st' = draws st ∧
  log st' = new ++ log st ∧ render_only (cells st) new.

(** ** The generator as a relation on tables *)

(** [gen_run self p g g']: the loop of [_break_walls_r] at cell [p], started
    on table [g], ends with table [g'], whatever the random choices were. *)
Inductive gen_run (self : Maze) : Z * Z → grid → grid → Prop :=
| gen_run_done p g :
    (∀ d, in_bounds self (step p d) → visitedb g (step p d) = true) →
    gen_run self p g g
| gen_run_carve p d g g1 g2 g3 g4 :
    in_bounds self (step p d) →
    visitedb g (step p d) = false →
    carve g p d = Some g1 →
    modify_cell g1 (step p d).1 (step p d).2 (set_visited true) = Some g2 →
    gen_run self (step p d) g2 g3 →
    gen_run self p g3 g4 →
    gen_run self p g g4.

(** The wall pair between [p] and its neighbour on side [d], named from
    the cell that has it on its right or bottom side. *)
Definition pair_of (p : Z * Z) (d : Side) : Z * Z * Side :=
  match d with
  | Right | Bottom => (p, d)
  | Left | Top => (step p d, opposite d)
  end.

(** What holds of the table each time the loop of [_break_walls_r] is at
    its head, for a generation started at [root]: the visited cells are
    reachable from the root, there is one broken wall pair per visited cell
    other than the root, and an unvisited cell still has its interior walls. *)
Definition carved (self : Maze) (root : Z * Z) (g : grid) : Prop :=
  (∀ p, in_bounds self p → visitedb g p = true → reachable self g root p) ∧
  (broken_pairs self g + 1 = visited_count self g)%nat ∧
  (∀ p d, in_bounds self p → in_bounds self (step p d) →
     visitedb g p = false → wallb g p d = true).

(** ** The stages of the constructor *)

(** [construction self pick fuel st0 st_a st_b st_c st_d n_b n_c n_d]: the
    constructor, started in [st0], has built the table ([st_a]), opened the
    entrance and the exit ([st_b], log entries [n_b]), carved the maze
    ([st_c], entries [n_c]) and reset the marks ([st_d], entries [n_d]). *)
Record construction (self : Maze) (pick : nat → nat) (fuel : nat)
    (st0 st_a st_b st_c st_d : State) (n_b n_c n_d : list Entry) : Prop := {
  con_init : _init_cells self st0 = Ok (tt, st_a);
  con_open : _break_entrance_and_exit self st_a = Ok (tt, st_b);
  con_carve : _break_walls_r self pick fuel 0 0 st_b = Ok (tt, st_c);
  con_reset : _reset_cells_visited self st_c = Ok (tt, st_d);
  con_log_a : log st_a = mkEntry CreateCells (build_cells self) :: log st0;
  con_cells_a : cells st_a = build_cells self;
  con_ext_b : extends_by (init_step self) st_a st_b n_b;
  con_events_b :
    ev <$> n_b = [OpenWall (num_rows self - 1) (num_cols self - 1) Bottom;
                  OpenWall 0 0 Top];
  con_openings : openings self (cells st_b);
  con_ext_c : extends_by (gen_step self) st_b st_c n_c;
  con_carved : carved self (0, 0) (cells st_c);
  con_all_visited : ∀ q, in_bounds self q → visitedb (cells st_c) q = true;
  con_ext_d : extends_by (init_step self) st_c st_d n_d;
  con_cleared : ∀ q, in_bounds self q →
    cell_at (cells st_d) q.1 q.2 = set_visited false <$> cell_at (cells st_c) q.1 q.2
}.

(** ** What a call of the solver guarantees *)

(** The cell the solver looks for. *)
Definition target (self : Maze) : Z * Z := (num_rows self - 1, num_cols self - 1).

(** A cell is closed when the solver has nothing left to try from it: every
    neighbour in the table behind an open wall of the cell is marked. *)
Definition closed_cell (self : Maze) (g : grid) (q : Z * Z) : Prop :=
  ∀ d, in_bounds self (step q d) → wallb g q d = false →
       visitedb g (step q d) = true.

(** [solve_post self allowed st b st' new]: a part of the search ran from
    [st] to [st'] with result [b] and log entries [new]; [allowed q] says
    which cells the part was allowed to enter. *)
Record solve_post (self : Maze) (allowed : Z * Z → Prop)
    (st : State) (b : bool) (st' : State) (new : list Entry) : Prop := {
  sp_ext : extends_by (solve_step self) st st' new;
  sp_nodup : NoDup (entered new);
  sp_entered : ∀ q, q ∈ entered new →
    in_bounds self q ∧ visitedb (cells st') q = true ∧ allowed q;
  sp_closed : b = false →
    ∀ q, in_bounds self q → visitedb (cells st') q = true → allowed q →
         closed_cell self (cells st') q;
  sp_target : b = false →
    visitedb (cells st') (target self) = true →
    visitedb (cells st) (target self) = true
}.

(** ** Concrete scenarios *)

(** A random generator that makes [random.choice] return the first
    element of its argument, and one that makes it return the element at
    index 1 (modulo the length). *)
Definition first_choice : nat → nat := fun _ => 0%nat.
Definition second_choice : nat → nat := fun _ => 1%nat.

(** A maze of two rows and two columns. *)
Definition two_by_two (x y sx sy : Z) (s : option Z) : Maze := mkMaze x y 2 2 sx sy s.

(** A maze of one row and two columns, and a table for it with the
    cells [a] and [b]. *)
Definition one_by_two (x y sx sy : Z) (s : option Z) : Maze := mkMaze x y 1 2 sx sy s.

Definition row_of_two (a b : Cell) (n : nat) (l : list Entry) : State :=
  mkState [[a; b]] n l.

(** Two cells side by side that break the mirror rule: the left one has
    no right wall, the right one has its left wall. *)
Definition cell_a : Cell := mkCell 0 0 10 10 true false true true false.
Definition cell_b : Cell := mkCell 10 0 20 10 true true true true false.

(** ** Vocabulary of the further properties *)

#[global] Instance Line_eq_dec : EqDecision Line.
Proof. solve_decision. Defined.

(** What the solver consults before a move: [b] is the neighbour of [a] on
    a side where [a] itself has no wall. *)
Definition door (self : Maze) (g : grid) (a b : Z * Z) : Prop :=
  in_bounds self a ∧ in_bounds self b ∧
  ∃ d, b = step a d ∧ wallb g a d = false.

(** Every cell is marked. *)
Definition all_visited (self : Maze) (g : grid) : Prop :=
  ∀ q, in_bounds self q → visitedb g q = true.

(** The log entries of one [_draw_cell] on cell [c], newest first. *)
Definition cell_drawing (c : Cell) (g : grid) : list Entry :=
  let bg := "#d9d9d9"%string in
  [mkEntry Redraw g;
   mkEntry (CreateLine (mkLine (top_x c) (bottom_y c) (bottom_x c) (bottom_y c))
              (if has_bottom_wall c then "black"%string else bg)) g;
   mkEntry (CreateLine (mkLine (top_x c) (top_y c) (bottom_x c) (top_y c))
              (if has_top_wall c then "black"%string else bg)) g;
   mkEntry (CreateLine (mkLine (bottom_x c) (top_y c) (bottom_x c) (bottom_y c))
              (if has_right_wall c then "black"%string else bg)) g;
   mkEntry (CreateLine (mkLine (top_x c) (top_y c) (top_x c) (bottom_y c))
              (if has_left_wall c then "black"%string else bg)) g].

(** The events of log entries, oldest first. *)
Definition events (l : list Entry) : list Event := rev (ev <$> l).

(** Counting the window refreshes and the lines of a log. *)
Definition is_redraw (e : Event) : bool :=
  match e with Redraw => true | _ => false end.

Definition is_line (e : Event) : bool :=
  match e with CreateLine _ _ => true | _ => false end.

Definition count_events (P : Event → bool) (l : list Entry) : nat :=
  length (filter (fun e => P e) (events l)).

(** The centre of a cell and the segment [draw_move] draws between two cells. *)
Definition centre (c : Cell) : Z * Z :=
  ((bottom_x c + top_x c) / 2, (bottom_y c + top_y c) / 2).

Definition segment (a b : Cell) : Line :=
  mkLine (centre a).1 (centre a).2 (centre b).1 (centre b).2.

(** The red segments left on the canvas: a red line is put on a stack, a
    gray line has to be the line on top of the stack and takes it off. *)
Fixpoint red_path (evs : list Event) (stack : list Line) : option (list Line) :=
  match evs with
  | [] => Some stack
  | CreateLine l color :: evs' =>
      if String.eqb color "red" then red_path evs' (l :: stack)
      else if String.eqb color "gray" then
        match stack with
        | top :: rest => if decide (top = l) then red_path evs' rest else None
        | [] => None
        end
      else red_path evs' stack
  | _ :: evs' => red_path evs' stack
  end.

(** [walk self g p q lines]: [lines] are the segments, from centre to
    centre, of a walk from [p] to [q] that goes from a cell to a neighbour
    only on a side where the cell has no wall. *)
Inductive walk (self : Maze) (g : grid) : Z * Z → Z * Z → list Line → Prop :=
| walk_here p : in_bounds self p → walk self g p p []
| walk_move p d q a b lines :
    in_bounds self p → in_bounds self (step p d) →
    wallb g p d = false →
    cell_at g p.1 p.2 = Some a →
    cell_at g (step p d).1 (step p d).2 = Some b →
    walk self g (step p d) q lines →
    walk self g p q (segment a b :: lines).

(** Two tables that differ in marks only. *)
Definition same_but_marks (self : Maze) (g g' : grid) : Prop :=
  ∀ q, in_bounds self q →
    set_visited false <$> cell_at g' q.1 q.2 = set_visited false <$> cell_at g q.1 q.2.

(** What a part of the search that started at cell [p] leaves in the log. *)
Record search_log (self : Maze) (p : Z * Z)
    (st : State) (b : bool) (st' : State) (new : list Entry) : Prop := {
  sl_log : log st' = new ++ log st;
  sl_marks : same_but_marks self (cells st) (cells st');
  sl_reach : ∀ q, q ∈ entered new → rtc (door self (cells st)) p q;
  sl_path : ∃ lines,
    (if b then walk self (cells st) p (target self) lines else lines = []) ∧
    ∀ stack, red_path (events new) stack = Some (rev lines ++ stack);
  sl_marked : ∀ q, in_bounds self q → visitedb (cells st') q = true →
    visitedb (cells st) q = true ∨ q ∈ entered new;
  sl_found : b = true → target self ∈ entered new
}.

(** What one run of the loop of [_break_walls_r] adds to the log. *)
Record loop_log (self : Maze) (st st' : State) (new : list Entry) : Prop := {
  ll_log : log st' = new ++ log st;
  ll_wf : well_formed self (cells st');
  ll_grows : visited_grows self (cells st) (cells st');
  ll_nodup : NoDup (entered new);
  ll_entered : ∀ q, q ∈ entered new →
    in_bounds self q ∧ visitedb (cells st) q = false ∧ visitedb (cells st') q = true;
  ll_all : ∀ q, in_bounds self q → visitedb (cells st') q = true →
    visitedb (cells st) q = true ∨ q ∈ entered new;
  ll_parents : entered new = snd <$> broken_sequence new;
  ll_pairs : ∀ a b, (a, b) ∈ broken_sequence new →
    in_bounds self a ∧ in_bounds self b ∧ ∃ d, b = step a d;
  ll_redraws : count_events is_redraw new = S (length (entered new));
  ll_lines : count_events is_line new = (4 * count_events is_redraw new)%nat;
  ll_draws : draws st' = (draws st + length (entered new))%nat
}.

(** * Properties *)

(** ** Python indexing at non-negative positions *)

Lemma py_index_nonneg (len : nat) (i : Z) :
  0 ≤ i →
  py_index len i = if decide (i < Z.of_nat len) then Some (Z.to_nat i) else None.
Proof.
  intros Hi. unfold py_index.
  destruct (Z.leb_spec 0 i); [|lia].
  destruct (Z.ltb_spec i (Z.of_nat len)); case_decide; (done || lia).
Qed.

Lemma py_get_nonneg {A} (l : list A) (i : Z) :
  0 ≤ i → py_get l i = l !! Z.to_nat i.
Proof.
  intros Hi. unfold py_get. rewrite py_index_nonneg by lia.
  case_decide; simpl; [done|].
  symmetry. apply lookup_ge_None. lia.
Qed.

Lemma cell_at_nonneg (g : grid) (i j : Z) :
  0 ≤ i → 0 ≤ j →
  cell_at g i j = g !! Z.to_nat i ≫= (fun row => row !! Z.to_nat j).
Proof.
  intros Hi Hj. unfold cell_at. rewrite py_get_nonneg by lia.
  destruct (g !! Z.to_nat i) as [row|]; simpl; [|done].
  by apply py_get_nonneg.
Qed.

Lemma modify_cell_nonneg (g : grid) (i j : Z) (f : Cell → Cell) :
  0 ≤ i → 0 ≤ j →
  modify_cell g i j f =
    row ← g !! Z.to_nat i; c ← row !! Z.to_nat j;
    Some (<[Z.to_nat i := <[Z.to_nat j := f c]> row]> g).
Proof.
  intros Hi Hj. unfold modify_cell. rewrite py_index_nonneg by lia.
  case_decide as Hlt; simpl.
  - destruct (g !! Z.to_nat i) as [row|]; simpl; [|done].
    rewrite py_index_nonneg by lia.
    case_decide as Hlt'; simpl; [done|].
    rewrite (proj2 (lookup_ge_None row (Z.to_nat j))) by lia. done.
  - rewrite (proj2 (lookup_ge_None g (Z.to_nat i))) by lia. done.
Qed.

Lemma cell_at_modify (g g' : grid) (i j i' j' : Z) (f : Cell → Cell) :
  0 ≤ i → 0 ≤ j → 0 ≤ i' → 0 ≤ j' →
  modify_cell g i j f = Some g' →
  cell_at g' i' j' =
    if decide ((i, j) = (i', j')) then f <$> cell_at g i j else cell_at g i' j'.
Proof.
  intros Hi Hj Hi' Hj' Hm.
  rewrite modify_cell_nonneg in Hm by done.
  rewrite !cell_at_nonneg by lia.
  destruct (g !! Z.to_nat i) as [row|] eqn:Hrow; simpl in Hm; [|done].
  destruct (row !! Z.to_nat j) as [c|] eqn:Hc; simpl in Hm; [|done].
  injection Hm as <-.
  pose proof (lookup_lt_Some _ _ _ Hrow) as Hlen.
  pose proof (lookup_lt_Some _ _ _ Hc) as Hlen'.
  case_decide as Heq.
  - injection Heq as <- <-.
    rewrite list_lookup_insert_eq by done. simpl.
    rewrite list_lookup_insert_eq by done. by rewrite Hc.
  - destruct (decide (i = i')) as [<-|Hne].
    + rewrite list_lookup_insert_eq by done. rewrite Hrow. simpl.
      rewrite list_lookup_insert_ne; [done|]. intros Hz. apply Heq. f_equal. lia.
    + rewrite list_lookup_insert_ne; [done|]. lia.
Qed.

Lemma modify_cell_length (g g' : grid) (i j : Z) (f : Cell → Cell) :
  0 ≤ i → 0 ≤ j →
  modify_cell g i j f = Some g' →
  length g' = length g ∧
  ∀ n, length <$> (g' !! n) = length <$> (g !! n).
Proof.
  intros Hi Hj Hm. rewrite modify_cell_nonneg in Hm by done.
  destruct (g !! Z.to_nat i) as [row|] eqn:Hrow; simpl in Hm; [|done].
  destruct (row !! Z.to_nat j) as [c|] eqn:Hc; simpl in Hm; [|done].
  injection Hm as <-. split; [by rewrite length_insert|].
  intros n. destruct (decide (n = Z.to_nat i)) as [->|Hne].
  - rewrite list_lookup_insert_eq by (by eapply lookup_lt_Some).
    rewrite Hrow. simpl. by rewrite length_insert.
  - by rewrite list_lookup_insert_ne.
Qed.

Section Basics.

Variable self : Maze.

Lemma well_formed_lookup (g : grid) (i j : Z) :
  well_formed self g → in_bounds self (i, j) →
  ∃ row c, g !! Z.to_nat i = Some row ∧ row !! Z.to_nat j = Some c.
Proof.
  intros [Hlen Hrows] [Hi Hj]. simpl in *.
  destruct (lookup_lt_is_Some_2 g (Z.to_nat i)) as [row Hrow]; [lia|].
  rewrite Forall_lookup in Hrows. specialize (Hrows _ _ Hrow). simpl in Hrows.
  destruct (lookup_lt_is_Some_2 row (Z.to_nat j)) as [c Hc]; [lia|].
  eauto.
Qed.

Lemma cell_at_in_bounds (g : grid) (i j : Z) :
  well_formed self g → in_bounds self (i, j) → is_Some (cell_at g i j).
Proof.
  intros Hwf Hin. destruct (well_formed_lookup g i j Hwf Hin) as (row & c & Hrow & Hc).
  destruct Hin as [Hi Hj]. simpl in *.
  rewrite cell_at_nonneg by lia. rewrite Hrow. simpl. eauto.
Qed.

Lemma modify_cell_in_bounds (g : grid) (i j : Z) (f : Cell → Cell) :
  well_formed self g → in_bounds self (i, j) → is_Some (modify_cell g i j f).
Proof.
  intros Hwf Hin. destruct (well_formed_lookup g i j Hwf Hin) as (row & c & Hrow & Hc).
  destruct Hin as [Hi Hj]. simpl in *.
  rewrite modify_cell_nonneg by lia. rewrite Hrow. simpl. rewrite Hc. simpl. eauto.
Qed.

Lemma modify_cell_well_formed (g g' : grid) (i j : Z) (f : Cell → Cell) :
  0 ≤ i → 0 ≤ j →
  well_formed self g → modify_cell g i j f = Some g' → well_formed self g'.
Proof.
  intros Hi Hj [Hlen Hrows] Hm.
  destruct (modify_cell_length g g' i j f Hi Hj Hm) as [Hl Hr].
  split; [congruence|].
  rewrite Forall_lookup in Hrows. apply Forall_lookup. intros n row Hrow.
  specialize (Hr n). rewrite Hrow in Hr. simpl in Hr.
  destruct (g !! n) as [row0|] eqn:Hrow0; simpl in Hr; [|done].
  specialize (Hrows _ _ Hrow0). simpl in Hrows. congruence.
Qed.

End Basics.

(** ** Flags after an assignment *)

Lemma has_wall_set_wall (d d' : Side) (b : bool) (c : Cell) :
  has_wall d' (set_wall d b c) = if decide (d' = d) then b else has_wall d' c.
Proof. destruct d, d'; reflexivity. Qed.

Lemma visited_set_wall (d : Side) (b : bool) (c : Cell) :
  visited (set_wall d b c) = visited c.
Proof. by destruct d. Qed.

Lemma box_set_wall (d : Side) (b : bool) (c : Cell) : box (set_wall d b c) = box c.
Proof. by destruct d. Qed.

Lemma has_wall_set_visited (d : Side) (b : bool) (c : Cell) :
  has_wall d (set_visited b c) = has_wall d c.
Proof. by destruct d. Qed.

Lemma opposite_involutive (d : Side) : opposite (opposite d) = d.
Proof. by destruct d. Qed.

Lemma opposite_ne (d : Side) : opposite d ≠ d.
Proof. by destruct d. Qed.

Lemma step_opposite (p : Z * Z) (d : Side) : step (step p d) (opposite d) = p.
Proof. destruct p as [i j], d; simpl; f_equal; lia. Qed.

Lemma step_ne (p : Z * Z) (d : Side) : step p d ≠ p.
Proof. destruct p as [i j], d; simpl; intros [=]; lia. Qed.

Lemma step_inj (p : Z * Z) (d d' : Side) : step p d = step p d' → d = d'.
Proof. destruct p as [i j], d, d'; simpl; intros [=]; (done || lia). Qed.

Lemma step_inj_l (p q : Z * Z) (d : Side) : step p d = step q d → p = q.
Proof.
  destruct p as [i j], q as [i' j'], d; simpl; intros [=]; f_equal; lia.
Qed.

Lemma in_bounds_nonneg (self : Maze) (p : Z * Z) : in_bounds self p → nonneg p.
Proof. intros [? ?]. split; lia. Qed.
#[local] Hint Resolve in_bounds_nonneg : core.

Lemma cell_at_modify_pair (g g' : grid) (p q : Z * Z) (f : Cell → Cell) :
  nonneg p → nonneg q →
  modify_cell g p.1 p.2 f = Some g' →
  cell_at g' q.1 q.2 =
    if decide (q = p) then f <$> cell_at g p.1 p.2 else cell_at g q.1 q.2.
Proof.
  intros [? ?] [? ?] Hm.
  rewrite (cell_at_modify g g' p.1 p.2 q.1 q.2 f) by done.
  destruct p, q; simpl. repeat case_decide; (done || congruence).
Qed.

Lemma modify_cell_Some_cell (g g' : grid) (p : Z * Z) (f : Cell → Cell) :
  nonneg p → modify_cell g p.1 p.2 f = Some g' → is_Some (cell_at g p.1 p.2).
Proof.
  intros [? ?] Hm. rewrite modify_cell_nonneg in Hm by lia.
  rewrite cell_at_nonneg by lia.
  destruct (g !! Z.to_nat p.1) as [row|]; simpl in *; [|done].
  destruct (row !! Z.to_nat p.2) as [c|]; simpl in *; [eauto|done].
Qed.

Section Flags.

Variables (g g' : grid) (p : Z * Z).
Hypothesis Hp : nonneg p.

Lemma wallb_modify_wall (d : Side) (b : bool) (q : Z * Z) (d' : Side) :
  nonneg q →
  modify_cell g p.1 p.2 (set_wall d b) = Some g' →
  wallb g' q d' = if decide (q = p ∧ d' = d) then b else wallb g q d'.
Proof.
  intros Hq Hm. unfold wallb.
  rewrite (cell_at_modify_pair g g' p q _ Hp Hq Hm).
  destruct (modify_cell_Some_cell g g' p _ Hp Hm) as [c Hc].
  destruct (decide (q = p)) as [->|Hne].
  - rewrite Hc. simpl. rewrite has_wall_set_wall.
    destruct (decide (d' = d)) as [->|Hd].
    + by rewrite decide_True.
    + rewrite decide_False; [done|]. by intros [_ ?].
  - rewrite decide_False; [done|]. by intros [? _].
Qed.

Lemma visitedb_modify_wall (d : Side) (b : bool) (q : Z * Z) :
  nonneg q →
  modify_cell g p.1 p.2 (set_wall d b) = Some g' →
  visitedb g' q = visitedb g q.
Proof.
  intros Hq Hm. unfold visitedb.
  rewrite (cell_at_modify_pair g g' p q _ Hp Hq Hm).
  destruct (modify_cell_Some_cell g g' p _ Hp Hm) as [c Hc].
  destruct (decide (q = p)) as [->|Hne]; [|done].
  rewrite Hc. simpl. apply visited_set_wall.
Qed.

Lemma box_at_modify_wall (d : Side) (b : bool) (q : Z * Z) :
  nonneg q →
  modify_cell g p.1 p.2 (set_wall d b) = Some g' →
  box_at g' q = box_at g q.
Proof.
  intros Hq Hm. unfold box_at.
  rewrite (cell_at_modify_pair g g' p q _ Hp Hq Hm).
  destruct (modify_cell_Some_cell g g' p _ Hp Hm) as [c Hc].
  destruct (decide (q = p)) as [->|Hne]; [|done].
  rewrite Hc. simpl. by rewrite box_set_wall.
Qed.

Lemma wallb_modify_visited (b : bool) (q : Z * Z) (d : Side) :
  nonneg q →
  modify_cell g p.1 p.2 (set_visited b) = Some g' →
  wallb g' q d = wallb g q d.
Proof.
  intros Hq Hm. unfold wallb.
  rewrite (cell_at_modify_pair g g' p q _ Hp Hq Hm).
  destruct (modify_cell_Some_cell g g' p _ Hp Hm) as [c Hc].
  destruct (decide (q = p)) as [->|Hne]; [|done].
  rewrite Hc. simpl. apply has_wall_set_visited.
Qed.

Lemma visitedb_modify_visited (b : bool) (q : Z * Z) :
  nonneg q →
  modify_cell g p.1 p.2 (set_visited b) = Some g' →
  visitedb g' q = if decide (q = p) then b else visitedb g q.
Proof.
  intros Hq Hm. unfold visitedb.
  rewrite (cell_at_modify_pair g g' p q _ Hp Hq Hm).
  destruct (modify_cell_Some_cell g g' p _ Hp Hm) as [c Hc].
  destruct (decide (q = p)) as [->|Hne]; [|done].
  by rewrite Hc.
Qed.

Lemma box_at_modify_visited (b : bool) (q : Z * Z) :
  nonneg q →
  modify_cell g p.1 p.2 (set_visited b) = Some g' →
  box_at g' q = box_at g q.
Proof.
  intros Hq Hm. unfold box_at.
  rewrite (cell_at_modify_pair g g' p q _ Hp Hq Hm).
  destruct (modify_cell_Some_cell g g' p _ Hp Hm) as [c Hc].
  destruct (decide (q = p)) as [->|Hne]; [|done].
  by rewrite Hc.
Qed.

End Flags.

Section Carve.

Variables (g g' : grid) (p : Z * Z) (d : Side).
Hypothesis Hp : nonneg p.
Hypothesis Hn : nonneg (step p d).
Hypothesis Hcarve : carve g p d = Some g'.

Lemma wallb_carve (q : Z * Z) (d' : Side) :
  nonneg q →
  wallb g' q d' =
    if decide ((q, d') = (p, d) ∨ (q, d') = (step p d, opposite d))
    then false else wallb g q d'.
Proof.
  intros Hq. unfold carve in Hcarve.
  destruct (modify_cell g p.1 p.2 (set_wall d false)) as [g1|] eqn:H1;
    simpl in Hcarve; [|done].
  rewrite (wallb_modify_wall g1 g' (step p d) Hn _ _ q d' Hq Hcarve).
  rewrite (wallb_modify_wall g g1 p Hp _ _ q d' Hq H1).
  destruct (decide (q = step p d ∧ d' = opposite d)) as [[-> ->]|Hfar].
  { rewrite decide_True; [done|by right]. }
  destruct (decide (q = p ∧ d' = d)) as [[-> ->]|Hnear].
  { rewrite decide_True; [done|by left]. }
  rewrite decide_False; [done|].
  intros [[= -> ->]|[= -> ->]]; [by apply Hnear|by apply Hfar].
Qed.

Lemma visitedb_carve (q : Z * Z) : nonneg q → visitedb g' q = visitedb g q.
Proof.
  intros Hq. unfold carve in Hcarve.
  destruct (modify_cell g p.1 p.2 (set_wall d false)) as [g1|] eqn:H1;
    simpl in Hcarve; [|done].
  rewrite (visitedb_modify_wall g1 g' (step p d) Hn _ _ q Hq Hcarve).
  apply (visitedb_modify_wall g g1 p Hp _ _ q Hq H1).
Qed.

Lemma box_at_carve (q : Z * Z) : nonneg q → box_at g' q = box_at g q.
Proof.
  intros Hq. unfold carve in Hcarve.
  destruct (modify_cell g p.1 p.2 (set_wall d false)) as [g1|] eqn:H1;
    simpl in Hcarve; [|done].
  rewrite (box_at_modify_wall g1 g' (step p d) Hn _ _ q Hq Hcarve).
  apply (box_at_modify_wall g g1 p Hp _ _ q Hq H1).
Qed.

Lemma carve_well_formed (self : Maze) : well_formed self g → well_formed self g'.
Proof.
  intros Hwf. unfold carve in Hcarve.
  destruct (modify_cell g p.1 p.2 (set_wall d false)) as [g1|] eqn:H1;
    simpl in Hcarve; [|done].
  destruct Hp, Hn.
  apply (modify_cell_well_formed self g1 g' _ _ _) in Hcarve; [done..|].
  by apply (modify_cell_well_formed self g g1 _ _ _) in H1.
Qed.

End Carve.

Lemma carve_in_bounds (self : Maze) (g : grid) (p : Z * Z) (d : Side) :
  well_formed self g → in_bounds self p → in_bounds self (step p d) →
  is_Some (carve g p d).
Proof.
  intros Hwf Hp Hn. unfold carve.
  destruct (modify_cell_in_bounds self g p.1 p.2 (set_wall d false) Hwf) as [g1 H1];
    [by destruct p|].
  rewrite H1. simpl. apply (modify_cell_in_bounds self); [|by destruct (step p d)].
  destruct Hp as [? ?].
  apply (modify_cell_well_formed self g g1 p.1 p.2 (set_wall d false)); (done || lia).
Qed.

(** ** The monad and the log *)

#[local] Arguments bind : simpl never.
#[local] Arguments update : simpl never.
#[local] Arguments mark_visited : simpl never.
#[local] Arguments random_choice : simpl never.
#[local] Arguments read_cell : simpl never.
#[local] Arguments _draw_cell : simpl never.
#[local] Arguments _animate : simpl never.
#[local] Arguments Cell_draw_move : simpl never.

Lemma bind_Ok {A B} (m : M A) (k : A → M B) (st st1 : State) (a : A) :
  m st = Ok (a, st1) → bind m k st = k a st1.
Proof. intros H. unfold bind. by rewrite H. Qed.

Lemma last_grid_app (g0 : grid) (l2 l1 : list Entry) :
  last_grid g0 (l2 ++ l1) = last_grid (last_grid g0 l1) l2.
Proof. by destruct l2. Qed.

Lemma linked_app (rel : grid → grid → Prop) (g0 : grid) (l2 l1 : list Entry) :
  linked rel g0 (l2 ++ l1) ↔ linked rel g0 l1 ∧ linked rel (last_grid g0 l1) l2.
Proof.
  induction l2 as [|e l2 IH]; simpl; [tauto|].
  rewrite IH, last_grid_app. tauto.
Qed.

Lemma linked_impl (rel rel' : grid → grid → Prop) (g0 : grid) (l : list Entry) :
  (∀ g g', rel g g' → rel' g g') → linked rel g0 l → linked rel' g0 l.
Proof. intros Hsub. induction l as [|e l IH]; simpl; [done|]. intros [? ?]. auto. Qed.

(** A property kept by every step holds at every entry. *)
Lemma linked_invariant (rel : grid → grid → Prop) (P : grid → Prop) (g0 : grid)
    (l : list Entry) :
  (∀ g g', rel g g' → P g → P g') →
  P g0 → linked rel g0 l →
  Forall (fun e => P (after e)) l ∧ P (last_grid g0 l).
Proof.
  intros Hstep H0. induction l as [|e l IH]; simpl; [done|].
  intros [Hrel Hl]. destruct (IH Hl) as [Hall Hlast].
  assert (P (after e)) by eauto. split; [by constructor|done].
Qed.

(** A preorder that contains every step relates the two ends. *)
Lemma linked_ends (rel Q : grid → grid → Prop) (g0 : grid) (l : list Entry) :
  (∀ g, Q g g) → (∀ g1 g2 g3, Q g1 g2 → Q g2 g3 → Q g1 g3) →
  (∀ g g', rel g g' → Q g g') →
  linked rel g0 l → Q g0 (last_grid g0 l).
Proof.
  intros Hrefl Htrans Hsub. induction l as [|e l IH]; simpl; [done|].
  intros [Hrel Hl]. eauto.
Qed.

Lemma extends_by_refl (rel : grid → grid → Prop) (st : State) :
  extends_by rel st st [].
Proof. by split. Qed.

Lemma extends_by_trans (rel : grid → grid → Prop) (st st1 st2 : State)
    (n1 n2 : list Entry) :
  extends_by rel st st1 n1 → extends_by rel st1 st2 n2 →
  extends_by rel st st2 (n2 ++ n1).
Proof.
  intros (Hl1 & Hc1 & Hk1) (Hl2 & Hc2 & Hk2). split; [|split].
  - rewrite Hl2, Hl1. by rewrite app_assoc.
  - rewrite last_grid_app. congruence.
  - apply linked_app. split; [done|congruence].
Qed.

Lemma extends_by_impl (rel rel' : grid → grid → Prop) (st st' : State)
    (new : list Entry) :
  (∀ g g', rel g g' → rel' g g') →
  extends_by rel st st' new → extends_by rel' st st' new.
Proof. intros Hsub (? & ? & ?). repeat split; eauto using linked_impl. Qed.

Lemma render_only_linked (rel : grid → grid → Prop) (g : grid) (l : list Entry) :
  (∀ g, rel g g) → render_only g l → linked rel g l ∧ last_grid g l = g.
Proof.
  intros Hrefl. induction 1 as [|e l [He _] _ [IH1 IH2]]; simpl; [done|].
  rewrite IH2, He. auto.
Qed.

Lemma entered_app (l2 l1 : list Entry) : entered (l2 ++ l1) = entered l1 ++ entered l2.
Proof. unfold entered. by rewrite rev_app_distr, omap_app. Qed.

Lemma render_only_entered (g : grid) (l : list Entry) :
  render_only g l → entered l = [].
Proof.
  induction 1 as [|e l [_ He] _ IH]; [done|].
  change (e :: l) with ([e] ++ l). rewrite entered_app, IH. simpl.
  unfold entered. simpl. by destruct (ev e).
Qed.

(** ** Counting with [filter] *)

Section Filter.

Context {A : Type} (P Q : A → Prop).
Context `{!∀ x, Decision (P x), !∀ x, Decision (Q x)}.

Lemma filter_length_mono (l : list A) :
  (∀ x, x ∈ l → P x → Q x) → (length (filter P l) ≤ length (filter Q l))%nat.
Proof.
  induction l as [|x l IH]; intros Hsub; [done|].
  rewrite !filter_cons.
  assert (length (filter P l) ≤ length (filter Q l))%nat as Hle.
  { apply IH. intros y Hy. apply Hsub. by right. }
  assert (P x → Q x) as Hx by (apply Hsub; by left).
  destruct (decide (P x)), (decide (Q x)); simpl; (lia || tauto).
Qed.

Lemma filter_length_ext (l : list A) :
  (∀ x, x ∈ l → (P x ↔ Q x)) → length (filter P l) = length (filter Q l).
Proof.
  induction l as [|x l IH]; intros Hiff; [done|].
  rewrite !filter_cons.
  assert (length (filter P l) = length (filter Q l)) as Heq.
  { apply IH. intros y Hy. apply Hiff. by right. }
  assert (P x ↔ Q x) as Hx by (apply Hiff; by left).
  destruct (decide (P x)), (decide (Q x)); simpl; (lia || tauto).
Qed.

(** [Q] is [P] with one more element of a duplicate-free list. *)
Lemma filter_length_flip (l : list A) (x : A) :
  NoDup l → x ∈ l → ¬ P x → Q x →
  (∀ y, y ∈ l → y ≠ x → (P y ↔ Q y)) →
  length (filter Q l) = S (length (filter P l)).
Proof.
  intros Hnd Hin HP HQ Hiff.
  induction l as [|y l IH]; [by apply elem_of_nil in Hin|].
  apply NoDup_cons in Hnd as [Hy Hnd].
  rewrite !filter_cons.
  apply elem_of_cons in Hin as [<-|Hin].
  - assert (length (filter P l) = length (filter Q l)) as Heq.
    { apply filter_length_ext. intros z Hz. apply Hiff; [by right|].
      intros ->. done. }
    destruct (decide (P x)), (decide (Q x)); simpl; (lia || tauto).
  - assert (length (filter Q l) = S (length (filter P l))) as Heq.
    { apply IH; [done..|]. intros z Hz. apply Hiff. by right. }
    assert (P y ↔ Q y) as Hiffy.
    { apply Hiff; [by left|]. intros ->. done. }
    destruct (decide (P y)), (decide (Q y)); simpl; (lia || tauto).
Qed.

Lemma filter_length_all (l : list A) :
  (∀ x, x ∈ l → P x) → length (filter P l) = length l.
Proof.
  induction l as [|x l IH]; intros Hall; [done|].
  rewrite filter_cons. rewrite decide_True by (apply Hall; by left).
  simpl. f_equal. apply IH. intros y Hy. apply Hall. by right.
Qed.

End Filter.

Lemma length_bind_const {A B} (f : A → list B) (k : nat) (l : list A) :
  (∀ x, length (f x) = k) → length (l ≫= f) = (length l * k)%nat.
Proof.
  intros Hk. induction l as [|x l IH]; [done|].
  change ((x :: l) ≫= f) with (f x ++ (l ≫= f)).
  rewrite length_app, IH, Hk. simpl. lia.
Qed.

(** ** Positions and wall pairs *)

Section Positions.

Variable self : Maze.

Lemma elem_of_all_cells (p : Z * Z) : p ∈ all_cells self ↔ in_bounds self p.
Proof.
  unfold all_cells, in_bounds, range. rewrite list_elem_of_bind. split.
  - intros (i & Hp & Hi). apply list_elem_of_bind in Hp as (j & Hp & Hj).
    apply list_elem_of_singleton in Hp as ->.
    apply elem_of_seqZ in Hi, Hj. simpl. lia.
  - intros [Hi Hj]. exists p.1. split; [|apply elem_of_seqZ; lia].
    apply list_elem_of_bind. exists p.2. split; [|apply elem_of_seqZ; lia].
    apply list_elem_of_singleton. by destruct p.
Qed.

Lemma NoDup_all_cells : NoDup (all_cells self).
Proof.
  unfold all_cells, range. apply NoDup_bind; [| |apply NoDup_seqZ].
  - intros i1 i2 p _ _ H1 H2.
    apply list_elem_of_bind in H1 as (j1 & H1 & _).
    apply list_elem_of_bind in H2 as (j2 & H2 & _).
    apply list_elem_of_singleton in H1, H2. congruence.
  - intros i _. apply NoDup_bind; [| |apply NoDup_seqZ].
    + intros j1 j2 p _ _ H1 H2.
      apply list_elem_of_singleton in H1, H2. congruence.
    + intros j _. apply NoDup_singleton.
Qed.

Lemma length_all_cells :
  length (all_cells self) = (Z.to_nat (num_rows self) * Z.to_nat (num_cols self))%nat.
Proof.
  unfold all_cells, range.
  rewrite (length_bind_const _ (Z.to_nat (num_cols self))).
  - by rewrite length_seqZ.
  - intros i. rewrite (length_bind_const _ 1%nat) by done.
    rewrite length_seqZ. lia.
Qed.

Lemma elem_of_wall_pairs (p : Z * Z) (d : Side) :
  (p, d) ∈ wall_pairs self ↔
  in_bounds self p ∧ in_bounds self (step p d) ∧ (d = Right ∨ d = Bottom).
Proof.
  unfold wall_pairs. rewrite list_elem_of_bind. split.
  - intros (q & Hpd & Hq). apply elem_of_all_cells in Hq.
    apply list_elem_of_bind in Hpd as (d' & Hpd & Hd').
    case_decide as Hin; [|by apply elem_of_nil in Hpd].
    apply list_elem_of_singleton in Hpd as [= -> ->].
    split; [done|]. split; [done|].
    apply elem_of_cons in Hd' as [->|Hd']; [by left|].
    apply list_elem_of_singleton in Hd' as ->. by right.
  - intros (Hp & Hn & Hd). exists p. split; [|by apply elem_of_all_cells].
    apply list_elem_of_bind. exists d. split.
    + rewrite decide_True by done. by apply list_elem_of_singleton.
    + destruct Hd as [-> | ->]; [by left|]. right. by left.
Qed.

Lemma NoDup_wall_pairs : NoDup (wall_pairs self).
Proof.
  unfold wall_pairs. apply NoDup_bind; [| |apply NoDup_all_cells].
  - intros p1 p2 e _ _ H1 H2.
    apply list_elem_of_bind in H1 as (d1 & H1 & _).
    apply list_elem_of_bind in H2 as (d2 & H2 & _).
    repeat case_decide; try (by apply elem_of_nil in H1); try (by apply elem_of_nil in H2).
    apply list_elem_of_singleton in H1, H2. congruence.
  - intros p _. apply NoDup_bind.
    + intros d1 d2 e _ _ H1 H2.
      repeat case_decide; try (by apply elem_of_nil in H1); try (by apply elem_of_nil in H2).
      apply list_elem_of_singleton in H1, H2. congruence.
    + intros d _. case_decide; [apply NoDup_singleton|apply NoDup_nil_2].
    + apply NoDup_cons. split; [|apply NoDup_singleton].
      intros H. by apply list_elem_of_singleton in H.
Qed.

(** The counts of visited and unvisited cells add up. *)
Lemma visited_unvisited (g : grid) :
  (visited_count self g + unvisited_count self g)%nat = length (all_cells self).
Proof.
  unfold visited_count, unvisited_count.
  induction (all_cells self) as [|p l IH]; [done|].
  rewrite !filter_cons.
  destruct (visitedb g p); simpl; repeat case_decide; simpl in *; (done || lia).
Qed.

End Positions.

(** ** The primitive operations *)

Lemma quiet_refl (st : State) : quiet st st [].
Proof. repeat split. constructor. Qed.

Lemma quiet_trans (st st1 st2 : State) (n1 n2 : list Entry) :
  quiet st st1 n1 → quiet st1 st2 n2 → quiet st st2 (n2 ++ n1).
Proof.
  intros (Hc1 & Hd1 & Hl1 & Hr1) (Hc2 & Hd2 & Hl2 & Hr2). repeat split.
  - congruence.
  - congruence.
  - rewrite Hl2, Hl1. by rewrite app_assoc.
  - apply Forall_app. split; [by rewrite <- Hc1|done].
Qed.

Lemma quiet_extends_by (rel : grid → grid → Prop) (st st' : State) (new : list Entry) :
  (∀ g, rel g g) → quiet st st' new → extends_by rel st st' new.
Proof.
  intros Hrefl (Hc & _ & Hl & Hr).
  destruct (render_only_linked rel _ _ Hrefl Hr) as [Hlk Hlast].
  repeat split; [done|congruence|done].
Qed.

Lemma emit_quiet (e : Event) (st : State) :
  rendering e →
  ∃ st', emit e st = Ok (tt, st') ∧ quiet st st' [mkEntry e (cells st)].
Proof.
  intros He. eexists. split; [reflexivity|].
  repeat split. by repeat constructor.
Qed.

Lemma Cell_draw_quiet (c : Cell) (color : string) (st : State) :
  ∃ st' new, Cell_draw c color st = Ok (tt, st') ∧ quiet st st' new.
Proof.
  eexists (mkState (cells st) (draws st) (_ :: _ :: _ :: _ :: log st)), [_; _; _; _].
  split; [reflexivity|]. by repeat split; repeat constructor.
Qed.

Lemma Cell_draw_move_quiet (c to_cell : Cell) (undo : bool) (st : State) :
  ∃ st' new, Cell_draw_move c to_cell undo st = Ok (tt, st') ∧ quiet st st' new.
Proof.
  eexists (mkState (cells st) (draws st) (_ :: log st)), [_].
  split; [reflexivity|]. by repeat split; repeat constructor.
Qed.

Lemma update_Ok (e : Event) (f : grid → option grid) (st : State) (g' : grid) :
  f (cells st) = Some g' →
  update e f st = Ok (tt, mkState g' (draws st) (mkEntry e g' :: log st)).
Proof. intros H. unfold update. by rewrite H. Qed.

Lemma extends_by_single (rel : grid → grid → Prop) (st : State) (e : Event) (g' : grid) :
  rel (cells st) g' →
  extends_by rel st (mkState g' (draws st) (mkEntry e g' :: log st)) [mkEntry e g'].
Proof. intros H. by repeat split. Qed.

Section Primitives.

Variable self : Maze.
Variable pick : nat → nat.

Lemma read_cell_Ok (i j : Z) (st : State) :
  well_formed self (cells st) → in_bounds self (i, j) →
  ∃ c, cell_at (cells st) i j = Some c ∧ read_cell i j st = Ok (c, st).
Proof.
  intros Hwf Hin. destruct (cell_at_in_bounds self _ i j Hwf Hin) as [c Hc].
  exists c. split; [done|]. unfold read_cell. by rewrite Hc.
Qed.

Lemma _draw_cell_quiet (i j : Z) (st : State) :
  well_formed self (cells st) → in_bounds self (i, j) →
  ∃ st' new, _draw_cell i j st = Ok (tt, st') ∧ quiet st st' new.
Proof.
  intros Hwf Hin. destruct (read_cell_Ok i j st Hwf Hin) as (c & _ & Hr).
  unfold _draw_cell. rewrite (bind_Ok _ _ _ _ _ Hr).
  destruct (Cell_draw_quiet c "black" st) as (st1 & n1 & Hd & Hq1).
  rewrite (bind_Ok _ _ _ _ _ Hd).
  destruct (emit_quiet Redraw st1 I) as (st2 & Ha & Hq2).
  exists st2, ([mkEntry Redraw (cells st1)] ++ n1). split; [done|].
  eapply quiet_trans; eauto.
Qed.

Lemma mark_visited_Ok (i j : Z) (st : State) :
  well_formed self (cells st) → in_bounds self (i, j) →
  ∃ g', modify_cell (cells st) i j (set_visited true) = Some g' ∧
        mark_visited i j st =
          Ok (tt, mkState g' (draws st) (mkEntry (SetVisited i j) g' :: log st)).
Proof.
  intros Hwf Hin.
  destruct (modify_cell_in_bounds self _ i j (set_visited true) Hwf Hin) as [g' Hg'].
  exists g'. split; [done|]. unfold mark_visited. by apply update_Ok.
Qed.

Lemma random_choice_Ok {A} (l : list A) (st : State) :
  l ≠ [] →
  ∃ x, x ∈ l ∧
       random_choice pick l st = Ok (x, mkState (cells st) (S (draws st)) (log st)).
Proof.
  intros Hne. unfold random_choice.
  destruct (lookup_lt_is_Some_2 l (pick (draws st) mod length l)%nat) as [x Hx].
  { apply Nat.mod_upper_bound. by destruct l. }
  exists x. rewrite Hx. split; [|done]. eapply list_elem_of_lookup_2; eauto.
Qed.

Lemma neighbors_step (i j : Z) :
  neighbors i j = step (i, j) <$> [Top; Bottom; Left; Right].
Proof. reflexivity. Qed.

Lemma collect_to_visit_Ok (st : State) (ns acc : list (Z * Z)) :
  well_formed self (cells st) →
  collect_to_visit self ns acc st =
    Ok (acc ++ filter (fun q => in_bounds self q ∧ visitedb (cells st) q = false) ns, st).
Proof.
  intros Hwf. revert acc. induction ns as [|[ti tj] ns IH]; intros acc; simpl.
  - by rewrite app_nil_r.
  - rewrite filter_cons.
    destruct (Z.ltb_spec ti 0); simpl.
    { rewrite IH. rewrite decide_False; [done|]. unfold in_bounds; simpl; lia. }
    destruct (Z.ltb_spec tj 0); simpl.
    { rewrite IH. rewrite decide_False; [done|]. unfold in_bounds; simpl; lia. }
    rewrite !Z.geb_leb.
    destruct (Z.leb_spec (num_rows self) ti); simpl.
    { rewrite IH. rewrite decide_False; [done|]. unfold in_bounds; simpl; lia. }
    destruct (Z.leb_spec (num_cols self) tj); simpl.
    { rewrite IH. rewrite decide_False; [done|]. unfold in_bounds; simpl; lia. }
    assert (in_bounds self (ti, tj)) as Hin by (unfold in_bounds; simpl; lia).
    destruct (read_cell_Ok ti tj st Hwf Hin) as (c & Hc & Hr).
    rewrite (bind_Ok _ _ _ _ _ Hr).
    assert (visitedb (cells st) (ti, tj) = visited c) as Hv.
    { unfold visitedb. simpl. by rewrite Hc. }
    destruct (visited c); simpl.
    + rewrite IH. rewrite decide_False; [done|]. rewrite Hv. by intros [_ ?].
    + rewrite IH. rewrite decide_True by done. by rewrite <- app_assoc.
Qed.

Lemma break_walls_between_carve (g : grid) (i j : Z) (d : Side) :
  break_walls_between i j (step (i, j) d).1 (step (i, j) d).2 g = carve g (i, j) d.
Proof.
  unfold break_walls_between, carve.
  destruct d; simpl.
  - destruct (Z.gtb_spec j j); [lia|]. destruct (Z.ltb_spec j j); [lia|].
    destruct (Z.gtb_spec (i - 1) i); [lia|]. destruct (Z.ltb_spec (i - 1) i); [done|lia].
  - destruct (Z.gtb_spec j j); [lia|]. destruct (Z.ltb_spec j j); [lia|].
    destruct (Z.gtb_spec (i + 1) i); [done|lia].
  - destruct (Z.gtb_spec (j - 1) j); [lia|]. destruct (Z.ltb_spec (j - 1) j); [done|lia].
  - destruct (Z.gtb_spec (j + 1) j); [done|lia].
Qed.

End Primitives.

(** ** The steps of the generator *)

Section GenSteps.

Variable self : Maze.

Lemma gen_step_well_formed (g g' : grid) :
  gen_step self g g' → well_formed self g → well_formed self g'.
Proof.
  intros [g0|g0 g1 p Hp Hm|g0 g1 p d Hp Hn Hc] Hwf; [done| |].
  - destruct Hp as [? ?].
    apply (modify_cell_well_formed self g0 g1 p.1 p.2 (set_visited true)); (done || lia).
  - eapply (carve_well_formed g0 g1 p d); eauto.
Qed.

Lemma gen_step_visited_grows (g g' : grid) :
  gen_step self g g' → visited_grows self g g'.
Proof.
  intros [g0|g0 g1 p Hp Hm|g0 g1 p d Hp Hn Hc] q Hq Hv; [done| |].
  - rewrite (visitedb_modify_visited g0 g1 p (in_bounds_nonneg _ _ Hp) true) by eauto.
    by case_decide.
  - rewrite (visitedb_carve g0 g1 p d); eauto.
Qed.

Lemma gen_step_walls_fall (g g' : grid) :
  gen_step self g g' → walls_fall self g g'.
Proof.
  intros [g0|g0 g1 p Hp Hm|g0 g1 p d Hp Hn Hc] q d' Hq Hw; [done| |].
  - by rewrite (wallb_modify_visited g0 g1 p (in_bounds_nonneg _ _ Hp) true) in Hw by eauto.
  - rewrite (wallb_carve g0 g1 p d) in Hw by eauto.
    by case_decide.
Qed.

Lemma gen_step_same_boxes (g g' : grid) :
  gen_step self g g' → same_boxes self g g'.
Proof.
  intros [g0|g0 g1 p Hp Hm|g0 g1 p d Hp Hn Hc] q Hq; [done| |].
  - apply (box_at_modify_visited g0 g1 p (in_bounds_nonneg _ _ Hp) true); eauto.
  - apply (box_at_carve g0 g1 p d); eauto.
Qed.

Lemma visited_grows_refl (g : grid) : visited_grows self g g.
Proof. by intros q. Qed.

Lemma visited_grows_trans (g1 g2 g3 : grid) :
  visited_grows self g1 g2 → visited_grows self g2 g3 → visited_grows self g1 g3.
Proof. intros H1 H2 q Hq Hv. eauto. Qed.

Lemma walls_fall_refl (g : grid) : walls_fall self g g.
Proof. by intros q d. Qed.

Lemma walls_fall_trans (g1 g2 g3 : grid) :
  walls_fall self g1 g2 → walls_fall self g2 g3 → walls_fall self g1 g3.
Proof. intros H1 H2 q d Hq Hw. eauto. Qed.

Lemma same_boxes_refl (g : grid) : same_boxes self g g.
Proof. by intros q. Qed.

Lemma same_boxes_trans (g1 g2 g3 : grid) :
  same_boxes self g1 g2 → same_boxes self g2 g3 → same_boxes self g1 g3.
Proof. intros H1 H2 q Hq. rewrite H2 by done. auto. Qed.

Lemma same_walls_refl (g : grid) : same_walls self g g.
Proof. by intros q d. Qed.

Lemma same_walls_trans (g1 g2 g3 : grid) :
  same_walls self g1 g2 → same_walls self g2 g3 → same_walls self g1 g3.
Proof. intros H1 H2 q d Hq. rewrite H2 by done. auto. Qed.

Lemma unvisited_count_mono (g g' : grid) :
  visited_grows self g g' → (unvisited_count self g' ≤ unvisited_count self g)%nat.
Proof.
  intros Hg. unfold unvisited_count. apply filter_length_mono.
  intros q Hq%elem_of_all_cells Hv.
  destruct (visitedb g q) eqn:E; [|done].
  rewrite (Hg q Hq E) in Hv. done.
Qed.

Lemma unvisited_count_mark (g g' : grid) (p : Z * Z) :
  in_bounds self p → visitedb g p = false →
  modify_cell g p.1 p.2 (set_visited true) = Some g' →
  unvisited_count self g = S (unvisited_count self g').
Proof.
  intros Hp Hv Hm. unfold unvisited_count.
  apply (filter_length_flip _ _ _ p).
  - apply NoDup_all_cells.
  - by apply elem_of_all_cells.
  - rewrite (visitedb_modify_visited g g' p (in_bounds_nonneg _ _ Hp) true) by eauto.
    rewrite decide_True by done. simpl. tauto.
  - by rewrite Hv.
  - intros q Hq%elem_of_all_cells Hne.
    rewrite (visitedb_modify_visited g g' p (in_bounds_nonneg _ _ Hp) true) by eauto.
    by rewrite decide_False.
Qed.

Lemma unvisited_count_carve (g g' : grid) (p : Z * Z) (d : Side) :
  in_bounds self p → in_bounds self (step p d) →
  carve g p d = Some g' →
  unvisited_count self g' = unvisited_count self g.
Proof.
  intros Hp Hn Hc. unfold unvisited_count. apply filter_length_ext.
  intros q Hq%elem_of_all_cells.
  by rewrite (visitedb_carve g g' p d) by eauto.
Qed.

Lemma extends_by_well_formed (st st' : State) (new : list Entry) :
  extends_by (gen_step self) st st' new →
  well_formed self (cells st) → well_formed self (cells st').
Proof.
  intros (_ & Hc & Hl) Hwf. rewrite Hc.
  eapply (linked_invariant (gen_step self) (well_formed self)); eauto.
  intros g g'. apply gen_step_well_formed.
Qed.

Lemma extends_by_visited_grows (st st' : State) (new : list Entry) :
  extends_by (gen_step self) st st' new →
  visited_grows self (cells st) (cells st').
Proof.
  intros (_ & Hc & Hl). rewrite Hc.
  eapply (linked_ends (gen_step self) (visited_grows self)); eauto.
  - apply visited_grows_refl.
  - apply visited_grows_trans.
  - apply gen_step_visited_grows.
Qed.

End GenSteps.

(** ** The generator terminates and follows [gen_run] *)

Section Generator.

Variable self : Maze.
Variable pick : nat → nat.

Lemma to_visit_empty (g : grid) (i j : Z) (d : Side) :
  filter (fun q => in_bounds self q ∧ visitedb g q = false) (neighbors i j) = [] →
  in_bounds self (step (i, j) d) → visitedb g (step (i, j) d) = true.
Proof.
  intros Hnil Hin. destruct (visitedb g (step (i, j) d)) eqn:E; [done|].
  exfalso. eapply (filter_nil_not_elem_of _ _ (step (i, j) d) Hnil); [done|].
  rewrite neighbors_step. apply list_elem_of_fmap_2.
  destruct d; repeat constructor.
Qed.

Lemma to_visit_elem (g : grid) (i j : Z) (q : Z * Z) :
  q ∈ filter (fun q => in_bounds self q ∧ visitedb g q = false) (neighbors i j) →
  ∃ d, q = step (i, j) d ∧ in_bounds self q ∧ visitedb g q = false.
Proof.
  intros [[Hin Hv] Hq]%list_elem_of_filter.
  rewrite neighbors_step in Hq. apply list_elem_of_fmap in Hq as (d & -> & _).
  eauto.
Qed.

Lemma break_walls_loop_total (fuel : nat) :
  ∀ (i j : Z) (st : State),
    well_formed self (cells st) → in_bounds self (i, j) →
    (2 * unvisited_count self (cells st) < fuel)%nat →
    ∃ st' new,
      break_walls_loop self pick fuel i j st = Ok (tt, st') ∧
      extends_by (gen_step self) st st' new ∧
      gen_run self (i, j) (cells st) (cells st').
Proof.
  induction fuel as [|fuel IH]; intros i j st Hwf Hin Hfuel; [lia|].
  cbn [break_walls_loop].
  rewrite (bind_Ok _ _ _ _ _ (collect_to_visit_Ok self st _ [] Hwf)).
  cbn [app].
  destruct (filter _ (neighbors i j)) as [|q0 rest] eqn:Hl.
  - destruct (_draw_cell_quiet self i j st Hwf Hin) as (st' & new & Hd & Hq).
    exists st', new. split; [done|]. split.
    + apply quiet_extends_by; [apply gen_same|done].
    + destruct Hq as (-> & _). apply gen_run_done.
      intros d. by apply to_visit_empty.
  - destruct (random_choice_Ok pick (q0 :: rest) st) as (q & Hq & Hr); [done|].
    rewrite (bind_Ok _ _ _ _ _ Hr). rewrite <- Hl in Hq.
    apply to_visit_elem in Hq as (d & -> & Hn & Hv).
    destruct (carve_in_bounds self (cells st) (i, j) d Hwf Hin Hn) as [g1 Hg1].
    set (st1 := mkState (cells st) (S (draws st)) (log st)).
    assert (break_walls_between i j (step (i, j) d).1 (step (i, j) d).2 (cells st1)
            = Some g1) as Hb by (by rewrite break_walls_between_carve).
    rewrite (bind_Ok _ _ _ _ _ (update_Ok _ _ st1 g1 Hb)).
    set (st2 := mkState g1 (draws st1) _).
    assert (well_formed self g1) as Hwf1.
    { eapply (carve_well_formed (cells st) g1 (i, j) d); eauto. }
    destruct (mark_visited_Ok self (step (i, j) d).1 (step (i, j) d).2 st2)
      as (g2 & Hg2 & Hm); [done|by destruct (step (i, j) d)|].
    set (st3 := mkState g2 (draws st2) _) in Hm.
    assert (well_formed self g2) as Hwf2.
    { destruct Hn as [? ?].
      apply (modify_cell_well_formed self g1 g2 _ _ _) in Hg2; (done || lia). }
    assert (unvisited_count self (cells st) = S (unvisited_count self g2)) as Hcount.
    { rewrite <- (unvisited_count_carve self (cells st) g1 (i, j) d Hin Hn Hg1).
      apply (unvisited_count_mark self g1 g2 (step (i, j) d)); [done| |done].
      rewrite (visitedb_carve (cells st) g1 (i, j) d); eauto. }
    destruct (IH (step (i, j) d).1 (step (i, j) d).2 st3) as (st4 & n4 & Hrun4 & He4 & Hgr4).
    { done. } { by destruct (step (i, j) d). } { simpl. lia. }
    destruct (IH i j st4) as (st5 & n5 & Hrun5 & He5 & Hgr5).
    { by apply (extends_by_well_formed self st3 st4 n4). }
    { done. }
    { pose proof (unvisited_count_mono self _ _
        (extends_by_visited_grows self st3 st4 n4 He4)) as Hle.
      simpl in Hle. lia. }
    rewrite (bind_Ok _ (fun _ => break_walls_loop self pick fuel i j) st2 st4 tt).
    2:{ rewrite (bind_Ok _ _ _ _ _ Hm). done. }
    exists st5, (n5 ++ n4 ++ [mkEntry (SetVisited (step (i, j) d).1 (step (i, j) d).2) g2;
                              mkEntry (BreakWalls i j (step (i, j) d).1 (step (i, j) d).2) g1]).
    split; [done|]. split.
    + eapply extends_by_trans; [|exact He5].
      eapply extends_by_trans; [|exact He4].
      repeat split; simpl.
      * apply (gen_mark self g1 g2 (step (i, j) d)); done.
      * apply (gen_break self (cells st) g1 (i, j) d); done.
    + replace (step (i, j) d).1 with (fst (step (i, j) d)) in Hgr4 by done.
      destruct (step (i, j) d) as [ni nj] eqn:Hs. simpl in *.
      eapply (gen_run_carve self (i, j) d); rewrite ?Hs; eauto.
Qed.

End Generator.

(** ** What the generator maintains *)

Lemma facing_pair (p a : Z * Z) (d d' : Side) :
  ((a, d') = (p, d) ∨ (a, d') = (step p d, opposite d)) ↔
  ((step a d', opposite d') = (p, d) ∨
   (step a d', opposite d') = (step p d, opposite d)).
Proof.
  split.
  - intros [[= -> ->]|[= -> ->]]; [by right|left].
    by rewrite step_opposite, opposite_involutive.
  - intros [[= Hs Hd]|[= Hs Hd]].
    + right. subst d. rewrite opposite_involutive. f_equal.
      rewrite <- Hs. by rewrite <- (step_opposite a d') at 1.
    + left. assert (d' = d) as -> by (by destruct d, d').
      f_equal. by apply step_inj_l in Hs.
Qed.

Section GeneratorInvariant.

Variable self : Maze.
Variable root : Z * Z.

Lemma elem_of_pair_of (p : Z * Z) (d : Side) :
  in_bounds self p → in_bounds self (step p d) → pair_of p d ∈ wall_pairs self.
Proof.
  intros Hp Hn.
  pose proof (step_opposite p d) as Hback.
  destruct d; unfold pair_of; apply elem_of_wall_pairs;
    simpl opposite in *; rewrite ?Hback; auto.
Qed.

Lemma pair_of_cases (p : Z * Z) (d : Side) (e : Z * Z * Side) :
  (e.2 = Right ∨ e.2 = Bottom) →
  (e = (p, d) ∨ e = (step p d, opposite d)) → e = pair_of p d.
Proof.
  intros Hs [-> | ->]; simpl in Hs; destruct d; simpl in *;
    (done || (destruct Hs; done)).
Qed.

Lemma broken_pair_of (g : grid) (p : Z * Z) (d : Side) :
  broken g (pair_of p d) =
    negb (wallb g p d) && negb (wallb g (step p d) (opposite d)).
Proof.
  pose proof (step_opposite p d) as Hback.
  destruct d; unfold broken, pair_of; cbn [fst snd opposite] in *;
    rewrite ?Hback; (done || apply andb_comm).
Qed.

Section CarveStep.

Variables (g g1 g2 : grid) (p : Z * Z) (d : Side).
Hypothesis Hwf : well_formed self g.
Hypothesis Hp : in_bounds self p.
Hypothesis Hn : in_bounds self (step p d).
Hypothesis Hvp : visitedb g p = true.
Hypothesis Hvn : visitedb g (step p d) = false.
Hypothesis Hcarve : carve g p d = Some g1.
Hypothesis Hmark :
  modify_cell g1 (step p d).1 (step p d).2 (set_visited true) = Some g2.

Lemma carve_mark_wallb (q : Z * Z) (d' : Side) :
  in_bounds self q →
  wallb g2 q d' =
    if decide ((q, d') = (p, d) ∨ (q, d') = (step p d, opposite d))
    then false else wallb g q d'.
Proof.
  intros Hq.
  rewrite (wallb_modify_visited g1 g2 (step p d) (in_bounds_nonneg _ _ Hn) true)
    by eauto.
  apply (wallb_carve g g1 p d); eauto.
Qed.

Lemma carve_mark_visitedb (q : Z * Z) :
  in_bounds self q →
  visitedb g2 q = if decide (q = step p d) then true else visitedb g q.
Proof.
  intros Hq.
  rewrite (visitedb_modify_visited g1 g2 (step p d) (in_bounds_nonneg _ _ Hn) true)
    by eauto.
  case_decide; [done|]. apply (visitedb_carve g g1 p d); eauto.
Qed.

Lemma carve_mark_passage (a b : Z * Z) : passage self g a b → passage self g2 a b.
Proof.
  intros (Ha & Hb & d' & -> & Hw1 & Hw2). split; [done|]. split; [done|].
  exists d'. split; [done|].
  rewrite !carve_mark_wallb by done. split; by case_decide.
Qed.

Lemma carve_mark_new_passage : passage self g2 p (step p d).
Proof.
  split; [done|]. split; [done|]. exists d. split; [done|].
  rewrite !carve_mark_wallb by done.
  rewrite !decide_True; [done|by right|by left].
Qed.

Lemma carve_mark_visited_count :
  visited_count self g2 = S (visited_count self g).
Proof.
  unfold visited_count. apply (filter_length_flip _ _ _ (step p d)).
  - apply NoDup_all_cells.
  - by apply elem_of_all_cells.
  - rewrite Hvn. simpl. tauto.
  - rewrite carve_mark_visitedb by done. by rewrite decide_True.
  - intros q Hq%elem_of_all_cells Hne.
    rewrite carve_mark_visitedb by done. by rewrite decide_False.
Qed.

Lemma carve_mark_broken_pairs :
  wallb g (step p d) (opposite d) = true →
  broken_pairs self g2 = S (broken_pairs self g).
Proof.
  intros Hintact. unfold broken_pairs.
  apply (filter_length_flip _ _ _ (pair_of p d)).
  - apply NoDup_wall_pairs.
  - by apply elem_of_pair_of.
  - rewrite broken_pair_of, Hintact, andb_false_r. simpl. tauto.
  - rewrite broken_pair_of, !carve_mark_wallb by done.
    rewrite !decide_True; [done|by right|by left].
  - intros [c s] Hin Hne.
    apply elem_of_wall_pairs in Hin as (Hc & Hcs & Hs).
    assert (¬ ((c, s) = (p, d) ∨ (c, s) = (step p d, opposite d))) as Hnot.
    { intros Hcase. apply Hne. by apply pair_of_cases. }
    unfold broken. simpl. rewrite !carve_mark_wallb by done.
    rewrite decide_False by done.
    rewrite decide_False by (by rewrite <- facing_pair).
    done.
Qed.

Lemma carve_mark_carved : carved self root g → carved self root g2.
Proof.
  intros (Hreach & Hcount & Hintact). split; [|split].
  - intros q Hq Hv. rewrite carve_mark_visitedb in Hv by done.
    case_decide as Heq.
    + subst q. eapply rtc_r; [|apply carve_mark_new_passage].
      eapply rtc_subrel; [|apply (Hreach p Hp Hvp)].
      intros a b. apply carve_mark_passage.
    + eapply rtc_subrel; [|apply (Hreach q Hq Hv)].
      intros a b. apply carve_mark_passage.
  - rewrite carve_mark_visited_count, carve_mark_broken_pairs; [lia|].
    apply Hintact; [done| |done]. by rewrite step_opposite.
  - intros q d' Hq Hqn Hv. rewrite carve_mark_visitedb in Hv by done.
    case_decide as Heq; [done|].
    rewrite carve_mark_wallb by done.
    rewrite decide_False; [by apply Hintact|].
    intros [[= -> ->]|[= -> ->]]; congruence.
Qed.

End CarveStep.

(** The closure property of a finished loop: every cell it visited has
    all its neighbours visited. *)
Lemma gen_run_carved (p : Z * Z) (g g' : grid) :
  gen_run self p g g' →
  well_formed self g → in_bounds self p → visitedb g p = true →
  carved self root g →
  carved self root g' ∧ well_formed self g' ∧ visited_grows self g g' ∧
  (∀ q, in_bounds self q → visitedb g' q = true →
        visitedb g q = false ∨ q = p →
        ∀ d, in_bounds self (step q d) → visitedb g' (step q d) = true).
Proof.
  induction 1 as [p g Hdone|p d g g1 g2 g3 g4 Hn Hvn Hc Hm Hrun1 IH1 Hrun2 IH2];
    intros Hwf Hp Hvp Hinv.
  - split; [done|]. split; [done|]. split; [apply visited_grows_refl|].
    intros q Hq Hv [Hu| ->] d' Hd'; [congruence|]. by apply Hdone.
  - assert (well_formed self g1) as Hwf1.
    { eapply (carve_well_formed g g1 p d); eauto. }
    assert (well_formed self g2) as Hwf2.
    { destruct Hn as [? ?].
      apply (modify_cell_well_formed self g1 g2 _ _ _) in Hm; (done || lia). }
    pose proof (carve_mark_visitedb g g1 g2 p d Hp Hn Hc Hm) as Hvis.
    destruct IH1 as (Hinv3 & Hwf3 & Hgr3 & Hcl3); [done..| | |].
    { rewrite Hvis by done. by rewrite decide_True. }
    { by apply (carve_mark_carved g g1 g2 p d). }
    assert (visited_grows self g g2) as Hgr2.
    { intros q Hq Hv. rewrite Hvis by done. by case_decide. }
    destruct IH2 as (Hinv4 & Hwf4 & Hgr4 & Hcl4); [done..| |done|].
    { apply Hgr3; [done|]. by apply Hgr2. }
    split; [done|]. split; [done|]. split.
    { eauto using visited_grows_trans. }
    intros q Hq Hv Hnew d' Hd'.
    destruct (visitedb g3 q) eqn:Hv3.
    + destruct Hnew as [Hu| ->]; [|by apply Hcl4; auto].
      apply Hgr4; [done|]. apply Hcl3; [done..| |done].
      rewrite Hvis by done. case_decide; auto.
    + apply Hcl4; auto.
Qed.

(** On a rectangular table, a set of cells that contains (0,0) and is
    closed under taking neighbours is the whole table. *)
Lemma closed_is_everything (V : Z * Z → Prop) :
  V (0, 0) →
  (∀ q d, in_bounds self q → V q → in_bounds self (step q d) → V (step q d)) →
  ∀ q, in_bounds self q → V q.
Proof.
  intros H0 Hcl.
  assert (∀ n : nat, in_bounds self (Z.of_nat n, 0) → V (Z.of_nat n, 0)) as Hcol.
  { induction n as [|n IH]; intros Hin; [done|].
    assert (in_bounds self (Z.of_nat n, 0)) as Hin'.
    { destruct Hin as [? ?]; split; simpl in *; lia. }
    replace (Z.of_nat (S n), 0) with (step (Z.of_nat n, 0) Bottom)
      by (simpl; f_equal; lia).
    apply Hcl; auto. simpl. destruct Hin as [? ?]; split; simpl in *; lia. }
  assert (∀ (m : nat) i, in_bounds self (i, Z.of_nat m) → V (i, Z.of_nat m)) as Hrow.
  { induction m as [|m IH]; intros i Hin.
    - destruct Hin as [? ?]; simpl in *.
      replace i with (Z.of_nat (Z.to_nat i)) by lia. apply Hcol.
      split; simpl; lia.
    - assert (in_bounds self (i, Z.of_nat m)) as Hin'.
      { destruct Hin as [? ?]; split; simpl in *; lia. }
      replace (i, Z.of_nat (S m)) with (step (i, Z.of_nat m) Right)
        by (simpl; f_equal; lia).
      apply Hcl; auto. simpl. destruct Hin as [? ?]; split; simpl in *; lia. }
  intros [i j] Hin. destruct Hin as [? ?]; simpl in *.
  replace j with (Z.of_nat (Z.to_nat j)) by lia. apply Hrow. split; simpl; lia.
Qed.

End GeneratorInvariant.

(** ** The table built by the constructor *)

Section Initial.

Variable self : Maze.

Lemma build_cells_well_formed : well_formed self (build_cells self).
Proof.
  unfold build_cells, range. split.
  - by rewrite length_fmap, length_seqZ.
  - apply Forall_fmap, Forall_forall. intros i _. simpl.
    by rewrite length_fmap, length_seqZ.
Qed.

Lemma cell_at_build_cells (i j : Z) :
  in_bounds self (i, j) → cell_at (build_cells self) i j = Some (new_cell self i j).
Proof.
  intros [Hi Hj]. simpl in *. rewrite cell_at_nonneg by lia.
  unfold build_cells, range. rewrite list_lookup_fmap.
  rewrite lookup_seqZ_lt by lia. simpl.
  rewrite list_lookup_fmap. rewrite lookup_seqZ_lt by lia. simpl.
  do 2 f_equal; lia.
Qed.

Lemma wallb_build_cells (q : Z * Z) (d : Side) :
  in_bounds self q → wallb (build_cells self) q d = true.
Proof.
  intros Hq. unfold wallb. rewrite cell_at_build_cells by (by destruct q).
  by destruct d.
Qed.

Lemma visitedb_build_cells (q : Z * Z) :
  in_bounds self q → visitedb (build_cells self) q = false.
Proof.
  intros Hq. unfold visitedb. by rewrite cell_at_build_cells by (by destruct q).
Qed.

Lemma grid_ext (g1 g2 : grid) :
  well_formed self g1 → well_formed self g2 →
  (∀ i j, in_bounds self (i, j) → cell_at g1 i j = cell_at g2 i j) →
  g1 = g2.
Proof.
  intros [Hl1 Hr1] [Hl2 Hr2] Hext.
  apply (list_eq_same_length _ _ (Z.to_nat (num_rows self))); [done..|].
  intros n row1 row2 Hn Hrow1 Hrow2.
  rewrite Forall_lookup in Hr1, Hr2.
  pose proof (Hr1 _ _ Hrow1) as Hlen1. pose proof (Hr2 _ _ Hrow2) as Hlen2.
  simpl in *.
  apply (list_eq_same_length _ _ (Z.to_nat (num_cols self))); [done..|].
  intros m c1 c2 Hm Hc1 Hc2.
  specialize (Hext (Z.of_nat n) (Z.of_nat m)).
  rewrite !cell_at_nonneg in Hext by lia.
  rewrite !Nat2Z.id, Hrow1, Hrow2 in Hext. simpl in Hext.
  rewrite Hc1, Hc2 in Hext.
  assert (Some c1 = Some c2) as [= ->]; [|done].
  apply Hext. split; simpl; lia.
Qed.

End Initial.

(** ** The steps of the constructor *)

Section InitSteps.

Variable self : Maze.

Lemma gen_step_mirrored (g g' : grid) :
  gen_step self g g' → mirrored self g → mirrored self g'.
Proof.
  intros [g0|g0 g1 p Hp Hm|g0 g1 p d Hp Hn Hc] Hmir a d' Ha Hb; [by apply Hmir| |].
  - rewrite !(wallb_modify_visited g0 g1 p (in_bounds_nonneg _ _ Hp) true) by eauto.
    by apply Hmir.
  - rewrite !(wallb_carve g0 g1 p d) by eauto.
    destruct (decide ((a, d') = (p, d) ∨ (a, d') = (step p d, opposite d))) as [Hy|Hno].
    + rewrite decide_True by (by rewrite <- facing_pair). done.
    + rewrite decide_False by (by rewrite <- facing_pair). by apply Hmir.
Qed.

Lemma gen_step_boundary_closed (g g' : grid) :
  gen_step self g g' → boundary_closed self g → boundary_closed self g'.
Proof.
  intros [g0|g0 g1 p Hp Hm|g0 g1 p d Hp Hn Hc] Hbc a d' Ha Hout H1 H2;
    [by apply Hbc| |].
  - rewrite (wallb_modify_visited g0 g1 p (in_bounds_nonneg _ _ Hp) true) by eauto.
    by apply Hbc.
  - rewrite (wallb_carve g0 g1 p d) by eauto.
    rewrite decide_False; [by apply Hbc|].
    intros [[= -> ->]|[= -> ->]]; [done|].
    rewrite step_opposite in Hout. done.
Qed.

Lemma init_step_well_formed (g g' : grid) :
  init_step self g g' → well_formed self g → well_formed self g'.
Proof.
  intros [g0 g1 Hgen|g0 g1 Hin Hm|g0 g1 Hin Hm|g0 g1 p Hp Hm] Hwf.
  - by apply (gen_step_well_formed self g0 g1).
  - apply (modify_cell_well_formed self g0 g1 _ _ _) in Hm; (done || lia).
  - destruct Hin as [? ?]; simpl in *.
    apply (modify_cell_well_formed self g0 g1 _ _ _) in Hm; (done || lia).
  - destruct Hp as [? ?].
    apply (modify_cell_well_formed self g0 g1 _ _ _) in Hm; (done || lia).
Qed.

Lemma init_step_walls_fall (g g' : grid) :
  init_step self g g' → walls_fall self g g'.
Proof.
  intros [g0 g1 Hgen|g0 g1 Hin Hm|g0 g1 Hin Hm|g0 g1 p Hp Hm] q d Hq Hw.
  - by apply (gen_step_walls_fall self g0 g1).
  - rewrite (wallb_modify_wall g0 g1 (0, 0) (in_bounds_nonneg _ _ Hin) Top false)
      in Hw by eauto.
    by case_decide.
  - rewrite (wallb_modify_wall g0 g1 (_, _) (in_bounds_nonneg _ _ Hin) Bottom false)
      in Hw by eauto.
    by case_decide.
  - by rewrite (wallb_modify_visited g0 g1 p (in_bounds_nonneg _ _ Hp) false)
      in Hw by eauto.
Qed.

Lemma init_step_same_boxes (g g' : grid) :
  init_step self g g' → same_boxes self g g'.
Proof.
  intros [g0 g1 Hgen|g0 g1 Hin Hm|g0 g1 Hin Hm|g0 g1 p Hp Hm] q Hq.
  - by apply (gen_step_same_boxes self g0 g1).
  - apply (box_at_modify_wall g0 g1 (0, 0) (in_bounds_nonneg _ _ Hin) Top false); eauto.
  - apply (box_at_modify_wall g0 g1 (_, _) (in_bounds_nonneg _ _ Hin) Bottom false);
      eauto.
  - apply (box_at_modify_visited g0 g1 p (in_bounds_nonneg _ _ Hp) false); eauto.
Qed.

Lemma init_step_mirrored (g g' : grid) :
  init_step self g g' → mirrored self g → mirrored self g'.
Proof.
  intros [g0 g1 Hgen|g0 g1 Hin Hm|g0 g1 Hin Hm|g0 g1 p Hp Hm] Hmir a d Ha Hb.
  - by apply (gen_step_mirrored g0 g1).
  - rewrite !(wallb_modify_wall g0 g1 (0, 0) (in_bounds_nonneg _ _ Hin) Top false)
      by eauto.
    rewrite !decide_False; [by apply Hmir| |].
    + intros [Hs Hd]. destruct d; try done. destruct a as [i j], Ha as [? ?].
      simpl in *. injection Hs as ? ?. lia.
    + intros [-> ->]. destruct Hb as [? ?]. simpl in *. lia.
  - rewrite !(wallb_modify_wall g0 g1 (_, _) (in_bounds_nonneg _ _ Hin) Bottom false)
      by eauto.
    rewrite !decide_False; [by apply Hmir| |].
    + intros [Hs Hd]. destruct d; try done. destruct a as [i j], Ha as [? ?].
      simpl in *. injection Hs as ? ?. lia.
    + intros [-> ->]. destruct Hb as [? ?]. simpl in *. lia.
  - rewrite !(wallb_modify_visited g0 g1 p (in_bounds_nonneg _ _ Hp) false) by eauto.
    by apply Hmir.
Qed.

Lemma init_step_boundary_closed (g g' : grid) :
  init_step self g g' → boundary_closed self g → boundary_closed self g'.
Proof.
  intros [g0 g1 Hgen|g0 g1 Hin Hm|g0 g1 Hin Hm|g0 g1 p Hp Hm] Hbc a d Ha Hout H1 H2.
  - by apply (gen_step_boundary_closed g0 g1).
  - rewrite (wallb_modify_wall g0 g1 (0, 0) (in_bounds_nonneg _ _ Hin) Top false)
      by eauto.
    rewrite decide_False; [by apply Hbc|]. intros [-> ->]. done.
  - rewrite (wallb_modify_wall g0 g1 (_, _) (in_bounds_nonneg _ _ Hin) Bottom false)
      by eauto.
    rewrite decide_False; [by apply Hbc|]. intros [-> ->]. done.
  - rewrite (wallb_modify_visited g0 g1 p (in_bounds_nonneg _ _ Hp) false) by eauto.
    by apply Hbc.
Qed.

Lemma walls_fall_openings (g g' : grid) :
  in_bounds self (0, 0) → in_bounds self (num_rows self - 1, num_cols self - 1) →
  walls_fall self g g' → openings self g → openings self g'.
Proof.
  intros H0 H1 Hfall [He Hx]. split.
  - destruct (wallb g' (0, 0) Top) eqn:E; [|done].
    apply Hfall in E; [congruence|done].
  - destruct (wallb g' (num_rows self - 1, num_cols self - 1) Bottom) eqn:E; [|done].
    apply Hfall in E; [congruence|done].
Qed.

End InitSteps.

(** ** Resetting the marks *)

Section Reset.

Variable self : Maze.

Lemma set_visited_false_twice (o : option Cell) :
  set_visited false <$> (set_visited false <$> o) = set_visited false <$> o.
Proof. by destruct o. Qed.

Lemma reset_row_Ok (i : Z) (js : list Z) :
  0 ≤ i < num_rows self →
  (∀ j, j ∈ js → 0 ≤ j < num_cols self) →
  ∀ st, well_formed self (cells st) →
  ∃ st' new,
    for_each js (fun j =>
      update (ClearVisited i j) (fun g => modify_cell g i j (set_visited false))) st
      = Ok (tt, st') ∧
    extends_by (init_step self) st st' new ∧
    draws st' = draws st ∧
    ∀ q, in_bounds self q →
      cell_at (cells st') q.1 q.2 =
        if decide (q.1 = i ∧ q.2 ∈ js)
        then set_visited false <$> cell_at (cells st) q.1 q.2
        else cell_at (cells st) q.1 q.2.
Proof.
  intros Hi. induction js as [|j js IH]; intros Hjs st Hwf.
  - exists st, []. split; [done|]. split; [apply extends_by_refl|]. split; [done|].
    intros q Hq. rewrite decide_False; [done|]. intros [_ H]. by apply elem_of_nil in H.
  - assert (in_bounds self (i, j)) as Hin.
    { split; simpl; [lia|]. apply Hjs. by left. }
    destruct (modify_cell_in_bounds self (cells st) i j (set_visited false) Hwf Hin)
      as [g1 Hg1].
    simpl. rewrite (bind_Ok _ _ _ _ _ (update_Ok _ _ st g1 Hg1)).
    set (st1 := mkState g1 _ _).
    destruct (IH (fun j' Hj' => Hjs j' (list_elem_of_further _ _ _ Hj')) st1)
      as (st' & new & Hrun & Hext & Hdraws & Hcells).
    { destruct Hin as [? ?]; simpl in *.
      apply (modify_cell_well_formed self _ g1 _ _ _) in Hg1; (done || lia). }
    exists st', (new ++ [mkEntry (ClearVisited i j) g1]).
    split; [done|]. split; [|split; [done|]].
    + eapply extends_by_trans; [|exact Hext].
      apply extends_by_single. by apply (init_clear self _ g1 (i, j)).
    + intros q Hq. rewrite (Hcells q Hq). simpl.
      rewrite (cell_at_modify_pair (cells st) g1 (i, j) q _) by eauto.
      destruct q as [qi qj]. simpl.
      destruct (decide (qi = i ∧ qj ∈ js)) as [[-> Hel]|Hno].
      * destruct (decide (i = i ∧ qj ∈ j :: js)) as [_|Hno'].
        2:{ exfalso. apply Hno'. split; [done|by right]. }
        case_decide as Heq; [|done].
        injection Heq as ->. apply set_visited_false_twice.
      * case_decide as Heq.
        -- injection Heq as -> ->.
           destruct (decide (i = i ∧ j ∈ j :: js)) as [_|Hno']; [done|].
           exfalso. apply Hno'. split; [done|by left].
        -- destruct (decide (qi = i ∧ qj ∈ j :: js)) as [[-> Hel]|_]; [|done].
           apply elem_of_cons in Hel as [->|Hel]; [done|]. exfalso. by apply Hno.
Qed.

Lemma reset_rows_Ok (rows : list Z) :
  (∀ i, i ∈ rows → 0 ≤ i < num_rows self) →
  ∀ st, well_formed self (cells st) →
  ∃ st' new,
    for_each rows (fun i =>
      for_each (range (num_cols self)) (fun j =>
        update (ClearVisited i j) (fun g => modify_cell g i j (set_visited false)))) st
      = Ok (tt, st') ∧
    extends_by (init_step self) st st' new ∧
    draws st' = draws st ∧
    ∀ q, in_bounds self q →
      cell_at (cells st') q.1 q.2 =
        if decide (q.1 ∈ rows)
        then set_visited false <$> cell_at (cells st) q.1 q.2
        else cell_at (cells st) q.1 q.2.
Proof.
  induction rows as [|i rows IH]; intros Hrows st Hwf.
  - exists st, []. split; [done|]. split; [apply extends_by_refl|]. split; [done|].
    intros q Hq. rewrite decide_False; [done|]. intros H. by apply elem_of_nil in H.
  - destruct (reset_row_Ok i (range (num_cols self))) with (st := st)
      as (st1 & n1 & Hrun1 & Hext1 & Hdraws1 & Hcells1); [| |done|].
    { apply Hrows. by left. }
    { intros j Hj. apply elem_of_seqZ in Hj. lia. }
    simpl. rewrite (bind_Ok _ _ _ _ _ Hrun1).
    assert (well_formed self (cells st1)) as Hwf1.
    { destruct Hext1 as (_ & -> & Hl).
      eapply (linked_invariant (init_step self) (well_formed self)); eauto.
      intros g g'. apply init_step_well_formed. }
    destruct (IH (fun i' Hi' => Hrows i' (list_elem_of_further _ _ _ Hi')) st1 Hwf1)
      as (st' & new & Hrun & Hext & Hdraws & Hcells).
    exists st', (new ++ n1). split; [done|].
    split; [by eapply extends_by_trans|]. split; [congruence|].
    intros q Hq. rewrite (Hcells q Hq), (Hcells1 q Hq).
    assert (q.2 ∈ range (num_cols self)) as Hcol.
    { apply elem_of_seqZ. destruct Hq as [_ ?]. lia. }
    destruct (decide (q.1 ∈ rows)) as [Hel|Hno].
    + destruct (decide (q.1 ∈ i :: rows)) as [_|Hno']; [|exfalso; apply Hno'; by right].
      case_decide; [apply set_visited_false_twice|done].
    + destruct (decide (q.1 = i)) as [Heq|Hne].
      * destruct (decide (q.1 = i ∧ q.2 ∈ range (num_cols self))) as [_|Hno'];
          [|exfalso; by apply Hno'].
        destruct (decide (q.1 ∈ i :: rows)) as [_|Hno']; [done|].
        exfalso. apply Hno'. subst i. by left.
      * destruct (decide (q.1 = i ∧ q.2 ∈ range (num_cols self))) as [[? _]|_];
          [done|].
        destruct (decide (q.1 ∈ i :: rows)) as [Hel|_]; [|done].
        apply elem_of_cons in Hel as [?|?]; done.
Qed.

Lemma _reset_cells_visited_Ok (st : State) :
  well_formed self (cells st) →
  ∃ st' new,
    _reset_cells_visited self st = Ok (tt, st') ∧
    extends_by (init_step self) st st' new ∧
    draws st' = draws st ∧
    ∀ q, in_bounds self q →
      cell_at (cells st') q.1 q.2 = set_visited false <$> cell_at (cells st) q.1 q.2.
Proof.
  intros Hwf.
  destruct (reset_rows_Ok (range (num_rows self))) with (st := st)
    as (st' & new & Hrun & Hext & Hdraws & Hcells); [|done|].
  { intros i Hi. apply elem_of_seqZ in Hi. lia. }
  exists st', new. split; [done|]. split; [done|]. split; [done|].
  intros q Hq. rewrite (Hcells q Hq). rewrite decide_True; [done|].
  apply elem_of_seqZ. destruct Hq as [? _]. lia.
Qed.

Lemma extends_by_init_well_formed (st st' : State) (new : list Entry) :
  extends_by (init_step self) st st' new →
  well_formed self (cells st) → well_formed self (cells st').
Proof.
  intros (_ & -> & Hl) Hwf.
  eapply (linked_invariant (init_step self) (well_formed self)); eauto.
  intros g g'. apply init_step_well_formed.
Qed.

End Reset.

(** ** The constructor, stage by stage *)

Lemma filter_length_none {A} (P : A → Prop) `{!∀ x, Decision (P x)} (l : list A) :
  (∀ x, x ∈ l → ¬ P x) → length (filter P l) = 0%nat.
Proof.
  induction l as [|x l IH]; intros Hnone; [done|].
  rewrite filter_cons. rewrite decide_False by (apply Hnone; by left).
  apply IH. intros y Hy. apply Hnone. by right.
Qed.

Section Constructor.

Variable self : Maze.
Variable pick : nat → nat.
Hypothesis Hrows : 1 ≤ num_rows self.
Hypothesis Hcols : 1 ≤ num_cols self.

Lemma in_bounds_origin : in_bounds self (0, 0).
Proof. split; simpl; lia. Qed.

Lemma in_bounds_corner : in_bounds self (num_rows self - 1, num_cols self - 1).
Proof. split; simpl; lia. Qed.

Lemma _break_entrance_and_exit_Ok (st : State) :
  well_formed self (cells st) →
  ∃ g1 g2,
    modify_cell (cells st) 0 0 (set_wall Top false) = Some g1 ∧
    modify_cell g1 (num_rows self - 1) (num_cols self - 1) (set_wall Bottom false)
      = Some g2 ∧
    _break_entrance_and_exit self st =
      Ok (tt, mkState g2 (draws st)
                (mkEntry (OpenWall (num_rows self - 1) (num_cols self - 1) Bottom) g2
                 :: mkEntry (OpenWall 0 0 Top) g1 :: log st)).
Proof.
  intros Hwf.
  destruct (modify_cell_in_bounds self (cells st) 0 0 (set_wall Top false) Hwf
              in_bounds_origin) as [g1 Hg1].
  assert (well_formed self g1) as Hwf1.
  { apply (modify_cell_well_formed self _ g1 _ _ _) in Hg1; (done || lia). }
  destruct (modify_cell_in_bounds self g1 _ _ (set_wall Bottom false) Hwf1
              in_bounds_corner) as [g2 Hg2].
  exists g1, g2. split; [done|]. split; [done|].
  unfold _break_entrance_and_exit.
  rewrite (bind_Ok _ _ _ _ _ (update_Ok _ _ st g1 Hg1)).
  exact (update_Ok _ (fun g => modify_cell g _ _ _)
           (mkState g1 (draws st) (mkEntry (OpenWall 0 0 Top) g1 :: log st)) g2 Hg2).
Qed.

(** The loop started at the top left cell of a table with no mark and
    no interior wall missing. *)
Lemma _break_walls_r_Ok (fuel : nat) (st : State) :
  well_formed self (cells st) →
  all_unvisited self (cells st) →
  (∀ p d, in_bounds self p → in_bounds self (step p d) → wallb (cells st) p d = true) →
  (2 * length (all_cells self) ≤ fuel)%nat →
  ∃ st' new,
    _break_walls_r self pick fuel 0 0 st = Ok (tt, st') ∧
    extends_by (gen_step self) st st' new ∧
    carved self (0, 0) (cells st') ∧
    (∀ q, in_bounds self q → visitedb (cells st') q = true).
Proof.
  intros Hwf Hnone Hintact Hfuel.
  pose proof in_bounds_origin as H0.
  destruct (mark_visited_Ok self 0 0 st Hwf H0) as (g1 & Hg1 & Hm).
  set (st1 := mkState g1 _ _) in Hm.
  assert (well_formed self g1) as Hwf1.
  { apply (modify_cell_well_formed self _ g1 _ _ _) in Hg1; (done || lia). }
  assert (∀ q, in_bounds self q →
            visitedb g1 q = if decide (q = (0, 0)) then true else false) as Hvis.
  { intros q Hq.
    rewrite (visitedb_modify_visited (cells st) g1 (0, 0) (in_bounds_nonneg _ _ H0) true)
      by eauto.
    case_decide; [done|]. by apply Hnone. }
  assert (∀ q d, in_bounds self q → wallb g1 q d = wallb (cells st) q d) as Hwall.
  { intros q d Hq.
    apply (wallb_modify_visited (cells st) g1 (0, 0) (in_bounds_nonneg _ _ H0) true);
      eauto. }
  assert (carved self (0, 0) g1) as Hcarved.
  { split; [|split].
    - intros q Hq Hv. rewrite Hvis in Hv by done.
      case_decide as Heq; [|done]. subst q. apply rtc_refl.
    - assert (broken_pairs self g1 = 0%nat) as ->.
      { apply filter_length_none. intros [c s] Hin.
        apply elem_of_wall_pairs in Hin as (Hc & Hcs & _).
        unfold broken. simpl. rewrite Hwall, Hintact by done. simpl. tauto. }
      assert (visited_count self (cells st) = 0%nat) as Hzero.
      { apply filter_length_none. intros q Hq%elem_of_all_cells.
        rewrite Hnone by done. simpl. tauto. }
      assert (visited_count self g1 = S (visited_count self (cells st))) as ->;
        [|by rewrite Hzero].
      unfold visited_count. apply (filter_length_flip _ _ _ (0, 0)).
      + apply NoDup_all_cells.
      + by apply elem_of_all_cells.
      + rewrite Hnone by done. simpl. tauto.
      + rewrite Hvis by done. by rewrite decide_True.
      + intros q Hq%elem_of_all_cells Hne.
        rewrite Hvis, Hnone by done. by rewrite decide_False.
    - intros q d Hq Hqd _. rewrite Hwall by done. by apply Hintact. }
  assert (2 * unvisited_count self g1 < fuel)%nat as Hfuel1.
  { pose proof (unvisited_count_mark self (cells st) g1 (0, 0) H0 (Hnone _ H0) Hg1).
    pose proof (visited_unvisited self (cells st)). lia. }
  destruct (break_walls_loop_total self pick fuel 0 0 st1 Hwf1 H0 Hfuel1)
    as (st' & new & Hrun & Hext & Hgr).
  exists st', (new ++ [mkEntry (SetVisited 0 0) g1]).
  split. { unfold _break_walls_r. by rewrite (bind_Ok _ _ _ _ _ Hm). }
  split. { eapply extends_by_trans; [|exact Hext].
           apply extends_by_single. by apply (gen_mark self _ g1 (0, 0)). }
  destruct (gen_run_carved self (0, 0) (0, 0) g1 (cells st') Hgr Hwf1 H0)
    as (Hcarved' & Hwf' & Hgrows & Hclosed); [|done|].
  { rewrite Hvis by done. by rewrite decide_True. }
  split; [done|].
  apply (closed_is_everything self (fun q => visitedb (cells st') q = true)).
  - apply Hgrows; [done|]. rewrite Hvis by done. by rewrite decide_True.
  - intros q d Hq Hv Hqd. apply (Hclosed q Hq Hv); [|done].
    rewrite Hvis by done. case_decide; auto.
Qed.

Lemma build_cells_opened (g1 g2 : grid) :
  modify_cell (build_cells self) 0 0 (set_wall Top false) = Some g1 →
  modify_cell g1 (num_rows self - 1) (num_cols self - 1) (set_wall Bottom false)
    = Some g2 →
  well_formed self g2 ∧ all_unvisited self g2 ∧ openings self g2 ∧
  (∀ p d, in_bounds self p → in_bounds self (step p d) → wallb g2 p d = true).
Proof.
  intros Hg1 Hg2.
  pose proof in_bounds_origin as H0. pose proof in_bounds_corner as H1.
  assert (∀ q d, in_bounds self q →
    wallb g2 q d =
      if decide (q = (num_rows self - 1, num_cols self - 1) ∧ d = Bottom) then false
      else if decide (q = (0, 0) ∧ d = Top) then false else true) as Hwall.
  { intros q d Hq.
    rewrite (wallb_modify_wall g1 g2 (_, _) (in_bounds_nonneg _ _ H1) Bottom false)
      by eauto.
    case_decide; [done|].
    rewrite (wallb_modify_wall _ g1 (0, 0) (in_bounds_nonneg _ _ H0) Top false)
      by eauto.
    case_decide; [done|]. by apply wallb_build_cells. }
  split; [|split; [|split]].
  - apply (modify_cell_well_formed self g1 g2 _ _ _) in Hg2; [done|lia..|].
    apply (modify_cell_well_formed self _ g1 _ _ _) in Hg1; [done|lia..|].
    apply build_cells_well_formed.
  - intros q Hq.
    rewrite (visitedb_modify_wall g1 g2 (_, _) (in_bounds_nonneg _ _ H1) Bottom false)
      by eauto.
    rewrite (visitedb_modify_wall _ g1 (0, 0) (in_bounds_nonneg _ _ H0) Top false)
      by eauto.
    by apply visitedb_build_cells.
  - split.
    + rewrite Hwall by done. case_decide; [done|]. by rewrite decide_True.
    + rewrite Hwall by done. by rewrite decide_True.
  - intros q d Hq Hqd. rewrite Hwall by done.
    rewrite decide_False.
    2:{ intros [-> ->]. destruct Hqd as [? ?]. simpl in *. lia. }
    rewrite decide_False; [done|].
    intros [-> ->]. destruct Hqd as [? ?]. simpl in *. lia.
Qed.

(** With enough fuel the constructor runs through all its stages. *)
Lemma construction_exists (fuel : nat) (st0 : State) :
  (2 * length (all_cells self) ≤ fuel)%nat →
  ∃ st_a st_b st_c st_d n_b n_c n_d,
    construction self pick fuel st0 st_a st_b st_c st_d n_b n_c n_d.
Proof.
  intros Hfuel.
  set (st_a := mkState (build_cells self) (draws st0)
                 (mkEntry CreateCells (build_cells self) :: log st0)).
  destruct (_break_entrance_and_exit_Ok st_a) as (g1 & g2 & Hg1 & Hg2 & Hopen).
  { apply build_cells_well_formed. }
  set (st_b := mkState g2 _ _) in Hopen.
  destruct (build_cells_opened g1 g2 Hg1 Hg2) as (Hwf_b & Hnone & Hopenings & Hintact).
  destruct (_break_walls_r_Ok fuel st_b Hwf_b Hnone Hintact Hfuel)
    as (st_c & n_c & Hcarve & Hext_c & Hcarved & Hall).
  assert (well_formed self (cells st_c)) as Hwf_c.
  { by apply (extends_by_well_formed self st_b st_c n_c). }
  destruct (_reset_cells_visited_Ok self st_c Hwf_c)
    as (st_d & n_d & Hreset & Hext_d & _ & Hcleared).
  exists st_a, st_b, st_c, st_d,
    [mkEntry (OpenWall (num_rows self - 1) (num_cols self - 1) Bottom) g2;
     mkEntry (OpenWall 0 0 Top) g1], n_c, n_d.
  split; try done.
  repeat split; simpl.
  - apply init_exit; [apply in_bounds_corner|done].
  - apply init_entrance; [apply in_bounds_origin|done].
Qed.

End Constructor.

(** ** The steps of the solver *)

Section SolverSteps.

Variable self : Maze.

Lemma solve_step_gen_step (g g' : grid) : solve_step self g g' → gen_step self g g'.
Proof. intros [g0|g0 g1 p Hp Hm]; [apply gen_same|by eapply gen_mark]. Qed.

Lemma solve_step_same_walls (g g' : grid) : solve_step self g g' → same_walls self g g'.
Proof.
  intros [g0|g0 g1 p Hp Hm] q d Hq; [done|].
  apply (wallb_modify_visited g0 g1 p (in_bounds_nonneg _ _ Hp) true); eauto.
Qed.

Lemma extends_by_solve_gen (st st' : State) (new : list Entry) :
  extends_by (solve_step self) st st' new → extends_by (gen_step self) st st' new.
Proof. apply extends_by_impl, solve_step_gen_step. Qed.

Lemma extends_by_same_walls (st st' : State) (new : list Entry) :
  extends_by (solve_step self) st st' new → same_walls self (cells st) (cells st').
Proof.
  intros (_ & -> & Hl).
  eapply (linked_ends (solve_step self) (same_walls self)); eauto.
  - apply same_walls_refl.
  - apply same_walls_trans.
  - apply solve_step_same_walls.
Qed.

Lemma closed_cell_later (g g' : grid) (q : Z * Z) :
  in_bounds self q →
  same_walls self g g' → visited_grows self g g' →
  closed_cell self g q → closed_cell self g' q.
Proof.
  intros Hq Hsame Hgrow Hcl d Hd Hw. rewrite Hsame in Hw by done.
  apply Hgrow; [done|]. by apply Hcl.
Qed.

(** A quiet stretch before a part of the search changes nothing. *)
Lemma solve_post_after_quiet (allowed : Z * Z → Prop)
    (st st1 st' : State) (b : bool) (n1 new : list Entry) :
  quiet st st1 n1 →
  solve_post self allowed st1 b st' new →
  solve_post self allowed st b st' (new ++ n1).
Proof.
  intros Hq [Hext Hnd Hent Hcl Htg].
  pose proof Hq as (Hc & _ & _ & Hr).
  split.
  - eapply extends_by_trans; [|done]. apply quiet_extends_by; [apply solve_same|done].
  - by rewrite entered_app, (render_only_entered _ _ Hr).
  - intros q. rewrite entered_app, (render_only_entered _ _ Hr). apply Hent.
  - done.
  - rewrite <- Hc. done.
Qed.

(** A quiet stretch after a part of the search changes nothing. *)
Lemma solve_post_before_quiet (allowed : Z * Z → Prop)
    (st st1 st' : State) (b : bool) (n1 new : list Entry) :
  solve_post self allowed st b st1 new →
  quiet st1 st' n1 →
  solve_post self allowed st b st' (n1 ++ new).
Proof.
  intros [Hext Hnd Hent Hcl Htg] Hq.
  pose proof Hq as (Hc & _ & _ & Hr).
  split.
  - eapply extends_by_trans; [done|]. apply quiet_extends_by; [apply solve_same|done].
  - by rewrite entered_app, (render_only_entered _ _ Hr), app_nil_r.
  - intros q. rewrite entered_app, (render_only_entered _ _ Hr), app_nil_r, Hc.
    apply Hent.
  - rewrite Hc. done.
  - rewrite Hc. done.
Qed.

(** Two parts of the search in sequence, the first without success. *)
Lemma solve_post_seq (A1 A2 A : Z * Z → Prop)
    (st st1 st2 : State) (b : bool) (n1 n2 : list Entry) :
  solve_post self A1 st false st1 n1 →
  solve_post self A2 st1 b st2 n2 →
  (∀ q, in_bounds self q → A1 q → A q) →
  (∀ q, in_bounds self q → A2 q → A q) →
  (∀ q, visitedb (cells st1) q = true → ¬ A2 q) →
  (∀ q, A q → visitedb (cells st1) q = true → A1 q) →
  (∀ q, A q → visitedb (cells st1) q = false → A2 q) →
  solve_post self A st b st2 (n2 ++ n1).
Proof.
  intros [Hext1 Hnd1 Hent1 Hcl1 Htg1] [Hext2 Hnd2 Hent2 Hcl2 Htg2] HA1 HA2 Hdisj
    Hcov1 Hcov2.
  pose proof (extends_by_visited_grows self _ _ _ (extends_by_solve_gen _ _ _ Hext2))
    as Hgrow.
  pose proof (extends_by_same_walls _ _ _ Hext2) as Hsame.
  split.
  - by eapply extends_by_trans.
  - rewrite entered_app. apply NoDup_app. split; [done|]. split; [|done].
    intros q Hq1 Hq2. destruct (Hent1 q Hq1) as (_ & Hv & _).
    destruct (Hent2 q Hq2) as (_ & _ & Ha). by apply (Hdisj q).
  - intros q. rewrite entered_app. intros [Hq|Hq]%elem_of_app.
    + destruct (Hent1 q Hq) as (Hin & Hv & Ha). auto.
    + destruct (Hent2 q Hq) as (Hin & Hv & Ha). auto.
  - intros Hb q Hq Hv Ha.
    destruct (visitedb (cells st1) q) eqn:Hv1.
    + apply (closed_cell_later (cells st1)); auto.
    + apply Hcl2; auto.
  - intros Hb Hv. apply Htg1; [done|]. by apply Htg2.
Qed.

End SolverSteps.

(** ** The solver terminates and closes every cell it gives up *)

Section SolveFor.

Variable self : Maze.
Variable rec : Z → Z → M bool.
Variable fuel : nat.

(** What the loop of [solve_r] needs of the recursive call. *)
Hypothesis Hrec : ∀ ti tj st,
  well_formed self (cells st) → in_bounds self (ti, tj) →
  visitedb (cells st) (ti, tj) = false →
  (unvisited_count self (cells st) ≤ fuel)%nat →
  ∃ b st' new,
    rec ti tj st = Ok (b, st') ∧
    solve_post self (fun q => q = (ti, tj) ∨ visitedb (cells st) q = false)
      st b st' new ∧
    (ti, tj) ∈ entered new.

Lemma solve_post_nothing (st : State) :
  solve_post self (fun q => visitedb (cells st) q = false) st false st [].
Proof.
  split.
  - apply extends_by_refl.
  - apply NoDup_nil_2.
  - intros q Hq. by apply elem_of_nil in Hq.
  - intros _ q Hq Hv Hu. congruence.
  - done.
Qed.

Lemma solve_for_total (this_cell : Cell) (ns : list (Z * Z * bool)) :
  ∀ st,
    well_formed self (cells st) →
    (unvisited_count self (cells st) ≤ fuel)%nat →
    ∃ b st' new,
      solve_for self rec this_cell ns st = Ok (b, st') ∧
      solve_post self (fun q => visitedb (cells st) q = false) st b st' new ∧
      (b = false → ∀ ti tj w, (ti, tj, w) ∈ ns →
         in_bounds self (ti, tj) → w = false →
         visitedb (cells st') (ti, tj) = true).
Proof.
  induction ns as [|[[ti tj] w] ns IH]; intros st Hwf Hfuel.
  { exists false, st, []. split; [done|]. split; [apply solve_post_nothing|].
    intros _ ti tj w Hin. by apply elem_of_nil in Hin. }
  destruct (IH st Hwf Hfuel) as (b & st' & new & Hrun & Hpost & Hns).
  (* the iterations that skip the neighbour *)
  assert ((in_bounds self (ti, tj) → w = false →
           visitedb (cells st) (ti, tj) = true) →
    ∃ b st' new,
      solve_for self rec this_cell ns st = Ok (b, st') ∧
      solve_post self (fun q => visitedb (cells st) q = false) st b st' new ∧
      (b = false → ∀ ti' tj' w', (ti', tj', w') ∈ (ti, tj, w) :: ns →
         in_bounds self (ti', tj') → w' = false →
         visitedb (cells st') (ti', tj') = true)) as Hskip.
  { intros Hhead. exists b, st', new. split; [done|]. split; [done|].
    intros Hb ti' tj' w' Hel Hin' Hw'.
    apply elem_of_cons in Hel as [[= -> -> ->]|Hel]; [|by eapply Hns].
    destruct Hpost as [Hext _ _ _ _].
    apply (extends_by_visited_grows self _ _ _ (extends_by_solve_gen _ _ _ _ Hext));
      auto. }
  cbn [solve_for].
  destruct (Z.ltb_spec ti 0); cbn [orb].
  { apply Hskip. intros [[? ?] ?]; simpl in *; lia. }
  destruct (Z.ltb_spec tj 0); cbn [orb].
  { apply Hskip. intros [? [? ?]]; simpl in *; lia. }
  rewrite !Z.geb_leb.
  destruct (Z.leb_spec (num_rows self) ti); cbn [orb].
  { apply Hskip. intros [[? ?] ?]; simpl in *; lia. }
  destruct (Z.leb_spec (num_cols self) tj); cbn [orb].
  { apply Hskip. intros [? [? ?]]; simpl in *; lia. }
  assert (in_bounds self (ti, tj)) as Hin by (split; simpl; lia).
  destruct (read_cell_Ok self ti tj st Hwf Hin) as (next_cell & Hnext & Hread).
  rewrite (bind_Ok _ _ _ _ _ Hread).
  assert (visitedb (cells st) (ti, tj) = visited next_cell) as Hvn.
  { unfold visitedb. simpl. by rewrite Hnext. }
  destruct (visited next_cell); cbn [negb].
  { by apply Hskip. }
  destruct w; cbn [negb].
  { apply Hskip. intros _ Hw. congruence. }
  clear Hskip b st' new Hrun Hpost Hns.
  (* the move into the neighbour *)
  destruct (Cell_draw_move_quiet this_cell next_cell false st)
    as (st1 & n1 & Hdraw & Hq1).
  rewrite (bind_Ok _ _ _ _ _ Hdraw).
  pose proof Hq1 as (Hc1 & _).
  destruct (Hrec ti tj st1) as (found & st2 & n2 & Hcall & Hpost2 & Hroot);
    [rewrite ?Hc1; done..|].
  rewrite (bind_Ok _ _ _ _ _ Hcall).
  rewrite Hc1 in Hpost2.
  apply (solve_post_after_quiet self _ st st1 st2 found n1 n2 Hq1) in Hpost2.
  assert (∀ q, q = (ti, tj) ∨ visitedb (cells st) q = false →
               visitedb (cells st) q = false) as Hallowed.
  { intros q [->|Hu]; [|done]. by rewrite Hvn. }
  destruct found; cbn [negb].
  { exists true, st2, (n2 ++ n1). split; [done|]. split; [|done].
    destruct Hpost2 as [Hext Hnd Hent _ _]. split; try done.
    intros q Hq. destruct (Hent q Hq) as (? & ? & ?). auto. }
  destruct (Cell_draw_move_quiet this_cell next_cell true st2)
    as (st3 & n3 & Hundo & Hq3).
  rewrite (bind_Ok _ _ _ _ _ Hundo).
  pose proof Hq3 as (Hc3 & _).
  apply (fun H => solve_post_before_quiet self _ st st2 st3 false n3 _ H Hq3) in Hpost2.
  pose proof (sp_ext _ _ _ _ _ _ Hpost2) as Hext2.
  pose proof (extends_by_visited_grows self _ _ _ (extends_by_solve_gen _ _ _ _ Hext2))
    as Hgrow2.
  destruct (IH st3) as (b & st' & new & Hrun & Hpost & Hns).
  { apply (extends_by_well_formed self st st3 _ (extends_by_solve_gen _ _ _ _ Hext2) Hwf). }
  { pose proof (unvisited_count_mono self _ _ Hgrow2). lia. }
  exists b, st', (new ++ n3 ++ n2 ++ n1). split; [done|]. split.
  - eapply (solve_post_seq self _ _ _ st st3 st'); [exact Hpost2|exact Hpost|..].
    + intros q _. apply Hallowed.
    + intros q Hq Hu. simpl in *. destruct (visitedb (cells st) q) eqn:Hv; [|done].
      rewrite (Hgrow2 q Hq Hv) in Hu. done.
    + intros q Hv Hu. simpl in *. congruence.
    + intros q Hu _. by right.
    + intros q _ Hu. done.
  - intros Hb ti' tj' w' Hel Hin' Hw'.
    apply elem_of_cons in Hel as [[= -> -> ->]|Hel]; [|by eapply Hns].
    pose proof (sp_ext _ _ _ _ _ _ Hpost) as Hext.
    apply (extends_by_visited_grows self _ _ _ (extends_by_solve_gen _ _ _ _ Hext));
      [done|].
    assert ((ti, tj) ∈ entered (n3 ++ n2 ++ n1)) as Hroot'.
    { rewrite !entered_app. apply elem_of_app. left. apply elem_of_app. by right. }
    by destruct (sp_entered _ _ _ _ _ _ Hpost2 _ Hroot') as (_ & ? & _).
Qed.

End SolveFor.

Section SolveR.

Variable self : Maze.

Lemma target_test (i j : Z) :
  (i =? num_rows self - 1) && (j =? num_cols self - 1) = true ↔ (i, j) = target self.
Proof.
  unfold target. rewrite andb_true_iff, !Z.eqb_eq. split; [by intros [-> ->]|].
  by intros [= -> ->].
Qed.

Lemma solve_r_total (fuel : nat) :
  ∀ (i j : Z) (st : State),
    well_formed self (cells st) → in_bounds self (i, j) →
    (∀ g1, modify_cell (cells st) i j (set_visited true) = Some g1 →
           (unvisited_count self g1 < fuel)%nat) →
    ∃ b st' new,
      solve_r self fuel i j st = Ok (b, st') ∧
      solve_post self (fun q => q = (i, j) ∨ visitedb (cells st) q = false)
        st b st' new ∧
      (i, j) ∈ entered new.
Proof.
  induction fuel as [|fuel IH]; intros i j st Hwf Hin Hfuel.
  { destruct (modify_cell_in_bounds self (cells st) i j (set_visited true) Hwf Hin)
      as [g1 Hg1]. specialize (Hfuel g1 Hg1). lia. }
  cbn [solve_r].
  destruct (emit_quiet Redraw st I) as (st_a & Hanim & Hqa).
  unfold _animate. rewrite (bind_Ok _ _ _ _ _ Hanim).
  pose proof Hqa as (Hca & _).
  destruct (mark_visited_Ok self i j st_a) as (g1 & Hg1 & Hmark);
    [by rewrite Hca|done|].
  rewrite Hca in Hg1.
  set (st_m := mkState g1 _ _) in Hmark.
  rewrite (bind_Ok _ _ _ _ _ Hmark).
  assert (well_formed self g1) as Hwf1.
  { destruct Hin as [? ?]; simpl in *.
    apply (modify_cell_well_formed self _ g1 _ _ _) in Hg1; (done || lia). }
  destruct (read_cell_Ok self i j st_m Hwf1 Hin) as (this_cell & Hthis & Hread).
  rewrite (bind_Ok _ _ _ _ _ Hread).
  assert (∀ q, in_bounds self q →
            visitedb g1 q = if decide (q = (i, j)) then true else visitedb (cells st) q)
    as Hvis.
  { intros q Hq.
    apply (visitedb_modify_visited (cells st) g1 (i, j) (in_bounds_nonneg _ _ Hin) true);
      eauto. }
  assert (solve_step self (cells st) g1) as Hstep.
  { by apply (solve_mark self _ g1 (i, j)). }
  assert (extends_by (solve_step self) st st_m
            [mkEntry (SetVisited i j) g1; mkEntry Redraw (cells st)]) as Hext_m.
  { change [mkEntry (SetVisited i j) g1; mkEntry Redraw (cells st)]
      with ([mkEntry (SetVisited i j) g1] ++ [mkEntry Redraw (cells st)]).
    eapply extends_by_trans.
    - apply quiet_extends_by; [apply solve_same|exact Hqa].
    - apply extends_by_single. by rewrite Hca. }
  destruct ((i =? num_rows self - 1) && (j =? num_cols self - 1)) eqn:Htest.
  { exists true, st_m, [mkEntry (SetVisited i j) g1; mkEntry Redraw (cells st)].
    split; [done|]. split; [|by left].
    split; try done.
    - apply NoDup_singleton.
    - intros q Hq. apply list_elem_of_singleton in Hq as ->.
      split; [done|]. split; [|by left].
      simpl. rewrite Hvis by done. by rewrite decide_True. }
  assert ((i, j) ≠ target self) as Hnt.
  { intros Heq. apply target_test in Heq. congruence. }
  destruct (solve_for_total self (solve_r self fuel) fuel) with
    (this_cell := this_cell)
    (ns := [(i - 1, j, has_top_wall this_cell); (i + 1, j, has_bottom_wall this_cell);
            (i, j - 1, has_left_wall this_cell); (i, j + 1, has_right_wall this_cell)])
    (st := st_m)
    as (b & st' & new & Hrun & Hpost & Hns).
  { intros ti tj st0 Hwf0 Hin0 Hv0 Hle. apply IH; [done..|].
    intros g0 Hg0.
    pose proof (unvisited_count_mark self _ g0 (ti, tj) Hin0 Hv0 Hg0). lia. }
  { done. }
  { specialize (Hfuel g1 Hg1). simpl. lia. }
  destruct Hpost as [Hext Hnd Hent Hcl Htg].
  pose proof (extends_by_visited_grows self _ _ _ (extends_by_solve_gen _ _ _ _ Hext))
    as Hgrow.
  pose proof (extends_by_same_walls self _ _ _ Hext) as Hsame.
  simpl in Hgrow, Hsame, Hent, Hcl, Htg.
  assert (visitedb (cells st') (i, j) = true) as Hroot.
  { apply Hgrow; [done|]. rewrite Hvis by done. by rewrite decide_True. }
  exists b, st', (new ++ [mkEntry (SetVisited i j) g1; mkEntry Redraw (cells st)]).
  split; [done|]. split; [|rewrite entered_app; apply elem_of_app; left; by left].
  split.
  - by eapply extends_by_trans.
  - rewrite entered_app. apply NoDup_app. split; [apply NoDup_singleton|].
    split; [|done].
    intros q Hq%list_elem_of_singleton Hq'. subst q.
    destruct (Hent _ Hq') as (_ & _ & Hu).
    rewrite Hvis in Hu by done. by rewrite decide_True in Hu.
  - intros q. rewrite entered_app.
    intros [Hq%list_elem_of_singleton|Hq]%elem_of_app.
    + subst q. split; [done|]. split; [done|by left].
    + destruct (Hent _ Hq) as (Hqin & Hv & Hu). split; [done|]. split; [done|].
      rewrite Hvis in Hu by done. case_decide; [by left|by right].
  - intros Hb q Hq Hv Hallowed.
    destruct (decide (q = (i, j))) as [->|Hne].
    + intros d Hd Hw. rewrite Hsame in Hw by done.
      assert (wallb g1 (i, j) d = has_wall d this_cell) as Hflag.
      { change (cell_at g1 i j = Some this_cell) in Hthis.
        unfold wallb. simpl. by rewrite Hthis. }
      rewrite Hflag in Hw.
      destruct (step (i, j) d) as [ti tj] eqn:Hs.
      apply (Hns Hb ti tj (has_wall d this_cell)); [|done..].
      destruct d; simpl in *; injection Hs as <- <-;
        repeat (first [apply list_elem_of_here|apply list_elem_of_further]).
    + apply Hcl; [done..|].
      rewrite Hvis by done. rewrite decide_False by done.
      by destruct Hallowed.
  - intros Hb Hv. specialize (Htg Hb Hv).
    rewrite Hvis in Htg by (split; unfold target; simpl; destruct Hin; lia).
    by rewrite decide_False in Htg.
Qed.

End SolveR.

(** ** Consequences of a finished construction *)

Section Constructed.

Variable self : Maze.
Variable pick : nat → nat.
Variables (fuel : nat) (st0 st_a st_b st_c st_d : State) (n_b n_c n_d : list Entry).
Hypothesis Hcon : construction self pick fuel st0 st_a st_b st_c st_d n_b n_c n_d.

Lemma construction_run : _create_cells self pick fuel st0 = Ok (tt, st_d).
Proof.
  destruct Hcon. unfold _create_cells.
  rewrite (bind_Ok _ _ _ _ _ con_init0), (bind_Ok _ _ _ _ _ con_open0).
  by rewrite (bind_Ok _ _ _ _ _ con_carve0).
Qed.

Lemma construction_extends :
  extends_by (init_step self) st_a st_d (n_d ++ n_c ++ n_b).
Proof.
  destruct Hcon.
  eapply extends_by_trans; [|done].
  eapply extends_by_trans; [done|].
  eapply extends_by_impl; [|done]. apply init_gen.
Qed.

Lemma construction_log :
  log st_d = (n_d ++ n_c ++ n_b ++ [mkEntry CreateCells (build_cells self)]) ++ log st0.
Proof.
  destruct construction_extends as (Hl & _). rewrite Hl.
  rewrite (con_log_a _ _ _ _ _ _ _ _ _ _ _ Hcon).
  by rewrite <- !app_assoc.
Qed.

(** A property of the fresh table that every constructor step keeps holds
    at every entry the constructor logs. *)
Lemma construction_invariant (P : grid → Prop) :
  P (build_cells self) →
  (∀ g g', init_step self g g' → P g → P g') →
  Forall (fun e => P (after e))
    (n_d ++ n_c ++ n_b ++ [mkEntry CreateCells (build_cells self)]) ∧
  P (cells st_d).
Proof.
  intros H0 Hstep.
  destruct construction_extends as (_ & Hc & Hl).
  rewrite (con_cells_a _ _ _ _ _ _ _ _ _ _ _ Hcon) in Hc, Hl.
  destruct (linked_invariant _ P _ _ Hstep H0 Hl) as [Hall Hlast].
  split; [|by rewrite Hc].
  rewrite !app_assoc. apply Forall_app. split.
  - by rewrite <- !app_assoc.
  - by repeat constructor.
Qed.

Lemma construction_well_formed : well_formed self (cells st_d).
Proof.
  apply (construction_invariant (well_formed self)).
  - apply build_cells_well_formed.
  - apply init_step_well_formed.
Qed.

Lemma construction_wallb (q : Z * Z) (d : Side) :
  in_bounds self q → wallb (cells st_d) q d = wallb (cells st_c) q d.
Proof.
  intros Hq. unfold wallb.
  rewrite (con_cleared _ _ _ _ _ _ _ _ _ _ _ Hcon q Hq).
  destruct (cell_at (cells st_c) q.1 q.2); simpl; [|done].
  apply has_wall_set_visited.
Qed.

Lemma construction_all_unvisited : all_unvisited self (cells st_d).
Proof.
  intros q Hq. unfold visitedb.
  rewrite (con_cleared _ _ _ _ _ _ _ _ _ _ _ Hcon q Hq).
  by destruct (cell_at (cells st_c) q.1 q.2).
Qed.

Lemma construction_reachable (p : Z * Z) :
  in_bounds self p → reachable self (cells st_c) (0, 0) p.
Proof.
  intros Hp. destruct (con_carved _ _ _ _ _ _ _ _ _ _ _ Hcon) as (Hreach & _).
  apply Hreach; [done|]. by apply (con_all_visited _ _ _ _ _ _ _ _ _ _ _ Hcon).
Qed.

Lemma construction_reachable_final (p : Z * Z) :
  in_bounds self p → reachable self (cells st_d) (0, 0) p.
Proof.
  intros Hp. eapply rtc_subrel; [|by apply construction_reachable].
  intros a b (Ha & Hb & d & -> & Hw1 & Hw2). split; [done|]. split; [done|].
  exists d. by rewrite !construction_wallb.
Qed.

Lemma construction_broken_pairs :
  (broken_pairs self (cells st_c) + 1 = length (all_cells self))%nat.
Proof.
  destruct (con_carved _ _ _ _ _ _ _ _ _ _ _ Hcon) as (_ & -> & _).
  unfold visited_count. apply filter_length_all.
  intros q Hq%elem_of_all_cells.
  by rewrite (con_all_visited _ _ _ _ _ _ _ _ _ _ _ Hcon).
Qed.

End Constructed.

Lemma length_all_cells_Z (self : Maze) :
  1 ≤ num_rows self → 1 ≤ num_cols self →
  length (all_cells self) = Z.to_nat (num_rows self * num_cols self).
Proof. intros Hr Hc. rewrite length_all_cells. lia. Qed.

(** * The claims *)

(** C1.  For every maze with at least one row and one column, once
    [_break_walls_r(0, 0)] has returned on the freshly built table, every
    cell is reachable from (0,0) through open adjacencies and the number of
    broken interior wall pairs is [num_rows * num_cols - 1]. *)
Theorem generation_yields_spanning_tree (self : Maze) (pick : nat → nat)
    (fuel : nat) (st0 : State) :
  1 ≤ num_rows self → 1 ≤ num_cols self →
  (2 * Z.to_nat (num_rows self * num_cols self) ≤ fuel)%nat →
  ∃ st1 st2,
    (_init_cells self ;; _break_entrance_and_exit self) st0 = Ok (tt, st1) ∧
    _break_walls_r self pick fuel 0 0 st1 = Ok (tt, st2) ∧
    (∀ p, in_bounds self p → reachable self (cells st2) (0, 0) p) ∧
    Z.of_nat (broken_pairs self (cells st2)) = num_rows self * num_cols self - 1.
Proof.
  intros Hr Hc Hfuel.
  destruct (construction_exists self pick Hr Hc fuel st0)
    as (st_a & st_b & st_c & st_d & n_b & n_c & n_d & Hcon).
  { by rewrite length_all_cells_Z. }
  exists st_b, st_c. split; [|split; [|split]].
  - by rewrite (bind_Ok _ _ _ _ _ (con_init _ _ _ _ _ _ _ _ _ _ _ Hcon)),
      (con_open _ _ _ _ _ _ _ _ _ _ _ Hcon).
  - apply (con_carve _ _ _ _ _ _ _ _ _ _ _ Hcon).
  - intros p Hp. by eapply construction_reachable.
  - pose proof (construction_broken_pairs _ _ _ _ _ _ _ _ _ _ _ Hcon) as Hcount.
    rewrite length_all_cells_Z in Hcount by done. lia.
Qed.

(** The search, started at a cell from which the target can be reached
    through open walls on a table without marks, cannot fail. *)
Lemma solve_r_finds_target (self : Maze) (fuel : nat) (st : State) :
  well_formed self (cells st) → in_bounds self (0, 0) →
  all_unvisited self (cells st) →
  reachable self (cells st) (0, 0) (target self) →
  (length (all_cells self) ≤ fuel)%nat →
  ∃ st', solve_r self fuel 0 0 st = Ok (true, st').
Proof.
  intros Hwf H0 Hnone Hreach Hfuel.
  destruct (solve_r_total self fuel 0 0 st Hwf H0) as (b & st' & new & Hrun & Hpost & Hroot).
  { intros g1 Hg1.
    pose proof (unvisited_count_mark self _ g1 (0, 0) H0 (Hnone _ H0) Hg1).
    pose proof (visited_unvisited self (cells st)). lia. }
  destruct b; [by exists st'|exfalso].
  destruct Hpost as [Hext Hnd Hent Hcl Htg].
  pose proof (extends_by_same_walls self _ _ _ Hext) as Hsame.
  assert (∀ q, reachable self (cells st) (0, 0) q → visitedb (cells st') q = true)
    as Hall.
  { unfold reachable. apply rtc_ind_r.
    - by destruct (Hent _ Hroot) as (_ & ? & _).
    - intros p q _ (Hp & Hq & d & -> & Hw & _) IH.
      apply (Hcl eq_refl p Hp IH); [right; by apply Hnone|done|].
      by rewrite Hsame. }
  specialize (Htg eq_refl (Hall _ Hreach)).
  rewrite Hnone in Htg; [done|].
  destruct H0 as [? ?]. split; unfold target; simpl in *; lia.
Qed.

(** The constructor followed by [solve()]. *)
Lemma constructed_maze_is_solved (self : Maze) (pick : nat → nat)
    (fuel fuel' : nat) (st0 : State) :
  1 ≤ num_rows self → 1 ≤ num_cols self →
  (2 * Z.to_nat (num_rows self * num_cols self) ≤ fuel)%nat →
  (Z.to_nat (num_rows self * num_cols self) ≤ fuel')%nat →
  ∃ st1 st2,
    _create_cells self pick fuel st0 = Ok (tt, st1) ∧
    solve_r self fuel' 0 0 st1 = Ok (true, st2).
Proof.
  intros Hr Hc Hfuel Hfuel'.
  destruct (construction_exists self pick Hr Hc fuel st0)
    as (st_a & st_b & st_c & st_d & n_b & n_c & n_d & Hcon).
  { by rewrite length_all_cells_Z. }
  destruct (solve_r_finds_target self fuel' st_d) as [st' Hsolve].
  - by eapply construction_well_formed.
  - by apply in_bounds_origin.
  - by eapply construction_all_unvisited.
  - eapply construction_reachable_final; [done|]. by apply in_bounds_corner.
  - by rewrite length_all_cells_Z.
  - exists st_d, st'. split; [|done]. by eapply construction_run.
Qed.

(** The entry point finds a path through the 20 by 30 maze it builds. *)
Corollary main_finds_path (pick : nat → nat) (fuel fuel' : nat) (st0 : State) :
  (1200 ≤ fuel)%nat → (600 ≤ fuel')%nat →
  ∃ st, main pick fuel fuel' st0 = Ok (true, st).
Proof.
  intros Hfuel Hfuel'.
  destruct (constructed_maze_is_solved main_maze pick fuel fuel' st0)
    as (st1 & st2 & Hgen & Hsolve); [done|done|simpl; lia|simpl; lia|].
  exists st2. unfold main, __post_init__. by rewrite (bind_Ok _ _ _ _ _ Hgen).
Qed.

(** C2.  For every maze with at least one row and one column, the
    constructor runs to its end and [solve()] then returns [True],
    whatever the random choices of the generation were. *)
Theorem solve_returns_true (self : Maze) (pick : nat → nat)
    (fuel fuel' : nat) (st0 : State) :
  1 ≤ num_rows self → 1 ≤ num_cols self →
  (2 * Z.to_nat (num_rows self * num_cols self) ≤ fuel)%nat →
  (Z.to_nat (num_rows self * num_cols self) ≤ fuel')%nat →
  ∃ st1 st2,
    __post_init__ self pick fuel st0 = Ok (tt, st1) ∧
    solve self fuel' st1 = Ok (true, st2).
Proof.
  intros Hr Hc Hfuel Hfuel'.
  apply (constructed_maze_is_solved self pick fuel fuel' st0); done.
Qed.

(** The whole program: the constructor, then [solve()]. *)
Lemma program_runs (self : Maze) (pick : nat → nat) (fuel fuel' : nat) (st0 : State) :
  1 ≤ num_rows self → 1 ≤ num_cols self →
  (2 * Z.to_nat (num_rows self * num_cols self) ≤ fuel)%nat →
  (Z.to_nat (num_rows self * num_cols self) ≤ fuel')%nat →
  ∃ st_a st_b st_c st_d n_b n_c n_d b st_e n_e,
    construction self pick fuel st0 st_a st_b st_c st_d n_b n_c n_d ∧
    solve self fuel' st_d = Ok (b, st_e) ∧
    extends_by (solve_step self) st_d st_e n_e.
Proof.
  intros Hr Hc Hfuel Hfuel'.
  destruct (construction_exists self pick Hr Hc fuel st0)
    as (st_a & st_b & st_c & st_d & n_b & n_c & n_d & Hcon).
  { by rewrite length_all_cells_Z. }
  pose proof (in_bounds_origin self Hr Hc) as H0.
  destruct (solve_r_total self fuel' 0 0 st_d) as (b & st_e & n_e & Hrun & Hpost & _).
  - by eapply construction_well_formed.
  - done.
  - intros g1 Hg1.
    pose proof (construction_all_unvisited _ _ _ _ _ _ _ _ _ _ _ Hcon _ H0) as Hv.
    pose proof (unvisited_count_mark self _ g1 (0, 0) H0 Hv Hg1).
    pose proof (visited_unvisited self (cells st_d)).
    rewrite length_all_cells_Z in * by done. lia.
  - exists st_a, st_b, st_c, st_d, n_b, n_c, n_d, b, st_e, n_e.
    split; [done|]. split; [done|]. by destruct Hpost.
Qed.

Lemma solve_step_init_step (self : Maze) (g g' : grid) :
  solve_step self g g' → init_step self g g'.
Proof. intros H. by apply init_gen, solve_step_gen_step. Qed.

Lemma build_cells_mirrored (self : Maze) : mirrored self (build_cells self).
Proof. intros a d Ha Hb. by rewrite !wallb_build_cells. Qed.

Lemma build_cells_boundary_closed (self : Maze) : boundary_closed self (build_cells self).
Proof. intros a d Ha _ _ _. by apply wallb_build_cells. Qed.

(** C5.  At every entry of the log of the constructor and of the solver
    that follows it, hence after each of their operations on the table,
    the walls are mirrored: for neighbouring cells [a] and [b], [a]'s wall
    towards [b] is absent exactly when [b]'s wall towards [a] is.  Clearing
    the two walls of a pair counts as one operation. *)
Theorem walls_stay_mirrored (self : Maze) (pick : nat → nat)
    (fuel fuel' : nat) (st0 : State) :
  1 ≤ num_rows self → 1 ≤ num_cols self →
  (2 * Z.to_nat (num_rows self * num_cols self) ≤ fuel)%nat →
  (Z.to_nat (num_rows self * num_cols self) ≤ fuel')%nat →
  ∃ st1 b st2 generation solving,
    __post_init__ self pick fuel st0 = Ok (tt, st1) ∧
    solve self fuel' st1 = Ok (b, st2) ∧
    log st1 = generation ++ log st0 ∧
    log st2 = solving ++ log st1 ∧
    Forall (fun e => mirrored self (after e)) (solving ++ generation) ∧
    mirrored self (cells st1) ∧ mirrored self (cells st2).
Proof.
  intros Hr Hc Hfuel Hfuel'.
  destruct (program_runs self pick fuel fuel' st0 Hr Hc Hfuel Hfuel')
    as (st_a & st_b & st_c & st_d & n_b & n_c & n_d & b & st_e & n_e
        & Hcon & Hsolve & Hext).
  destruct (construction_invariant _ _ _ _ _ _ _ _ _ _ _ Hcon (mirrored self))
    as [Hgen Hfinal].
  { apply build_cells_mirrored. }
  { apply init_step_mirrored. }
  destruct Hext as (Hlog & Hcells & Hlinked).
  destruct (linked_invariant _ (mirrored self) _ _
              (fun g g' H => init_step_mirrored self g g' (solve_step_init_step _ _ _ H))
              Hfinal Hlinked) as [Hsol Hlast].
  exists st_d, b, st_e,
    (n_d ++ n_c ++ n_b ++ [mkEntry CreateCells (build_cells self)]), n_e.
  split; [by eapply construction_run|]. split; [done|].
  split; [by eapply construction_log|]. split; [done|].
  split; [by apply Forall_app|]. split; [done|]. by rewrite Hcells.
Qed.

(** C6.  After the constructor, the top wall of (0,0) and the bottom wall
    of the last cell are absent; they are absent at every log entry from
    the one that opens the exit on, through generation and solving; and at
    every log entry every other wall on the boundary of the table is
    present. *)
Theorem openings_are_fixed (self : Maze) (pick : nat → nat)
    (fuel fuel' : nat) (st0 : State) :
  1 ≤ num_rows self → 1 ≤ num_cols self →
  (2 * Z.to_nat (num_rows self * num_cols self) ≤ fuel)%nat →
  (Z.to_nat (num_rows self * num_cols self) ≤ fuel')%nat →
  ∃ st1 b st2 later e_exit e_entrance e_create,
    __post_init__ self pick fuel st0 = Ok (tt, st1) ∧
    solve self fuel' st1 = Ok (b, st2) ∧
    log st2 = later ++ [e_exit; e_entrance; e_create] ++ log st0 ∧
    ev e_create = CreateCells ∧
    ev e_entrance = OpenWall 0 0 Top ∧
    ev e_exit = OpenWall (num_rows self - 1) (num_cols self - 1) Bottom ∧
    openings self (cells st1) ∧
    Forall (fun e => openings self (after e)) (later ++ [e_exit]) ∧
    Forall (fun e => boundary_closed self (after e))
      (later ++ [e_exit; e_entrance; e_create]).
Proof.
  intros Hr Hc Hfuel Hfuel'.
  destruct (program_runs self pick fuel fuel' st0 Hr Hc Hfuel Hfuel')
    as (st_a & st_b & st_c & st_d & n_b & n_c & n_d & b & st_e & n_e
        & Hcon & Hsolve & Hext).
  pose proof (in_bounds_origin self Hr Hc) as H0.
  pose proof (in_bounds_corner self Hr Hc) as H1.
  destruct (construction_invariant _ _ _ _ _ _ _ _ _ _ _ Hcon (boundary_closed self))
    as [Hgen Hfinal].
  { apply build_cells_boundary_closed. }
  { apply init_step_boundary_closed. }
  destruct Hext as (Hlog & Hcells & Hlinked).
  destruct (linked_invariant _ (boundary_closed self) _ _
              (fun g g' H => init_step_boundary_closed self g g'
                               (solve_step_init_step _ _ _ H))
              Hfinal Hlinked) as [Hsol _].
  pose proof (con_events_b _ _ _ _ _ _ _ _ _ _ _ Hcon) as Hev.
  destruct n_b as [|e_exit [|e_entrance [|? ?]]]; try done.
  injection Hev as Hev_exit Hev_entrance.
  (* the openings, from the state after the exit is opened *)
  pose proof (con_openings _ _ _ _ _ _ _ _ _ _ _ Hcon) as Hopen_b.
  destruct (con_ext_b _ _ _ _ _ _ _ _ _ _ _ Hcon) as (_ & Hcells_b & _).
  simpl in Hcells_b.
  assert (extends_by (init_step self) st_b st_e (n_e ++ n_d ++ n_c)) as Hext_be.
  { eapply extends_by_trans.
    - eapply extends_by_trans; [|apply (con_ext_d _ _ _ _ _ _ _ _ _ _ _ Hcon)].
      eapply extends_by_impl; [|apply (con_ext_c _ _ _ _ _ _ _ _ _ _ _ Hcon)].
      apply init_gen.
    - eapply extends_by_impl; [|by repeat split]. apply solve_step_init_step. }
  assert (∀ g g', init_step self g g' → openings self g → openings self g') as Hkeep.
  { intros g g' Hstep. apply walls_fall_openings; [done..|].
    by apply init_step_walls_fall. }
  destruct Hext_be as (_ & _ & Hlinked_be).
  destruct (linked_invariant _ (openings self) _ _ Hkeep Hopen_b Hlinked_be)
    as [Hopen_later _].
  destruct (con_ext_d _ _ _ _ _ _ _ _ _ _ _ Hcon) as (_ & Hcells_d & Hlinked_d).
  destruct (con_ext_c _ _ _ _ _ _ _ _ _ _ _ Hcon) as (_ & Hcells_c & Hlinked_c).
  assert (openings self (cells st_d)) as Hopen_d.
  { assert (linked (init_step self) (cells st_b) (n_d ++ n_c)) as Hl.
    { apply linked_app. split.
      - eapply linked_impl; [|done]. apply init_gen.
      - by rewrite <- Hcells_c. }
    destruct (linked_invariant _ (openings self) _ _ Hkeep Hopen_b Hl) as [_ Hlast].
    rewrite last_grid_app, <- Hcells_c, <- Hcells_d in Hlast. done. }
  exists st_d, b, st_e, (n_e ++ n_d ++ n_c), e_exit, e_entrance,
    (mkEntry CreateCells (build_cells self)).
  split; [by eapply construction_run|]. split; [done|].
  split.
  { rewrite Hlog, (construction_log _ _ _ _ _ _ _ _ _ _ _ Hcon).
    by rewrite <- !app_assoc. }
  split; [done|]. split; [done|]. split; [done|]. split; [done|].
  split.
  - apply Forall_app. split; [done|].
    constructor; [|constructor]. by rewrite <- Hcells_b.
  - rewrite <- !app_assoc. apply Forall_app. split; [done|]. exact Hgen.
Qed.

(** C7.  On any table of the maze's shape without marks, [solve_r(0, 0)]
    returns when given [num_rows * num_cols] units of fuel (one per nested
    call); the cells whose [visited] attribute the calls set on entry are
    pairwise distinct, so there are at most [num_rows * num_cols] calls;
    and from one log entry to the next, the undo draws included, no mark
    is ever removed. *)
Theorem solver_terminates (self : Maze) (fuel : nat) (st : State) :
  well_formed self (cells st) →
  1 ≤ num_rows self → 1 ≤ num_cols self →
  all_unvisited self (cells st) →
  (Z.to_nat (num_rows self * num_cols self) ≤ fuel)%nat →
  ∃ b st' new,
    solve_r self fuel 0 0 st = Ok (b, st') ∧
    log st' = new ++ log st ∧
    NoDup (entered new) ∧
    Z.of_nat (length (entered new)) ≤ num_rows self * num_cols self ∧
    linked (visited_grows self) (cells st) new ∧
    (∀ q, q ∈ entered new → visitedb (cells st') q = true).
Proof.
  intros Hwf Hr Hc Hnone Hfuel.
  pose proof (in_bounds_origin self Hr Hc) as H0.
  destruct (solve_r_total self fuel 0 0 st Hwf H0) as (b & st' & new & Hrun & Hpost & _).
  { intros g1 Hg1.
    pose proof (unvisited_count_mark self _ g1 (0, 0) H0 (Hnone _ H0) Hg1).
    pose proof (visited_unvisited self (cells st)).
    rewrite length_all_cells_Z in * by done. lia. }
  destruct Hpost as [(Hlog & _ & Hlinked) Hnd Hent _ _].
  exists b, st', new. split; [done|]. split; [done|]. split; [done|].
  split; [|split].
  - assert (length (entered new) ≤ length (all_cells self))%nat as Hle.
    { apply submseteq_length, NoDup_submseteq; [done|].
      intros q Hq. apply elem_of_all_cells. by destruct (Hent q Hq). }
    rewrite length_all_cells_Z in Hle by done. lia.
  - eapply linked_impl; [|done].
    intros g g' Hstep. by apply gen_step_visited_grows, solve_step_gen_step.
  - intros q Hq. by destruct (Hent q Hq) as (_ & ? & _).
Qed.

(** C8.  On any table of the maze's shape, [_reset_cells_visited] returns;
    afterwards every cell is the cell it was with [visited] set to
    [False], all other fields being what they were; and a second call
    right after it leaves the table as it is. *)
Theorem reset_clears_and_is_idempotent (self : Maze) (st : State) :
  well_formed self (cells st) →
  ∃ st1 st2,
    _reset_cells_visited self st = Ok (tt, st1) ∧
    (∀ i j, in_bounds self (i, j) →
       cell_at (cells st1) i j = set_visited false <$> cell_at (cells st) i j) ∧
    (∀ q, in_bounds self q → visitedb (cells st1) q = false) ∧
    _reset_cells_visited self st1 = Ok (tt, st2) ∧
    cells st2 = cells st1.
Proof.
  intros Hwf.
  destruct (_reset_cells_visited_Ok self st Hwf) as (st1 & n1 & Hrun1 & Hext1 & _ & Hc1).
  pose proof (extends_by_init_well_formed self _ _ _ Hext1 Hwf) as Hwf1.
  destruct (_reset_cells_visited_Ok self st1 Hwf1) as (st2 & n2 & Hrun2 & Hext2 & _ & Hc2).
  pose proof (extends_by_init_well_formed self _ _ _ Hext2 Hwf1) as Hwf2.
  exists st1, st2. split; [done|]. split; [|split; [|split; [done|]]].
  - intros i j Hin. apply (Hc1 (i, j) Hin).
  - intros q Hq. unfold visitedb. rewrite (Hc1 q Hq).
    by destruct (cell_at (cells st) q.1 q.2).
  - apply (grid_ext self); [done..|].
    intros i j Hin. pose proof (Hc2 (i, j) Hin) as H2.
    pose proof (Hc1 (i, j) Hin) as H1. simpl in H1, H2.
    rewrite H2, H1. apply set_visited_false_twice.
Qed.

(** C9.  A run of [solve_r] from any cell of a table of the maze's shape
    returns, and from each log entry to the next every wall flag is what it
    was and no mark is removed.  A run of [_break_walls_r] from any cell
    returns, and from each log entry to the next a wall flag that is set
    was set before and no mark is removed.  Neither run changes the
    geometry of a cell. *)
Theorem mutation_discipline (self : Maze) (pick : nat → nat)
    (fuel fuel' : nat) (i j : Z) (st : State) :
  well_formed self (cells st) → in_bounds self (i, j) →
  (2 * Z.to_nat (num_rows self * num_cols self) < fuel)%nat →
  (Z.to_nat (num_rows self * num_cols self) < fuel')%nat →
  (∃ b st' new,
     solve_r self fuel' i j st = Ok (b, st') ∧
     extends_by (fun g g' => same_walls self g g' ∧ visited_grows self g g' ∧
                             same_boxes self g g')
       st st' new) ∧
  (∃ st' new,
     _break_walls_r self pick fuel i j st = Ok (tt, st') ∧
     extends_by (fun g g' => walls_fall self g g' ∧ visited_grows self g g' ∧
                             same_boxes self g g')
       st st' new).
Proof.
  intros Hwf Hin Hfuel Hfuel'.
  assert (1 ≤ num_rows self ∧ 1 ≤ num_cols self) as [Hr Hc].
  { destruct Hin as [? ?]; simpl in *; lia. }
  pose proof (length_all_cells_Z self Hr Hc) as Hlen.
  split.
  - destruct (solve_r_total self fuel' i j st Hwf Hin)
      as (b & st' & new & Hrun & Hpost & _).
    { intros g1 _. pose proof (visited_unvisited self g1). lia. }
    exists b, st', new. split; [done|].
    eapply extends_by_impl; [|apply (sp_ext _ _ _ _ _ _ Hpost)].
    intros g g' Hstep. split; [by apply solve_step_same_walls|].
    split; [by apply gen_step_visited_grows, solve_step_gen_step|].
    by apply gen_step_same_boxes, solve_step_gen_step.
  - destruct (mark_visited_Ok self i j st Hwf Hin) as (g1 & Hg1 & Hmark).
    set (st_m := mkState g1 _ _) in Hmark.
    assert (well_formed self g1) as Hwf1.
    { destruct Hin as [? ?]; simpl in *.
      apply (modify_cell_well_formed self _ g1 _ _ _) in Hg1; (done || lia). }
    destruct (break_walls_loop_total self pick fuel i j st_m Hwf1 Hin)
      as (st' & new & Hrun & Hext & _).
    { pose proof (visited_unvisited self g1). simpl. lia. }
    exists st', (new ++ [mkEntry (SetVisited i j) g1]). split.
    { unfold _break_walls_r. by rewrite (bind_Ok _ _ _ _ _ Hmark). }
    eapply extends_by_impl
      with (rel := gen_step self).
    { intros g g' Hstep. split; [by apply gen_step_walls_fall|].
      split; [by apply gen_step_visited_grows|by apply gen_step_same_boxes]. }
    eapply extends_by_trans; [|exact Hext].
    apply extends_by_single. by apply (gen_mark self _ g1 (i, j)).
Qed.

(** ** More fuel does not change a result *)

Section FuelMonotone.

Variable self : Maze.
Variable pick : nat → nat.

Lemma break_walls_loop_fuel (fuel fuel' : nat) :
  (fuel ≤ fuel')%nat →
  ∀ i j st r,
    break_walls_loop self pick fuel i j st = Ok r →
    break_walls_loop self pick fuel' i j st = Ok r.
Proof.
  revert fuel'. induction fuel as [|fuel IH]; intros fuel' Hle i j st r Hrun; [done|].
  destruct fuel' as [|fuel']; [lia|].
  assert (fuel ≤ fuel')%nat as Hle' by lia.
  cbn [break_walls_loop] in *. unfold bind in *.
  destruct (collect_to_visit self (neighbors i j) [] st) as [[tv st1]| |]; [|done..].
  destruct tv as [|q tv]; [done|].
  destruct (random_choice pick (q :: tv) st1) as [[new st2]| |]; [|done..].
  destruct (update _ _ st2) as [[[] st3]| |]; [|done..].
  destruct (mark_visited new.1 new.2 st3) as [[[] st4]| |]; [|done..].
  destruct (break_walls_loop self pick fuel new.1 new.2 st4) as [[[] st5]| |] eqn:E;
    [|done..].
  rewrite (IH fuel' Hle' _ _ _ _ E). by apply IH.
Qed.

Lemma _create_cells_fuel (fuel fuel' : nat) (st : State) r :
  (fuel ≤ fuel')%nat →
  _create_cells self pick fuel st = Ok r →
  _create_cells self pick fuel' st = Ok r.
Proof.
  intros Hle. unfold _create_cells, _break_walls_r, bind.
  destruct (_init_cells self st) as [[[] st1]| |]; [|done..].
  destruct (_break_entrance_and_exit self st1) as [[[] st2]| |]; [|done..].
  destruct (mark_visited 0 0 st2) as [[[] st3]| |]; [|done..].
  destruct (break_walls_loop self pick fuel 0 0 st3) as [[[] st4]| |] eqn:E; [|done..].
  by rewrite (break_walls_loop_fuel fuel fuel' Hle _ _ _ _ E).
Qed.

Lemma solve_for_rec (rec rec' : Z → Z → M bool) (this_cell : Cell)
    (ns : list (Z * Z * bool)) :
  (∀ i j st r, rec i j st = Ok r → rec' i j st = Ok r) →
  ∀ st r,
    solve_for self rec this_cell ns st = Ok r →
    solve_for self rec' this_cell ns st = Ok r.
Proof.
  intros Hrec. induction ns as [|[[ti tj] w] ns IH]; intros st r Hrun; [done|].
  cbn [solve_for] in *.
  destruct ((ti <? 0) || (tj <? 0)); [by apply IH|].
  destruct ((ti >=? num_rows self) || (tj >=? num_cols self)); [by apply IH|].
  unfold bind in *.
  destruct (read_cell ti tj st) as [[next_cell st1]| |]; [|done..].
  destruct (negb (visited next_cell)); [|by apply IH].
  destruct (negb w); [|by apply IH].
  destruct (Cell_draw_move this_cell next_cell false st1) as [[[] st2]| |]; [|done..].
  destruct (rec ti tj st2) as [[found st3]| |] eqn:E; [|done..].
  rewrite (Hrec _ _ _ _ E).
  destruct (negb found); [|done].
  destruct (Cell_draw_move this_cell next_cell true st3) as [[[] st4]| |]; [|done..].
  by apply IH.
Qed.

Lemma solve_r_fuel (fuel fuel' : nat) :
  (fuel ≤ fuel')%nat →
  ∀ i j st r,
    solve_r self fuel i j st = Ok r → solve_r self fuel' i j st = Ok r.
Proof.
  revert fuel'. induction fuel as [|fuel IH]; intros fuel' Hle i j st r Hrun; [done|].
  destruct fuel' as [|fuel']; [lia|].
  assert (fuel ≤ fuel')%nat as Hle' by lia.
  cbn [solve_r] in *. unfold bind in *.
  destruct (_animate st) as [[[] st1]| |]; [|done..].
  destruct (mark_visited i j st1) as [[[] st2]| |]; [|done..].
  destruct (read_cell i j st2) as [[this_cell st3]| |]; [|done..].
  destruct ((i =? num_rows self - 1) && (j =? num_cols self - 1)); [done|].
  eapply solve_for_rec; [|exact Hrun]. apply IH. done.
Qed.

End FuelMonotone.

(** The constructor never reads the [seed] field. *)
Lemma seed_is_not_read (x y r c sx sy : Z) (s s' : option Z)
    (pick : nat → nat) (fuel : nat) (st : State) :
  _create_cells (mkMaze x y r c sx sy s) pick fuel st =
  _create_cells (mkMaze x y r c sx sy s') pick fuel st.
Proof. reflexivity. Qed.

(** C3, as the code has it.  In a maze of two rows and two columns, when
    [random.choice] always returns the first candidate, the cells are
    entered in the order (0,0), (1,0), (1,1), (0,1): the candidates are
    listed up, down, left, right, so the first one at (0,0) is the cell
    below.  In the end the top wall of (0,0) and the bottom wall of (1,1)
    are absent, the wall pairs (0,0)-(1,0), (1,0)-(1,1) and (1,1)-(0,1)
    are broken, and of the four interior wall pairs the one that remains,
    (0,0)-(0,1), is intact. *)
Theorem first_choice_two_by_two (s : option Z) (fuel : nat) :
  (8 ≤ fuel)%nat →
  ∃ st,
    _create_cells (two_by_two 5 5 10 10 s) first_choice fuel fresh = Ok (tt, st) ∧
    entered (log st) = [(0, 0); (1, 0); (1, 1); (0, 1)] ∧
    broken_sequence (log st) =
      [((0, 0), (1, 0)); ((1, 0), (1, 1)); ((1, 1), (0, 1))] ∧
    wallb (cells st) (0, 0) Top = false ∧
    wallb (cells st) (1, 1) Bottom = false ∧
    wall_pairs (two_by_two 5 5 10 10 s) =
      [((0, 0), Right); ((0, 0), Bottom); ((0, 1), Bottom); ((1, 0), Right)] ∧
    broken (cells st) ((0, 0), Bottom) = true ∧
    broken (cells st) ((1, 0), Right) = true ∧
    broken (cells st) ((0, 1), Bottom) = true ∧
    broken (cells st) ((0, 0), Right) = false.
Proof.
  intros Hfuel.
  destruct (_create_cells (two_by_two 5 5 10 10 s) first_choice 8 fresh)
    as [[[] st]| |] eqn:Hrun; try (vm_compute in Hrun; discriminate).
  exists st. split.
  { by apply (_create_cells_fuel _ _ 8%nat fuel). }
  vm_compute in Hrun. injection Hrun as <-.
  repeat split; vm_compute; reflexivity.
Qed.

Lemma first_choice_two_by_two_witness :
  (8 ≤ 8)%nat ∧
  ∃ st,
    _create_cells (two_by_two 5 5 10 10 None) first_choice 8 fresh = Ok (tt, st) ∧
    entered (log st) = [(0, 0); (1, 0); (1, 1); (0, 1)] ∧
    broken_sequence (log st) =
      [((0, 0), (1, 0)); ((1, 0), (1, 1)); ((1, 1), (0, 1))] ∧
    wallb (cells st) (0, 0) Top = false ∧
    wallb (cells st) (1, 1) Bottom = false ∧
    wall_pairs (two_by_two 5 5 10 10 None) =
      [((0, 0), Right); ((0, 0), Bottom); ((0, 1), Bottom); ((1, 0), Right)] ∧
    broken (cells st) ((0, 0), Bottom) = true ∧
    broken (cells st) ((1, 0), Right) = true ∧
    broken (cells st) ((0, 1), Bottom) = true ∧
    broken (cells st) ((0, 0), Right) = false.
Proof.
  split; [lia|]. apply (first_choice_two_by_two None 8). lia.
Defined.

(** C3, as the specification words it, fails: with the first candidate
    always chosen, the run of the constructor on a two by two maze does not
    enter the cells in the order (0,0), (0,1), (1,1), (1,0), does not break
    the pair (0,0)-(0,1), and does not leave two interior pairs intact. *)
Lemma first_choice_two_by_two_not_as_claimed :
  ¬ ∃ st,
      _create_cells (two_by_two 5 5 10 10 None) first_choice 8 fresh = Ok (tt, st) ∧
      entered (log st) = [(0, 0); (0, 1); (1, 1); (1, 0)] ∧
      wallb (cells st) (0, 0) Top = false ∧
      wallb (cells st) (1, 1) Bottom = false ∧
      broken (cells st) ((0, 0), Right) = true ∧
      broken (cells st) ((0, 1), Bottom) = true ∧
      broken (cells st) ((1, 0), Right) = true ∧
      (length (wall_pairs (two_by_two 5 5 10 10 None))
       - broken_pairs (two_by_two 5 5 10 10 None) (cells st) = 2)%nat.
Proof.
  intros (st & Hrun & Horder & _).
  vm_compute in Hrun. injection Hrun as <-.
  vm_compute in Horder. discriminate.
Qed.

(** C4, evaluated.  Two constructions of a two by two maze with the same
    [seed] (whatever it is) and the same dimensions, in which the random
    generator yields different values, break different wall pairs and end
    with different tables: nothing in the program seeds the generator. *)
Theorem same_seed_different_mazes (s : option Z) :
  ∃ st st',
    _create_cells (two_by_two 5 5 10 10 s) first_choice 8 fresh = Ok (tt, st) ∧
    _create_cells (two_by_two 5 5 10 10 s) second_choice 8 fresh = Ok (tt, st') ∧
    broken_sequence (log st) =
      [((0, 0), (1, 0)); ((1, 0), (1, 1)); ((1, 1), (0, 1))] ∧
    broken_sequence (log st') =
      [((0, 0), (0, 1)); ((0, 1), (1, 1)); ((1, 1), (1, 0))] ∧
    wallb (cells st) (0, 0) Right = true ∧
    wallb (cells st') (0, 0) Right = false.
Proof.
  eexists _, _.
  split; [vm_compute; reflexivity|].
  split; [vm_compute; reflexivity|].
  repeat split; vm_compute; reflexivity.
Qed.

(** * Witnesses

    Each theorem above that has hypotheses is applied here to a concrete
    maze, so that its hypotheses are seen to be satisfiable. *)

Lemma one_by_two_positions (q : Z * Z) :
  in_bounds (one_by_two 5 5 10 10 None) q → q = (0, 0) ∨ q = (0, 1).
Proof.
  destruct q as [i j]. intros [Hi Hj]. simpl in *.
  assert (i = 0) as -> by lia.
  assert (j = 0 ∨ j = 1) as [-> | ->] by lia; auto.
Qed.

Lemma generation_yields_spanning_tree_witness :
  1 ≤ num_rows (two_by_two 5 5 10 10 None) ∧
  1 ≤ num_cols (two_by_two 5 5 10 10 None) ∧
  (2 * Z.to_nat (num_rows (two_by_two 5 5 10 10 None)
                 * num_cols (two_by_two 5 5 10 10 None)) ≤ 8)%nat ∧
  ∃ st1 st2,
    (_init_cells (two_by_two 5 5 10 10 None) ;;
     _break_entrance_and_exit (two_by_two 5 5 10 10 None)) fresh = Ok (tt, st1) ∧
    _break_walls_r (two_by_two 5 5 10 10 None) first_choice 8 0 0 st1 = Ok (tt, st2) ∧
    (∀ p, in_bounds (two_by_two 5 5 10 10 None) p →
          reachable (two_by_two 5 5 10 10 None) (cells st2) (0, 0) p) ∧
    Z.of_nat (broken_pairs (two_by_two 5 5 10 10 None) (cells st2)) =
      num_rows (two_by_two 5 5 10 10 None) * num_cols (two_by_two 5 5 10 10 None) - 1.
Proof.
  split; [simpl; lia|]. split; [simpl; lia|]. split; [simpl; lia|].
  apply (generation_yields_spanning_tree (two_by_two 5 5 10 10 None) first_choice 8 fresh);
    simpl; lia.
Defined.

Lemma solve_returns_true_witness :
  1 ≤ num_rows (two_by_two 5 5 10 10 None) ∧
  1 ≤ num_cols (two_by_two 5 5 10 10 None) ∧
  (2 * Z.to_nat (num_rows (two_by_two 5 5 10 10 None)
                 * num_cols (two_by_two 5 5 10 10 None)) ≤ 8)%nat ∧
  (Z.to_nat (num_rows (two_by_two 5 5 10 10 None)
             * num_cols (two_by_two 5 5 10 10 None)) ≤ 4)%nat ∧
  ∃ st1 st2,
    __post_init__ (two_by_two 5 5 10 10 None) first_choice 8 fresh = Ok (tt, st1) ∧
    solve (two_by_two 5 5 10 10 None) 4 st1 = Ok (true, st2).
Proof.
  split; [simpl; lia|]. split; [simpl; lia|]. split; [simpl; lia|].
  split; [simpl; lia|].
  apply (solve_returns_true (two_by_two 5 5 10 10 None) first_choice 8 4 fresh);
    simpl; lia.
Defined.

Lemma walls_stay_mirrored_witness :
  1 ≤ num_rows (two_by_two 5 5 10 10 None) ∧
  1 ≤ num_cols (two_by_two 5 5 10 10 None) ∧
  (2 * Z.to_nat (num_rows (two_by_two 5 5 10 10 None)
                 * num_cols (two_by_two 5 5 10 10 None)) ≤ 8)%nat ∧
  (Z.to_nat (num_rows (two_by_two 5 5 10 10 None)
             * num_cols (two_by_two 5 5 10 10 None)) ≤ 4)%nat ∧
  ∃ st1 b st2 generation solving,
    __post_init__ (two_by_two 5 5 10 10 None) first_choice 8 fresh = Ok (tt, st1) ∧
    solve (two_by_two 5 5 10 10 None) 4 st1 = Ok (b, st2) ∧
    log st1 = generation ++ log fresh ∧
    log st2 = solving ++ log st1 ∧
    Forall (fun e => mirrored (two_by_two 5 5 10 10 None) (after e))
      (solving ++ generation) ∧
    mirrored (two_by_two 5 5 10 10 None) (cells st1) ∧
    mirrored (two_by_two 5 5 10 10 None) (cells st2).
Proof.
  split; [simpl; lia|]. split; [simpl; lia|]. split; [simpl; lia|].
  split; [simpl; lia|].
  apply (walls_stay_mirrored (two_by_two 5 5 10 10 None) first_choice 8 4 fresh);
    simpl; lia.
Defined.

Lemma openings_are_fixed_witness :
  1 ≤ num_rows (two_by_two 5 5 10 10 None) ∧
  1 ≤ num_cols (two_by_two 5 5 10 10 None) ∧
  (2 * Z.to_nat (num_rows (two_by_two 5 5 10 10 None)
                 * num_cols (two_by_two 5 5 10 10 None)) ≤ 8)%nat ∧
  (Z.to_nat (num_rows (two_by_two 5 5 10 10 None)
             * num_cols (two_by_two 5 5 10 10 None)) ≤ 4)%nat ∧
  ∃ st1 b st2 later e_exit e_entrance e_create,
    __post_init__ (two_by_two 5 5 10 10 None) first_choice 8 fresh = Ok (tt, st1) ∧
    solve (two_by_two 5 5 10 10 None) 4 st1 = Ok (b, st2) ∧
    log st2 = later ++ [e_exit; e_entrance; e_create] ++ log fresh ∧
    ev e_create = CreateCells ∧
    ev e_entrance = OpenWall 0 0 Top ∧
    ev e_exit = OpenWall (num_rows (two_by_two 5 5 10 10 None) - 1)
                  (num_cols (two_by_two 5 5 10 10 None) - 1) Bottom ∧
    openings (two_by_two 5 5 10 10 None) (cells st1) ∧
    Forall (fun e => openings (two_by_two 5 5 10 10 None) (after e))
      (later ++ [e_exit]) ∧
    Forall (fun e => boundary_closed (two_by_two 5 5 10 10 None) (after e))
      (later ++ [e_exit; e_entrance; e_create]).
Proof.
  split; [simpl; lia|]. split; [simpl; lia|]. split; [simpl; lia|].
  split; [simpl; lia|].
  apply (openings_are_fixed (two_by_two 5 5 10 10 None) first_choice 8 4 fresh);
    simpl; lia.
Defined.

Lemma solver_terminates_witness :
  well_formed (one_by_two 5 5 10 10 None) (cells (row_of_two cell_a cell_b 0 [])) ∧
  1 ≤ num_rows (one_by_two 5 5 10 10 None) ∧
  1 ≤ num_cols (one_by_two 5 5 10 10 None) ∧
  all_unvisited (one_by_two 5 5 10 10 None) (cells (row_of_two cell_a cell_b 0 [])) ∧
  (Z.to_nat (num_rows (one_by_two 5 5 10 10 None)
             * num_cols (one_by_two 5 5 10 10 None)) ≤ 2)%nat ∧
  ∃ b st' new,
    solve_r (one_by_two 5 5 10 10 None) 2 0 0 (row_of_two cell_a cell_b 0 [])
      = Ok (b, st') ∧
    log st' = new ++ log (row_of_two cell_a cell_b 0 []) ∧
    NoDup (entered new) ∧
    Z.of_nat (length (entered new)) ≤
      num_rows (one_by_two 5 5 10 10 None) * num_cols (one_by_two 5 5 10 10 None) ∧
    linked (visited_grows (one_by_two 5 5 10 10 None))
      (cells (row_of_two cell_a cell_b 0 [])) new ∧
    (∀ q, q ∈ entered new → visitedb (cells st') q = true).
Proof.
  split; [(split; [reflexivity|by repeat constructor])|].
  split; [simpl; lia|]. split; [simpl; lia|].
  split; [(intros q [-> | ->]%one_by_two_positions; reflexivity)|]. split; [simpl; lia|].
  apply (solver_terminates (one_by_two 5 5 10 10 None) 2 (row_of_two cell_a cell_b 0 [])).
  - (split; [reflexivity|by repeat constructor]).
  - simpl; lia.
  - simpl; lia.
  - (intros q [-> | ->]%one_by_two_positions; reflexivity).
  - simpl; lia.
Defined.

Lemma reset_clears_and_is_idempotent_witness :
  well_formed (one_by_two 5 5 10 10 None)
    (cells (row_of_two (set_visited true cell_a) cell_b 0 [])) ∧
  ∃ st1 st2,
    _reset_cells_visited (one_by_two 5 5 10 10 None)
      (row_of_two (set_visited true cell_a) cell_b 0 []) = Ok (tt, st1) ∧
    (∀ i j, in_bounds (one_by_two 5 5 10 10 None) (i, j) →
       cell_at (cells st1) i j =
         set_visited false <$>
           cell_at (cells (row_of_two (set_visited true cell_a) cell_b 0 [])) i j) ∧
    (∀ q, in_bounds (one_by_two 5 5 10 10 None) q → visitedb (cells st1) q = false) ∧
    _reset_cells_visited (one_by_two 5 5 10 10 None) st1 = Ok (tt, st2) ∧
    cells st2 = cells st1.
Proof.
  split; [(split; [reflexivity|by repeat constructor])|].
  apply (reset_clears_and_is_idempotent (one_by_two 5 5 10 10 None)
           (row_of_two (set_visited true cell_a) cell_b 0 [])).
  (split; [reflexivity|by repeat constructor]).
Defined.

Lemma mutation_discipline_witness :
  well_formed (one_by_two 5 5 10 10 None) (cells (row_of_two cell_a cell_b 0 [])) ∧
  in_bounds (one_by_two 5 5 10 10 None) (0, 0) ∧
  (2 * Z.to_nat (num_rows (one_by_two 5 5 10 10 None)
                 * num_cols (one_by_two 5 5 10 10 None)) < 5)%nat ∧
  (Z.to_nat (num_rows (one_by_two 5 5 10 10 None)
             * num_cols (one_by_two 5 5 10 10 None)) < 3)%nat ∧
  (∃ b st' new,
     solve_r (one_by_two 5 5 10 10 None) 3 0 0 (row_of_two cell_a cell_b 0 [])
       = Ok (b, st') ∧
     extends_by (fun g g' => same_walls (one_by_two 5 5 10 10 None) g g' ∧
                             visited_grows (one_by_two 5 5 10 10 None) g g' ∧
                             same_boxes (one_by_two 5 5 10 10 None) g g')
       (row_of_two cell_a cell_b 0 []) st' new) ∧
  (∃ st' new,
     _break_walls_r (one_by_two 5 5 10 10 None) first_choice 5 0 0
       (row_of_two cell_a cell_b 0 []) = Ok (tt, st') ∧
     extends_by (fun g g' => walls_fall (one_by_two 5 5 10 10 None) g g' ∧
                             visited_grows (one_by_two 5 5 10 10 None) g g' ∧
                             same_boxes (one_by_two 5 5 10 10 None) g g')
       (row_of_two cell_a cell_b 0 []) st' new).
Proof.
  split; [(split; [reflexivity|by repeat constructor])|].
  split; [split; simpl; lia|]. split; [simpl; lia|]. split; [simpl; lia|].
  apply (mutation_discipline (one_by_two 5 5 10 10 None) first_choice 5 3 0 0
           (row_of_two cell_a cell_b 0 [])).
  - (split; [reflexivity|by repeat constructor]).
  - split; simpl; lia.
  - simpl; lia.
  - simpl; lia.
Defined.

(** * Further properties *)

(** ** The constructor on a maze without rows or columns *)

(** X1.  A maze declared with no row or with no column cannot be built:
    the table is then empty, or a list of empty rows, and the first access
    to [self._cells[0][0]], in [_break_entrance_and_exit], raises
    [IndexError], whatever the random choices. *)
Theorem constructor_raises_without_cells (self : Maze) (pick : nat → nat)
    (fuel : nat) (st0 : State) :
  num_rows self ≤ 0 ∨ num_cols self ≤ 0 →
  _create_cells self pick fuel st0 = IndexError.
Proof.
  intros Hdim. unfold _create_cells.
  assert (modify_cell (build_cells self) 0 0 (set_wall Top false) = None) as Hnone.
  { rewrite modify_cell_nonneg by lia. unfold build_cells, range.
    destruct Hdim as [Hr|Hc].
    - by rewrite (seqZ_nil 0 (num_rows self)) by lia.
    - destruct (decide (num_rows self ≤ 0)) as [Hr|Hr];
        [by rewrite (seqZ_nil 0 (num_rows self)) by lia|].
      rewrite list_lookup_fmap, lookup_seqZ_lt by lia. simpl.
      by rewrite (seqZ_nil 0 (num_cols self)) by lia. }
  unfold bind, _init_cells, _break_entrance_and_exit, update. simpl.
  unfold bind, update. simpl. by rewrite Hnone.
Qed.

Lemma constructor_raises_without_cells_witness :
  (num_rows (mkMaze 5 5 3 0 10 10 None) ≤ 0 ∨ num_cols (mkMaze 5 5 3 0 10 10 None) ≤ 0) ∧
  _create_cells (mkMaze 5 5 3 0 10 10 None) first_choice 100 fresh = IndexError.
Proof.
  split; [right; simpl; lia|].
  apply (constructor_raises_without_cells (mkMaze 5 5 3 0 10 10 None) first_choice 100 fresh).
  right; simpl; lia.
Defined.

(** ** The table the constructor hands over *)

Section Delivered.

Variable self : Maze.
Variable pick : nat → nat.
Variables (fuel : nat) (st0 st_a st_b st_c st_d : State) (n_b n_c n_d : list Entry).
Hypothesis Hrows : 1 ≤ num_rows self.
Hypothesis Hcols : 1 ≤ num_cols self.
Hypothesis Hcon : construction self pick fuel st0 st_a st_b st_c st_d n_b n_c n_d.

Lemma construction_openings : openings self (cells st_d).
Proof.
  destruct (con_ext_c _ _ _ _ _ _ _ _ _ _ _ Hcon) as (_ & Hcells_c & Hlinked_c).
  destruct (con_ext_d _ _ _ _ _ _ _ _ _ _ _ Hcon) as (_ & Hcells_d & Hlinked_d).
  assert (linked (init_step self) (cells st_b) (n_d ++ n_c)) as Hl.
  { apply linked_app. split.
    - eapply linked_impl; [|done]. apply init_gen.
    - by rewrite <- Hcells_c. }
  destruct (linked_invariant _ (openings self) _ _
              (fun g g' H => walls_fall_openings self g g'
                               (in_bounds_origin self Hrows Hcols)
                               (in_bounds_corner self Hrows Hcols)
                               (init_step_walls_fall self g g' H))
              (con_openings _ _ _ _ _ _ _ _ _ _ _ Hcon) Hl) as [_ Hlast].
  rewrite last_grid_app, <- Hcells_c, <- Hcells_d in Hlast. done.
Qed.

Lemma construction_same_boxes : same_boxes self (build_cells self) (cells st_d).
Proof.
  destruct (construction_extends _ _ _ _ _ _ _ _ _ _ _ Hcon) as (_ & Hc & Hl).
  rewrite (con_cells_a _ _ _ _ _ _ _ _ _ _ _ Hcon) in Hc, Hl. rewrite Hc.
  eapply (linked_ends (init_step self) (same_boxes self)); eauto.
  - apply same_boxes_refl.
  - apply same_boxes_trans.
  - apply init_step_same_boxes.
Qed.

Lemma construction_broken_pairs_final :
  broken_pairs self (cells st_d) = broken_pairs self (cells st_c).
Proof.
  unfold broken_pairs. apply filter_length_ext.
  intros [c s] Hin. apply elem_of_wall_pairs in Hin as (Hc & Hcs & _).
  unfold broken. simpl.
  by rewrite !(construction_wallb _ _ _ _ _ _ _ _ _ _ _ Hcon).
Qed.

End Delivered.

Lemma box_at_build_cells (self : Maze) (i j : Z) :
  in_bounds self (i, j) →
  box_at (build_cells self) (i, j) =
    Some (x1 self + j * cell_size_x self, y1 self + i * cell_size_y self,
          x1 self + (j + 1) * cell_size_x self, y1 self + (i + 1) * cell_size_y self).
Proof. intros Hin. unfold box_at. simpl. by rewrite cell_at_build_cells. Qed.

(** X2.  The constructor lays the cells out on a regular grid and nothing
    moves them afterwards: the cell of row [i] and column [j] has its top
    left corner at [(x1 + j * cell_size_x, y1 + i * cell_size_y)] and its
    bottom right corner one cell size further in both directions, after
    the constructor and still after [solve()]. *)
Theorem layout_is_kept (self : Maze) (pick : nat → nat)
    (fuel fuel' : nat) (st0 : State) :
  1 ≤ num_rows self → 1 ≤ num_cols self →
  (2 * Z.to_nat (num_rows self * num_cols self) ≤ fuel)%nat →
  (Z.to_nat (num_rows self * num_cols self) ≤ fuel')%nat →
  ∃ st1 b st2,
    __post_init__ self pick fuel st0 = Ok (tt, st1) ∧
    solve self fuel' st1 = Ok (b, st2) ∧
    ∀ i j, in_bounds self (i, j) →
      box_at (cells st1) (i, j) =
        Some (x1 self + j * cell_size_x self, y1 self + i * cell_size_y self,
              x1 self + (j + 1) * cell_size_x self,
              y1 self + (i + 1) * cell_size_y self) ∧
      box_at (cells st2) (i, j) = box_at (cells st1) (i, j).
Proof.
  intros Hr Hc Hfuel Hfuel'.
  destruct (program_runs self pick fuel fuel' st0 Hr Hc Hfuel Hfuel')
    as (st_a & st_b & st_c & st_d & n_b & n_c & n_d & b & st_e & n_e
        & Hcon & Hsolve & Hext).
  exists st_d, b, st_e.
  split; [by eapply construction_run|]. split; [done|].
  intros i j Hin. split.
  - rewrite (construction_same_boxes _ _ _ _ _ _ _ _ _ _ _ Hcon _ Hin).
    by apply box_at_build_cells.
  - destruct Hext as (_ & -> & Hl).
    apply (linked_ends (solve_step self) (same_boxes self)); eauto.
    + apply same_boxes_refl.
    + apply same_boxes_trans.
    + intros g g' Hstep. by apply gen_step_same_boxes, solve_step_gen_step.
Qed.

(** X3.  What the constructor delivers: a table of [num_rows] rows of
    [num_cols] cells in which no cell is marked, the top wall of the first
    cell and the bottom wall of the last cell are open, the two flags of
    every interior wall agree, every cell is reachable from (0,0), and
    exactly [num_rows * num_cols - 1] interior walls are broken. *)
Theorem constructor_delivers_perfect_maze (self : Maze) (pick : nat → nat)
    (fuel : nat) (st0 : State) :
  1 ≤ num_rows self → 1 ≤ num_cols self →
  (2 * Z.to_nat (num_rows self * num_cols self) ≤ fuel)%nat →
  ∃ st,
    __post_init__ self pick fuel st0 = Ok (tt, st) ∧
    well_formed self (cells st) ∧
    all_unvisited self (cells st) ∧
    openings self (cells st) ∧
    mirrored self (cells st) ∧
    (∀ p, in_bounds self p → reachable self (cells st) (0, 0) p) ∧
    Z.of_nat (broken_pairs self (cells st)) = num_rows self * num_cols self - 1.
Proof.
  intros Hr Hc Hfuel.
  destruct (construction_exists self pick Hr Hc fuel st0)
    as (st_a & st_b & st_c & st_d & n_b & n_c & n_d & Hcon).
  { by rewrite length_all_cells_Z. }
  exists st_d.
  split; [by eapply construction_run|].
  split; [by eapply construction_well_formed|].
  split; [by eapply construction_all_unvisited|].
  split; [by eapply construction_openings|].
  split.
  { apply (construction_invariant _ _ _ _ _ _ _ _ _ _ _ Hcon (mirrored self)).
    - apply build_cells_mirrored.
    - apply init_step_mirrored. }
  split; [intros p Hp; by eapply construction_reachable_final|].
  rewrite (construction_broken_pairs_final _ _ _ _ _ _ _ _ _ _ _ Hcon).
  pose proof (construction_broken_pairs _ _ _ _ _ _ _ _ _ _ _ Hcon) as Hcount.
  rewrite length_all_cells_Z in Hcount by done. lia.
Qed.

(** X9.  [_reset_cells_visited] makes the maze solvable again: after the
    constructor [solve()] returns [True], and after a call of
    [_reset_cells_visited] a second [solve()] returns [True] as well. *)
Theorem solve_again_after_reset (self : Maze) (pick : nat → nat)
    (fuel fuel' : nat) (st0 : State) :
  1 ≤ num_rows self → 1 ≤ num_cols self →
  (2 * Z.to_nat (num_rows self * num_cols self) ≤ fuel)%nat →
  (Z.to_nat (num_rows self * num_cols self) ≤ fuel')%nat →
  ∃ st1 st2 st3 st4,
    __post_init__ self pick fuel st0 = Ok (tt, st1) ∧
    solve self fuel' st1 = Ok (true, st2) ∧
    _reset_cells_visited self st2 = Ok (tt, st3) ∧
    solve self fuel' st3 = Ok (true, st4).
Proof.
  intros Hr Hc Hfuel Hfuel'.
  destruct (program_runs self pick fuel fuel' st0 Hr Hc Hfuel Hfuel')
    as (st_a & st_b & st_c & st_d & n_b & n_c & n_d & b & st_e & n_e
        & Hcon & Hsolve & Hext).
  pose proof (in_bounds_origin self Hr Hc) as H0.
  pose proof (construction_well_formed _ _ _ _ _ _ _ _ _ _ _ Hcon) as Hwf_d.
  destruct (solve_r_finds_target self fuel' st_d) as [st_e' Hsolve'];
    [done|done|by eapply construction_all_unvisited| |by rewrite length_all_cells_Z|].
  { eapply construction_reachable_final; [done|]. by apply in_bounds_corner. }
  unfold solve in Hsolve. rewrite Hsolve' in Hsolve. injection Hsolve as <- <-.
  pose proof (extends_by_well_formed self _ _ _ (extends_by_solve_gen self _ _ _ Hext) Hwf_d)
    as Hwf_e.
  destruct (_reset_cells_visited_Ok self st_e' Hwf_e) as (st3 & n3 & Hreset & Hext3 & _ & Hc3).
  pose proof (extends_by_init_well_formed self _ _ _ Hext3 Hwf_e) as Hwf3.
  pose proof (extends_by_same_walls self _ _ _ Hext) as Hsame.
  destruct (solve_r_finds_target self fuel' st3) as [st4 Hsolve4];
    [done|done| | |by rewrite length_all_cells_Z|].
  - intros q Hq. unfold visitedb. rewrite (Hc3 q Hq).
    by destruct (cell_at (cells st_e') q.1 q.2).
  - eapply rtc_subrel;
      [|eapply (construction_reachable_final _ _ _ _ _ _ _ _ _ _ _ Hcon);
        by apply in_bounds_corner].
    intros a b' (Ha & Hb & d & -> & Hw1 & Hw2). split; [done|]. split; [done|].
    exists d. split; [done|].
    assert (∀ q d', in_bounds self q →
              wallb (cells st3) q d' = wallb (cells st_d) q d') as Hwalls.
    { intros q d' Hq. rewrite <- (Hsame q d' Hq). unfold wallb.
      rewrite (Hc3 q Hq). destruct (cell_at (cells st_e') q.1 q.2); simpl; [|done].
      apply has_wall_set_visited. }
    by rewrite !Hwalls.
  - exists st_d, st_e', st3, st4.
    split; [by eapply construction_run|]. done.
Qed.

(** ** Tables on which every cell is marked *)

Lemma modify_cell_same (g : grid) (i j : Z) (f : Cell → Cell) (c : Cell) :
  0 ≤ i → 0 ≤ j →
  cell_at g i j = Some c → f c = c → modify_cell g i j f = Some g.
Proof.
  intros Hi Hj Hc Hf. rewrite modify_cell_nonneg by lia.
  rewrite cell_at_nonneg in Hc by lia.
  destruct (g !! Z.to_nat i) as [row|] eqn:Hrow; simpl in *; [|done].
  rewrite Hc. simpl. rewrite Hf.
  by rewrite (list_insert_id row), (list_insert_id g).
Qed.

Lemma set_visited_true_marked (c : Cell) : visited c = true → set_visited true c = c.
Proof. destruct c. simpl. by intros ->. Qed.

Lemma _draw_cell_Ok (i j : Z) (st : State) (c : Cell) :
  cell_at (cells st) i j = Some c →
  _draw_cell i j st =
    Ok (tt, mkState (cells st) (draws st) (cell_drawing c (cells st) ++ log st)).
Proof.
  intros Hc. unfold _draw_cell.
  assert (read_cell i j st = Ok (c, st)) as Hread.
  { unfold read_cell. by rewrite Hc. }
  by rewrite (bind_Ok _ _ _ _ _ Hread).
Qed.

Section Marked.

Variable self : Maze.
Variables (i j : Z) (st : State).
Hypothesis Hwf : well_formed self (cells st).
Hypothesis Hin : in_bounds self (i, j).
Hypothesis Hall : all_visited self (cells st).

Lemma mark_visited_marked :
  mark_visited i j st =
    Ok (tt, mkState (cells st) (draws st)
              (mkEntry (SetVisited i j) (cells st) :: log st)).
Proof.
  destruct (cell_at_in_bounds self _ i j Hwf Hin) as [c Hc].
  unfold mark_visited. apply update_Ok.
  destruct Hin as [? ?]; simpl in *.
  apply (modify_cell_same _ _ _ _ c); [lia|lia|done|].
  apply set_visited_true_marked.
  specialize (Hall (i, j) Hin). unfold visitedb in Hall. simpl in Hall.
  by rewrite Hc in Hall.
Qed.

Lemma solve_for_marked (rec : Z → Z → M bool) (this_cell : Cell)
    (ns : list (Z * Z * bool)) (st1 : State) :
  cells st1 = cells st →
  solve_for self rec this_cell ns st1 = Ok (false, st1).
Proof.
  intros Hcells. induction ns as [|[[ti tj] w] ns IH]; [done|].
  cbn [solve_for].
  destruct (Z.ltb_spec ti 0); cbn [orb]; [done|].
  destruct (Z.ltb_spec tj 0); cbn [orb]; [done|].
  rewrite !Z.geb_leb.
  destruct (Z.leb_spec (num_rows self) ti); cbn [orb]; [done|].
  destruct (Z.leb_spec (num_cols self) tj); cbn [orb]; [done|].
  assert (in_bounds self (ti, tj)) as Hq by (split; simpl; lia).
  destruct (read_cell_Ok self ti tj st1) as (c & Hc & Hread); [by rewrite Hcells|done|].
  rewrite (bind_Ok _ _ _ _ _ Hread).
  specialize (Hall _ Hq). unfold visitedb in Hall. simpl in Hall.
  rewrite <- Hcells, Hc in Hall. by rewrite Hall.
Qed.

End Marked.

(** X7.  On a table where every cell is marked, [solve_r(i, j)] refreshes
    the window, assigns [visited] once more and returns without drawing a
    line or calling itself: [True] when [(i, j)] is the goal cell, [False]
    otherwise; the table is unchanged. *)
Theorem marked_table_blocks_solver (self : Maze) (fuel : nat) (i j : Z) (st : State) :
  well_formed self (cells st) → in_bounds self (i, j) →
  all_visited self (cells st) → (1 ≤ fuel)%nat →
  solve_r self fuel i j st =
    Ok (bool_decide ((i, j) = target self),
        mkState (cells st) (draws st)
          (mkEntry (SetVisited i j) (cells st) :: mkEntry Redraw (cells st) :: log st)).
Proof.
  intros Hwf Hin Hall Hfuel. destruct fuel as [|fuel]; [lia|].
  cbn [solve_r]. unfold _animate.
  rewrite (bind_Ok (emit Redraw) _ st _ tt eq_refl).
  set (st_a := mkState (cells st) (draws st) (mkEntry Redraw (cells st) :: log st)).
  rewrite (bind_Ok _ _ _ _ _ (mark_visited_marked self i j st_a Hwf Hin Hall)).
  set (st_m := mkState _ _ _).
  destruct (read_cell_Ok self i j st_m Hwf Hin) as (this_cell & _ & Hread).
  rewrite (bind_Ok _ _ _ _ _ Hread).
  destruct ((i =? num_rows self - 1) && (j =? num_cols self - 1)) eqn:Htest.
  - apply target_test in Htest. by rewrite bool_decide_eq_true_2.
  - rewrite bool_decide_eq_false_2.
    + by apply (solve_for_marked self st Hwf Hall).
    + intros Heq. apply target_test in Heq. congruence.
Qed.

Lemma marked_table_blocks_solver_witness :
  well_formed (one_by_two 5 5 10 10 None)
    (cells (row_of_two (set_visited true cell_a) (set_visited true cell_b) 0 [])) ∧
  in_bounds (one_by_two 5 5 10 10 None) (0, 0) ∧
  all_visited (one_by_two 5 5 10 10 None)
    (cells (row_of_two (set_visited true cell_a) (set_visited true cell_b) 0 [])) ∧
  (1 ≤ 1)%nat ∧
  solve_r (one_by_two 5 5 10 10 None) 1 0 0
    (row_of_two (set_visited true cell_a) (set_visited true cell_b) 0 []) =
    Ok (bool_decide ((0, 0) = target (one_by_two 5 5 10 10 None)),
        mkState
          (cells (row_of_two (set_visited true cell_a) (set_visited true cell_b) 0 []))
          (draws (row_of_two (set_visited true cell_a) (set_visited true cell_b) 0 []))
          (mkEntry (SetVisited 0 0)
             (cells (row_of_two (set_visited true cell_a) (set_visited true cell_b) 0 []))
           :: mkEntry Redraw
                (cells (row_of_two (set_visited true cell_a) (set_visited true cell_b) 0 []))
           :: log (row_of_two (set_visited true cell_a) (set_visited true cell_b) 0 []))).
Proof.
  split; [split; [reflexivity|by repeat constructor]|].
  split; [split; simpl; lia|].
  split; [intros q [-> | ->]%one_by_two_positions; reflexivity|].
  split; [lia|].
  apply (marked_table_blocks_solver (one_by_two 5 5 10 10 None) 1 0 0
           (row_of_two (set_visited true cell_a) (set_visited true cell_b) 0 [])).
  - split; [reflexivity|by repeat constructor].
  - split; simpl; lia.
  - intros q [-> | ->]%one_by_two_positions; reflexivity.
  - lia.
Defined.

(** X8.  On a table where every cell is marked, [_break_walls_r(i, j)]
    breaks no wall and calls neither [random.choice] nor itself: it assigns
    [visited], draws the four sides of the cell [(i, j)], refreshes the
    window and returns; the table is unchanged. *)
Theorem generator_idle_on_marked_table (self : Maze) (pick : nat → nat)
    (fuel : nat) (i j : Z) (st : State) :
  well_formed self (cells st) → in_bounds self (i, j) →
  all_visited self (cells st) → (1 ≤ fuel)%nat →
  ∃ c,
    cell_at (cells st) i j = Some c ∧
    _break_walls_r self pick fuel i j st =
      Ok (tt, mkState (cells st) (draws st)
                (cell_drawing c (cells st)
                 ++ mkEntry (SetVisited i j) (cells st) :: log st)).
Proof.
  intros Hwf Hin Hall Hfuel. destruct fuel as [|fuel]; [lia|].
  destruct (cell_at_in_bounds self _ i j Hwf Hin) as [c Hc].
  exists c. split; [done|].
  unfold _break_walls_r.
  rewrite (bind_Ok _ _ _ _ _ (mark_visited_marked self i j st Hwf Hin Hall)).
  set (st_m := mkState _ _ _).
  cbn [break_walls_loop].
  rewrite (bind_Ok _ _ _ _ _ (collect_to_visit_Ok self st_m _ [] Hwf)).
  cbn [app].
  replace (filter _ (neighbors i j)) with (@nil (Z * Z)).
  - by apply (_draw_cell_Ok i j st_m c).
  - symmetry. induction (neighbors i j) as [|q l IH]; [done|].
    rewrite filter_cons. rewrite decide_False; [done|].
    intros [Hq Hv]. simpl in Hv. by rewrite (Hall q Hq) in Hv.
Qed.

Lemma generator_idle_on_marked_table_witness :
  well_formed (one_by_two 5 5 10 10 None)
    (cells (row_of_two (set_visited true cell_a) (set_visited true cell_b) 0 [])) ∧
  in_bounds (one_by_two 5 5 10 10 None) (0, 0) ∧
  all_visited (one_by_two 5 5 10 10 None)
    (cells (row_of_two (set_visited true cell_a) (set_visited true cell_b) 0 [])) ∧
  (1 ≤ 1)%nat ∧
  ∃ c,
    cell_at (cells (row_of_two (set_visited true cell_a) (set_visited true cell_b) 0 []))
      0 0 = Some c ∧
    _break_walls_r (one_by_two 5 5 10 10 None) first_choice 1 0 0
      (row_of_two (set_visited true cell_a) (set_visited true cell_b) 0 []) =
      Ok (tt, mkState
                (cells (row_of_two (set_visited true cell_a) (set_visited true cell_b) 0 []))
                (draws (row_of_two (set_visited true cell_a) (set_visited true cell_b) 0 []))
                (cell_drawing c
                   (cells (row_of_two (set_visited true cell_a)
                             (set_visited true cell_b) 0 []))
                 ++ mkEntry (SetVisited 0 0)
                      (cells (row_of_two (set_visited true cell_a)
                                (set_visited true cell_b) 0 []))
                    :: log (row_of_two (set_visited true cell_a)
                              (set_visited true cell_b) 0 []))).
Proof.
  split; [split; [reflexivity|by repeat constructor]|].
  split; [split; simpl; lia|].
  split; [intros q [-> | ->]%one_by_two_positions; reflexivity|].
  split; [lia|].
  apply (generator_idle_on_marked_table (one_by_two 5 5 10 10 None) first_choice 1 0 0
           (row_of_two (set_visited true cell_a) (set_visited true cell_b) 0 [])).
  - split; [reflexivity|by repeat constructor].
  - split; simpl; lia.
  - intros q [-> | ->]%one_by_two_positions; reflexivity.
  - lia.
Defined.

(** ** The bookkeeping of a generation *)

Lemma events_app (l2 l1 : list Entry) : events (l2 ++ l1) = events l1 ++ events l2.
Proof. unfold events. by rewrite fmap_app, rev_app_distr. Qed.

Lemma count_events_app (P : Event → bool) (l2 l1 : list Entry) :
  count_events P (l2 ++ l1) = (count_events P l1 + count_events P l2)%nat.
Proof. unfold count_events. by rewrite events_app, filter_app, length_app. Qed.

Lemma broken_sequence_app (l2 l1 : list Entry) :
  broken_sequence (l2 ++ l1) = broken_sequence l1 ++ broken_sequence l2.
Proof. unfold broken_sequence. by rewrite rev_app_distr, omap_app. Qed.

Section Bookkeeping.

Variable self : Maze.
Variable pick : nat → nat.

Lemma break_walls_loop_log (fuel : nat) :
  ∀ i j st st',
    break_walls_loop self pick fuel i j st = Ok (tt, st') →
    well_formed self (cells st) → in_bounds self (i, j) →
    ∃ new, loop_log self st st' new.
Proof.
  induction fuel as [|fuel IH]; intros i j st st' Hrun Hwf Hin; [done|].
  cbn [break_walls_loop] in Hrun.
  rewrite (bind_Ok _ _ _ _ _ (collect_to_visit_Ok self st _ [] Hwf)) in Hrun.
  cbn [app] in Hrun.
  destruct (filter _ (neighbors i j)) as [|q0 rest] eqn:Hl.
  - destruct (cell_at_in_bounds self _ i j Hwf Hin) as [c Hc].
    rewrite (_draw_cell_Ok i j st c Hc) in Hrun. injection Hrun as <-.
    exists (cell_drawing c (cells st)). split; simpl; try done.
    all: try (intros ? H; by apply elem_of_nil in H).
    all: try (intros ? ? H; by apply elem_of_nil in H).
    + apply visited_grows_refl.
    + apply NoDup_nil_2.
    + intros q _ Hv. by left.
  - destruct (random_choice_Ok pick (q0 :: rest) st) as (q & Hq & Hr); [done|].
    rewrite (bind_Ok _ _ _ _ _ Hr) in Hrun. rewrite <- Hl in Hq.
    apply to_visit_elem in Hq as (d & -> & Hn & Hv).
    destruct (carve_in_bounds self (cells st) (i, j) d Hwf Hin Hn) as [g1 Hg1].
    set (st1 := mkState (cells st) (S (draws st)) (log st)) in *.
    assert (break_walls_between i j (step (i, j) d).1 (step (i, j) d).2 (cells st1)
            = Some g1) as Hb by (by rewrite break_walls_between_carve).
    rewrite (bind_Ok _ _ _ _ _ (update_Ok _ _ st1 g1 Hb)) in Hrun.
    set (st2 := mkState g1 (draws st1) _) in *.
    assert (well_formed self g1) as Hwf1.
    { eapply (carve_well_formed (cells st) g1 (i, j) d); eauto. }
    destruct (mark_visited_Ok self (step (i, j) d).1 (step (i, j) d).2 st2)
      as (g2 & Hg2 & Hm); [done|by destruct (step (i, j) d)|].
    set (st3 := mkState g2 (draws st2) _) in *.
    assert (well_formed self g2) as Hwf2.
    { destruct Hn as [? ?].
      apply (modify_cell_well_formed self g1 g2 _ _ _) in Hg2; (done || lia). }
    pose proof (carve_mark_visitedb self (cells st) g1 g2 (i, j) d Hin Hn Hg1 Hg2) as Hvis.
    destruct (break_walls_loop self pick fuel (step (i, j) d).1 (step (i, j) d).2 st3)
      as [[[] st4]| |] eqn:E1.
    2,3: unfold bind in Hrun; rewrite Hm in Hrun; cbv beta iota in Hrun;
         rewrite E1 in Hrun; discriminate.
    rewrite (bind_Ok _ (fun _ => break_walls_loop self pick fuel i j) st2 st4 tt) in Hrun.
    2:{ by rewrite (bind_Ok _ _ _ _ _ Hm). }
    destruct (IH _ _ _ _ E1 Hwf2) as [n4 L4]; [by destruct (step (i, j) d)|].
    destruct (IH _ _ _ _ Hrun (ll_wf _ _ _ _ L4) Hin) as [n5 L5].
    destruct L4 as [Hlog4 Hwf4 Hgr4 Hnd4 Hent4 Hall4 Hpar4 Hpairs4 Hred4 Hlin4 Hdr4].
    destruct L5 as [Hlog5 Hwf5 Hgr5 Hnd5 Hent5 Hall5 Hpar5 Hpairs5 Hred5 Hlin5 Hdr5].
    simpl in Hlog4, Hgr4, Hent4, Hall4, Hdr4.
    set (e_break := mkEntry (BreakWalls i j (step (i, j) d).1 (step (i, j) d).2) g1) in *.
    set (e_mark := mkEntry (SetVisited (step (i, j) d).1 (step (i, j) d).2) g2) in *.
    assert (entered [e_mark; e_break] = [step (i, j) d]) as Hent0.
    { unfold entered. simpl. by destruct (step (i, j) d). }
    assert (broken_sequence [e_mark; e_break] = [((i, j), step (i, j) d)]) as Hbr0.
    { unfold broken_sequence. simpl. by destruct (step (i, j) d). }
    assert (visited_grows self (cells st) g2) as Hgr2.
    { intros q Hq Hvq. rewrite Hvis by done. by case_decide. }
    exists (n5 ++ n4 ++ [e_mark; e_break]). split.
    + rewrite Hlog5, Hlog4. by rewrite <- !app_assoc.
    + done.
    + eauto using visited_grows_trans.
    + rewrite !entered_app, Hent0. simpl. apply NoDup_cons. split.
      * intros Hel. apply elem_of_app in Hel as [Hel|Hel].
        -- destruct (Hent4 _ Hel) as (_ & Hu & _).
           rewrite Hvis in Hu by done. by rewrite decide_True in Hu.
        -- destruct (Hent5 _ Hel) as (_ & Hu & _).
           rewrite (Hgr4 _ Hn) in Hu; [done|].
           rewrite Hvis by done. by rewrite decide_True.
      * apply NoDup_app. split; [done|]. split; [|done].
        intros q Hq4 Hq5. destruct (Hent4 _ Hq4) as (_ & _ & Hv4).
        destruct (Hent5 _ Hq5) as (_ & Hu5 & _). congruence.
    + intros q. rewrite !entered_app, Hent0. simpl.
      intros [->|Hel]%elem_of_cons.
      * split; [done|]. split; [done|].
        apply Hgr5; [done|]. apply Hgr4; [done|].
        rewrite Hvis by done. by rewrite decide_True.
      * apply elem_of_app in Hel as [Hel|Hel].
        -- destruct (Hent4 _ Hel) as (Hq & Hu & Hv4). split; [done|].
           split; [|by apply Hgr5].
           rewrite Hvis in Hu by done. by case_decide.
        -- destruct (Hent5 _ Hel) as (Hq & Hu & Hv5). split; [done|]. split; [|done].
           destruct (visitedb (cells st) q) eqn:Hvq; [|done].
           rewrite (Hgr4 q Hq (Hgr2 q Hq Hvq)) in Hu. done.
    + intros q Hq Hvq. rewrite !entered_app, Hent0. simpl.
      destruct (Hall5 q Hq Hvq) as [Hv4|Hel]; [|right; right; apply elem_of_app; by right].
      destruct (Hall4 q Hq Hv4) as [Hv2|Hel]; [|right; right; apply elem_of_app; by left].
      rewrite Hvis in Hv2 by done.
      case_decide as Heq; [right; subst; by left|by left].
    + rewrite !entered_app, !broken_sequence_app, Hent0, Hbr0, Hpar4, Hpar5.
      by rewrite !fmap_app.
    + intros a b. rewrite !broken_sequence_app, Hbr0. simpl.
      intros [[= -> ->]|Hel]%elem_of_cons; [by eauto|].
      apply elem_of_app in Hel as [Hel|Hel]; eauto.
    + rewrite !count_events_app, !entered_app, Hent0, Hred4, Hred5.
      change (count_events is_redraw [e_mark; e_break]) with 0%nat.
      simpl. rewrite length_app. lia.
    + rewrite !count_events_app, Hlin4, Hlin5.
      change (count_events is_line [e_mark; e_break]) with 0%nat.
      change (count_events is_redraw [e_mark; e_break]) with 0%nat. lia.
    + rewrite Hdr5, Hdr4, !entered_app, Hent0. simpl. rewrite length_app. lia.
Qed.

End Bookkeeping.

(** X4.  The bookkeeping of the generation.  [_break_walls_r(0, 0)], run on
    the table left by [_break_entrance_and_exit], marks every cell of the
    table exactly once; after (0,0), the cells are marked in the order in
    which the walls towards them are broken, each of them between two
    neighbouring cells of the table; the window is refreshed once per cell,
    four lines are drawn per refresh, and [random.choice] is called
    [num_rows * num_cols - 1] times. *)
Theorem generation_bookkeeping (self : Maze) (pick : nat → nat)
    (fuel : nat) (st0 : State) :
  1 ≤ num_rows self → 1 ≤ num_cols self →
  (2 * Z.to_nat (num_rows self * num_cols self) ≤ fuel)%nat →
  ∃ st1 st2 new,
    (_init_cells self ;; _break_entrance_and_exit self) st0 = Ok (tt, st1) ∧
    _break_walls_r self pick fuel 0 0 st1 = Ok (tt, st2) ∧
    log st2 = new ++ log st1 ∧
    entered new ≡ₚ all_cells self ∧
    entered new = (0, 0) :: (snd <$> broken_sequence new) ∧
    (∀ a b, (a, b) ∈ broken_sequence new →
       in_bounds self a ∧ in_bounds self b ∧ ∃ d, b = step a d) ∧
    Z.of_nat (count_events is_redraw new) = num_rows self * num_cols self ∧
    Z.of_nat (count_events is_line new) = 4 * (num_rows self * num_cols self) ∧
    Z.of_nat (draws st2) = Z.of_nat (draws st1) + num_rows self * num_cols self - 1.
Proof.
  intros Hr Hc Hfuel.
  pose proof (in_bounds_origin self Hr Hc) as H0.
  set (st_a := mkState (build_cells self) (draws st0)
                 (mkEntry CreateCells (build_cells self) :: log st0)).
  destruct (_break_entrance_and_exit_Ok self Hr Hc st_a) as (ga & gb & Hga & Hgb & Hopen).
  { apply build_cells_well_formed. }
  set (st_b := mkState gb _ _) in Hopen.
  destruct (build_cells_opened self Hr Hc ga gb Hga Hgb) as (Hwf_b & Hnone & _ & Hintact).
  destruct (_break_walls_r_Ok self pick Hr Hc fuel st_b Hwf_b Hnone Hintact)
    as (st_c & n_c & Hcarve & _ & _ & Hallv).
  { by rewrite length_all_cells_Z. }
  destruct (mark_visited_Ok self 0 0 st_b Hwf_b H0) as (g1 & Hg1 & Hm).
  set (st_m := mkState g1 _ _) in Hm.
  assert (well_formed self g1) as Hwf1.
  { apply (modify_cell_well_formed self _ g1 _ _ _) in Hg1; (done || lia). }
  assert (∀ q, in_bounds self q →
            visitedb g1 q = if decide (q = (0, 0)) then true else false) as Hvis.
  { intros q Hq.
    rewrite (visitedb_modify_visited gb g1 (0, 0) (in_bounds_nonneg _ _ H0) true
               q (in_bounds_nonneg _ _ Hq) Hg1).
    case_decide; [done|]. by apply Hnone. }
  pose proof Hcarve as Hloop. unfold _break_walls_r in Hloop.
  rewrite (bind_Ok _ _ _ _ _ Hm) in Hloop.
  destruct (break_walls_loop_log self pick fuel 0 0 st_m st_c Hloop Hwf1 H0)
    as [n [Hlog _ _ Hnd Hent Hall Hpar Hpairs Hred Hlin Hdr]].
  simpl in Hlog, Hent, Hall, Hdr.
  assert (entered (n ++ [mkEntry (SetVisited 0 0) g1]) = (0, 0) :: entered n) as Hall_ent.
  { by rewrite entered_app. }
  assert (entered (n ++ [mkEntry (SetVisited 0 0) g1]) ≡ₚ all_cells self) as Hperm.
  { rewrite Hall_ent. apply NoDup_Permutation.
    - apply NoDup_cons. split; [|done].
      intros Hel. destruct (Hent _ Hel) as (_ & Hu & _).
      rewrite Hvis in Hu by done. by rewrite decide_True in Hu.
    - apply NoDup_all_cells.
    - intros q. rewrite elem_of_all_cells. split.
      + intros [->|Hel]%elem_of_cons; [done|]. by destruct (Hent _ Hel).
      + intros Hq. destruct (Hall q Hq (Hallv q Hq)) as [Hv|Hel]; [|by right].
        rewrite Hvis in Hv by done. case_decide; [subst; by left|done]. }
  pose proof (Permutation_length Hperm) as Hlen.
  rewrite Hall_ent, length_all_cells_Z in Hlen by done. simpl in Hlen.
  exists st_b, st_c, (n ++ [mkEntry (SetVisited 0 0) g1]).
  split.
  { assert (_init_cells self st0 = Ok (tt, st_a)) as Hinit by reflexivity.
    by rewrite (bind_Ok _ _ _ _ _ Hinit). }
  split; [done|]. split; [by rewrite Hlog, <- app_assoc|]. split; [done|].
  split. { rewrite Hall_ent, broken_sequence_app, Hpar. done. }
  split. { intros a b. rewrite broken_sequence_app. simpl. apply Hpairs. }
  assert (count_events is_redraw (n ++ [mkEntry (SetVisited 0 0) g1])
          = S (length (entered n))) as Hredraws.
  { by rewrite count_events_app, Hred. }
  split; [lia|]. split.
  - rewrite count_events_app, Hlin, Hred.
    change (count_events is_line [mkEntry (SetVisited 0 0) g1]) with 0%nat. lia.
  - rewrite Hdr. simpl. lia.
Qed.

Lemma generation_bookkeeping_witness :
  1 ≤ num_rows (two_by_two 5 5 10 10 None) ∧
  1 ≤ num_cols (two_by_two 5 5 10 10 None) ∧
  (2 * Z.to_nat (num_rows (two_by_two 5 5 10 10 None)
                 * num_cols (two_by_two 5 5 10 10 None)) ≤ 8)%nat ∧
  ∃ st1 st2 new,
    (_init_cells (two_by_two 5 5 10 10 None) ;;
     _break_entrance_and_exit (two_by_two 5 5 10 10 None)) fresh = Ok (tt, st1) ∧
    _break_walls_r (two_by_two 5 5 10 10 None) first_choice 8 0 0 st1 = Ok (tt, st2) ∧
    log st2 = new ++ log st1 ∧
    entered new ≡ₚ all_cells (two_by_two 5 5 10 10 None) ∧
    entered new = (0, 0) :: (snd <$> broken_sequence new) ∧
    (∀ a b, (a, b) ∈ broken_sequence new →
       in_bounds (two_by_two 5 5 10 10 None) a ∧
       in_bounds (two_by_two 5 5 10 10 None) b ∧ ∃ d, b = step a d) ∧
    Z.of_nat (count_events is_redraw new) =
      num_rows (two_by_two 5 5 10 10 None) * num_cols (two_by_two 5 5 10 10 None) ∧
    Z.of_nat (count_events is_line new) =
      4 * (num_rows (two_by_two 5 5 10 10 None) * num_cols (two_by_two 5 5 10 10 None)) ∧
    Z.of_nat (draws st2) =
      Z.of_nat (draws st1)
      + num_rows (two_by_two 5 5 10 10 None) * num_cols (two_by_two 5 5 10 10 None) - 1.
Proof.
  split; [simpl; lia|]. split; [simpl; lia|]. split; [simpl; lia|].
  apply (generation_bookkeeping (two_by_two 5 5 10 10 None) first_choice 8 fresh);
    simpl; lia.
Defined.

(** ** What the solver leaves on the canvas *)

Lemma Cell_draw_move_Ok (c to_cell : Cell) (undo : bool) (st : State) :
  Cell_draw_move c to_cell undo st =
    Ok (tt, mkState (cells st) (draws st)
              (mkEntry (CreateLine (segment c to_cell)
                          (if undo then "gray" else "red")%string) (cells st)
               :: log st)).
Proof. reflexivity. Qed.

Lemma red_path_app (evs1 evs2 : list Event) (stack : list Line) :
  red_path (evs1 ++ evs2) stack = red_path evs1 stack ≫= red_path evs2.
Proof.
  revert stack. induction evs1 as [|e evs1 IH]; intros stack; [done|].
  destruct e; simpl; try apply IH.
  destruct (String.eqb fill_color "red"); [apply IH|].
  destruct (String.eqb fill_color "gray"); [|apply IH].
  destruct stack as [|top rest]; [done|]. case_decide; [apply IH|done].
Qed.

Section Marks.

Variable self : Maze.

Lemma same_but_marks_refl (g : grid) : same_but_marks self g g.
Proof. by intros q. Qed.

Lemma same_but_marks_trans (g1 g2 g3 : grid) :
  same_but_marks self g1 g2 → same_but_marks self g2 g3 → same_but_marks self g1 g3.
Proof. intros H1 H2 q Hq. rewrite (H2 q Hq). by apply H1. Qed.

Lemma same_but_marks_sym (g g' : grid) :
  same_but_marks self g g' → same_but_marks self g' g.
Proof. intros H q Hq. symmetry. by apply H. Qed.

Lemma same_but_marks_mark (g g' : grid) (p : Z * Z) (v : bool) :
  in_bounds self p →
  modify_cell g p.1 p.2 (set_visited v) = Some g' → same_but_marks self g g'.
Proof.
  intros Hp Hm q Hq.
  rewrite (cell_at_modify_pair g g' p q _ (in_bounds_nonneg _ _ Hp)
             (in_bounds_nonneg _ _ Hq) Hm).
  case_decide as Heq; [|done]. subst q.
  by destruct (cell_at g p.1 p.2).
Qed.

Lemma same_but_marks_wallb (g g' : grid) (q : Z * Z) (d : Side) :
  same_but_marks self g g' → in_bounds self q → wallb g' q d = wallb g q d.
Proof.
  intros H Hq. specialize (H q Hq). unfold wallb.
  destruct (cell_at g' q.1 q.2) as [c'|], (cell_at g q.1 q.2) as [c|];
    simpl in H; try done.
  apply (inj Some) in H.
  rewrite <- (has_wall_set_visited d false c'), H. apply has_wall_set_visited.
Qed.

Lemma same_but_marks_cell (g g' : grid) (q : Z * Z) (c : Cell) :
  same_but_marks self g g' → in_bounds self q →
  cell_at g q.1 q.2 = Some c →
  ∃ c', cell_at g' q.1 q.2 = Some c' ∧ set_visited false c' = set_visited false c.
Proof.
  intros H Hq Hc. specialize (H q Hq). rewrite Hc in H.
  destruct (cell_at g' q.1 q.2) as [c'|]; simpl in H; [|done].
  apply (inj Some) in H. eauto.
Qed.

Lemma segment_marks (a a' b b' : Cell) :
  set_visited false a' = set_visited false a →
  set_visited false b' = set_visited false b →
  segment a' b' = segment a b.
Proof.
  intros Ha Hb.
  change (segment a' b') with (segment (set_visited false a') (set_visited false b')).
  by rewrite Ha, Hb.
Qed.

Lemma door_marks (g g' : grid) (a b : Z * Z) :
  same_but_marks self g g' → door self g a b → door self g' a b.
Proof.
  intros H (Ha & Hb & d & -> & Hw). split; [done|]. split; [done|].
  exists d. split; [done|]. by rewrite (same_but_marks_wallb g g').
Qed.

Lemma walk_marks (g g' : grid) (p q : Z * Z) (lines : list Line) :
  same_but_marks self g g' → walk self g p q lines → walk self g' p q lines.
Proof.
  intros H. induction 1 as [p Hp|p d q a b lines Hp Hn Hw Ha Hb Hwalk IH].
  - by apply walk_here.
  - destruct (same_but_marks_cell g g' p a H Hp Ha) as (a' & Ha' & Haa).
    destruct (same_but_marks_cell g g' (step p d) b H Hn Hb) as (b' & Hb' & Hbb).
    rewrite <- (segment_marks a a' b b' Haa Hbb).
    apply (walk_move self g' p d q a' b'); try done.
    by rewrite (same_but_marks_wallb g g').
Qed.

Lemma walk_door (g : grid) (p q : Z * Z) (lines : list Line) :
  walk self g p q lines → rtc (door self g) p q.
Proof.
  induction 1 as [p Hp|p d q a b lines Hp Hn Hw Ha Hb Hwalk IH]; [done|].
  eapply rtc_l; [|exact IH]. split; [done|]. split; [done|]. by exists d.
Qed.

End Marks.

Section SearchLog.

Variable self : Maze.

Lemma search_log_start (p : Z * Z) (st : State) (g1 : grid) :
  in_bounds self p →
  modify_cell (cells st) p.1 p.2 (set_visited true) = Some g1 →
  p = target self →
  search_log self p st true
    (mkState g1 (draws st)
       (mkEntry (SetVisited p.1 p.2) g1 :: mkEntry Redraw (cells st) :: log st))
    [mkEntry (SetVisited p.1 p.2) g1; mkEntry Redraw (cells st)].
Proof.
  intros Hp Hg1 Htg. split; simpl.
  - done.
  - by apply (same_but_marks_mark self _ _ p true).
  - intros q Hq. unfold entered in Hq. simpl in Hq.
    apply list_elem_of_singleton in Hq. subst q. by destruct p.
  - exists []. split; [|done]. rewrite <- Htg. by apply walk_here.
  - intros q Hq Hv.
    rewrite (visitedb_modify_visited (cells st) g1 p (in_bounds_nonneg _ _ Hp) true
               q (in_bounds_nonneg _ _ Hq) Hg1) in Hv.
    destruct (decide (q = p)) as [->|Hne]; [right|by left].
    unfold entered. simpl. apply list_elem_of_singleton. by destruct p.
  - intros _. rewrite <- Htg. unfold entered. simpl.
    apply list_elem_of_singleton. by destruct p.
Qed.

(** The entries of a call that did not stop at once: the mark and the
    refresh, then what the loop added. *)
Lemma search_log_enter (p : Z * Z) (st : State) (g1 : grid) (b : bool)
    (st' : State) (n : list Entry) :
  in_bounds self p →
  modify_cell (cells st) p.1 p.2 (set_visited true) = Some g1 →
  search_log self p
    (mkState g1 (draws st)
       (mkEntry (SetVisited p.1 p.2) g1 :: mkEntry Redraw (cells st) :: log st))
    b st' n →
  search_log self p st b st'
    (n ++ [mkEntry (SetVisited p.1 p.2) g1; mkEntry Redraw (cells st)]).
Proof.
  intros Hp Hg1 [Hlog Hmarks Hreach (lines & Hwalk & Hred) Hmarked Hfound].
  simpl in *.
  pose proof (same_but_marks_mark self _ _ p true Hp Hg1) as Hm.
  split; simpl.
  - by rewrite Hlog, <- app_assoc.
  - by apply (same_but_marks_trans self _ g1).
  - intros q Hq. rewrite entered_app in Hq. apply elem_of_app in Hq as [Hq|Hq].
    + unfold entered in Hq. simpl in Hq.
      apply list_elem_of_singleton in Hq. subst q. by destruct p.
    + eapply rtc_subrel; [|by apply Hreach].
      intros a c. apply door_marks. by apply same_but_marks_sym.
  - exists lines. split.
    + destruct b; [|done].
      apply (walk_marks self g1); [|done]. by apply same_but_marks_sym.
    + intros stack. rewrite events_app. apply Hred.
  - intros q Hq Hv. rewrite entered_app.
    destruct (Hmarked q Hq Hv) as [Hv1|Hin]; [|right; apply elem_of_app; by right].
    rewrite (visitedb_modify_visited (cells st) g1 p (in_bounds_nonneg _ _ Hp) true
               q (in_bounds_nonneg _ _ Hq) Hg1) in Hv1.
    destruct (decide (q = p)) as [->|Hne]; [right|by left].
    apply elem_of_app. left. unfold entered. simpl.
    apply list_elem_of_singleton. by destruct p.
  - intros Hb. rewrite entered_app. apply elem_of_app. right. by apply Hfound.
Qed.

Lemma solve_for_log (rec : Z → Z → M bool) (p : Z * Z) (this_cell : Cell)
    (ns : list (Z * Z * bool)) :
  (∀ ti tj st b st', rec ti tj st = Ok (b, st') → in_bounds self (ti, tj) →
     ∃ new, search_log self (ti, tj) st b st' new) →
  in_bounds self p →
  ∀ st b st',
    solve_for self rec this_cell ns st = Ok (b, st') →
    (∃ c, cell_at (cells st) p.1 p.2 = Some c ∧
          set_visited false c = set_visited false this_cell) →
    (∀ ti tj w, (ti, tj, w) ∈ ns →
       ∃ d, (ti, tj) = step p d ∧ w = wallb (cells st) p d) →
    ∃ new, search_log self p st b st' new.
Proof.
  intros Hrec Hp.
  induction ns as [|[[ti tj] w] ns IH]; intros st b st' Hrun Hthis Hns.
  { injection Hrun as <- <-. exists []. split; simpl.
    - done.
    - apply same_but_marks_refl.
    - intros q Hq. by apply elem_of_nil in Hq.
    - by exists [].
    - intros q _ Hv. by left.
    - done. }
  assert (∀ ti' tj' w', (ti', tj', w') ∈ ns →
            ∃ d, (ti', tj') = step p d ∧ w' = wallb (cells st) p d) as Hns'.
  { intros ti' tj' w' Hin. apply Hns. by right. }
  destruct (Hns ti tj w) as (d & Hd & Hw); [left|].
  cbn [solve_for] in Hrun.
  destruct ((ti <? 0) || (tj <? 0)) eqn:Hlow; [by apply IH|].
  destruct ((ti >=? num_rows self) || (tj >=? num_cols self)) eqn:Hhigh; [by apply IH|].
  assert (in_bounds self (ti, tj)) as Hin.
  { apply orb_false_iff in Hlow as [? ?], Hhigh as [? ?]. split; simpl; lia. }
  unfold bind in Hrun.
  unfold read_cell in Hrun at 1.
  destruct (cell_at (cells st) ti tj) as [next_cell|] eqn:Hnext; [|done].
  destruct (negb (visited next_cell)); [|by apply IH].
  destruct w; cbn [negb] in Hrun; [by apply IH|].
  rewrite Cell_draw_move_Ok in Hrun.
  set (e_red := mkEntry (CreateLine (segment this_cell next_cell) "red") (cells st))
    in Hrun.
  set (st1 := mkState (cells st) (draws st) (e_red :: log st)) in Hrun.
  destruct (rec ti tj st1) as [[found st2]| |] eqn:Hcall; [|done..].
  destruct (Hrec _ _ _ _ _ Hcall Hin)
    as [n2 [Hlog2 Hmarks2 Hreach2 (lines2 & Hwalk2 & Hred2) Hmarked2 Hfound2]].
  simpl in Hlog2, Hmarks2, Hreach2, Hwalk2, Hmarked2.
  destruct Hthis as (c & Hc & Hcc).
  assert (door self (cells st) p (ti, tj)) as Hdoor.
  { split; [done|]. split; [done|]. exists d. by split. }
  assert (segment this_cell next_cell = segment c next_cell) as Hseg.
  { by apply segment_marks. }
  destruct found; cbn [negb] in Hrun.
  - injection Hrun as <- <-.
    exists (n2 ++ [e_red]). split; simpl.
    + by rewrite Hlog2, <- app_assoc.
    + done.
    + intros q Hq. rewrite entered_app in Hq. apply elem_of_app in Hq as [Hq|Hq].
      * unfold entered in Hq. simpl in Hq. by apply elem_of_nil in Hq.
      * eapply rtc_l; [exact Hdoor|]. by apply Hreach2.
    + exists (segment this_cell next_cell :: lines2). split.
      * rewrite Hseg.
        apply (walk_move self (cells st) p d (target self) c next_cell).
        -- done.
        -- by rewrite <- Hd.
        -- done.
        -- done.
        -- by rewrite <- Hd.
        -- by rewrite <- Hd.
      * intros stack. rewrite events_app, red_path_app. simpl.
        rewrite Hred2. simpl. by rewrite <- app_assoc.
    + intros q Hq Hv. rewrite entered_app.
      destruct (Hmarked2 q Hq Hv) as [?|?]; [by left|].
      right. apply elem_of_app. by right.
    + intros _. rewrite entered_app. apply elem_of_app. right. by apply Hfound2.
  - rewrite Cell_draw_move_Ok in Hrun.
    set (e_gray := mkEntry (CreateLine (segment this_cell next_cell) "gray") (cells st2))
      in Hrun.
    set (st3 := mkState (cells st2) (draws st2) (e_gray :: log st2)) in Hrun.
    destruct (IH st3 b st' Hrun)
      as [n4 [Hlog4 Hmarks4 Hreach4 (lines4 & Hwalk4 & Hred4) Hmarked4 Hfound4]].
    { simpl. destruct (same_but_marks_cell self _ _ p c Hmarks2 Hp Hc) as (c' & Hc' & Hcc').
      exists c'. split; [done|]. by rewrite Hcc'. }
    { intros ti' tj' w' Hin'. destruct (Hns' _ _ _ Hin') as (d' & Hd' & Hw').
      exists d'. split; [done|]. simpl.
      by rewrite (same_but_marks_wallb self (cells st) (cells st2)). }
    simpl in Hlog4, Hmarks4, Hreach4, Hwalk4, Hmarked4.
    exists (n4 ++ [e_gray] ++ n2 ++ [e_red]). split; simpl.
    + rewrite Hlog4. unfold st3. cbn [log]. rewrite Hlog2. unfold st1. cbn [log].
      rewrite <- app_assoc. simpl. by rewrite <- app_assoc.
    + by apply (same_but_marks_trans self _ (cells st2)).
    + intros q Hq.
      rewrite entered_app in Hq. apply elem_of_app in Hq as [Hq|Hq].
      * change (e_gray :: n2 ++ [e_red]) with ([e_gray] ++ n2 ++ [e_red]) in Hq.
        rewrite !entered_app in Hq. unfold entered at 1 3 in Hq. simpl in Hq.
        rewrite app_nil_r in Hq.
        eapply rtc_l; [exact Hdoor|]. by apply Hreach2.
      * eapply rtc_subrel; [|by apply Hreach4].
        intros a c0. apply door_marks. by apply same_but_marks_sym.
    + exists lines4. split.
      * destruct b; [|done].
        apply (walk_marks self (cells st2)); [|done]. by apply same_but_marks_sym.
      * intros stack.
        change (e_gray :: n2 ++ [e_red]) with ([e_gray] ++ n2 ++ [e_red]).
        rewrite !events_app, <- !app_assoc, red_path_app. simpl.
        rewrite red_path_app, Hred2. subst lines2. simpl.
        destruct (decide (segment this_cell next_cell = segment this_cell next_cell));
          [|done].
        apply Hred4.
    + intros q Hq Hv. rewrite entered_app.
      destruct (Hmarked4 q Hq Hv) as [Hv2|?]; [|right; apply elem_of_app; by right].
      destruct (Hmarked2 q Hq Hv2) as [?|?]; [by left|].
      right. apply elem_of_app. left.
      change (e_gray :: n2 ++ [e_red]) with ([e_gray] ++ n2 ++ [e_red]).
      rewrite !entered_app. apply elem_of_app. left. apply elem_of_app. by right.
    + intros Hb. rewrite entered_app. apply elem_of_app. right. by apply Hfound4.
Qed.

Lemma solve_r_log (fuel : nat) :
  ∀ i j st b st',
    solve_r self fuel i j st = Ok (b, st') → in_bounds self (i, j) →
    ∃ new, search_log self (i, j) st b st' new.
Proof.
  induction fuel as [|fuel IH]; intros i j st b st' Hrun Hin; [done|].
  cbn [solve_r] in Hrun. unfold bind in Hrun.
  unfold _animate, emit in Hrun.
  unfold mark_visited, update in Hrun. cbn [cells draws log] in Hrun.
  destruct (modify_cell (cells st) i j (set_visited true)) as [g1|] eqn:Hg1; [|done].
  unfold read_cell in Hrun at 1. cbn [cells] in Hrun.
  destruct (cell_at g1 i j) as [this_cell|] eqn:Hthis; [|done].
  destruct ((i =? num_rows self - 1) && (j =? num_cols self - 1)) eqn:Htg.
  - injection Hrun as <- <-. eexists.
    apply (search_log_start (i, j) st g1); [done|done|].
    apply andb_true_iff in Htg as [? ?]. unfold target. f_equal; lia.
  - eapply (solve_for_log _ (i, j)) in Hrun; [|exact IH|done|..].
    + destruct Hrun as [n Hn]. eexists.
      by apply (search_log_enter (i, j) st g1).
    + simpl. by exists this_cell.
    + intros ti tj w Hel. simpl. unfold wallb. simpl. rewrite Hthis.
      repeat (apply elem_of_cons in Hel as [Hel|Hel]);
        [| | | |by apply elem_of_nil in Hel]; injection Hel as -> -> ->.
      * by exists Top.
      * by exists Bottom.
      * by exists Left.
      * by exists Right.
Qed.

End SearchLog.

(** ** The wall flag the solver reads *)

(** C10.  The solver decides a move from the wall flag of the cell it
    leaves, and from that flag alone.  On every well-formed table without
    marks, and from every cell of it, [solve_r] returns, and: every cell
    it enters is reached from the start by moves that leave each cell on a
    side where that cell has no wall; unless the goal is found, every
    neighbour in the table on such a side of an entered cell is entered
    too, whatever the flag of the neighbour on the facing side is; the
    result is [True] exactly when the goal can be reached by such moves,
    and the goal is then among the cells entered.  Nothing is assumed of
    the facing flags: where the mirror rule is violated, a wall open on
    one side only is walked through from that side. *)
Theorem solver_reads_own_wall_only (self : Maze) (fuel : nat) (i j : Z) (st : State) :
  well_formed self (cells st) → in_bounds self (i, j) →
  all_unvisited self (cells st) →
  (Z.to_nat (num_rows self * num_cols self) ≤ fuel)%nat →
  ∃ b st' new,
    solve_r self fuel i j st = Ok (b, st') ∧
    log st' = new ++ log st ∧
    (∀ q, q ∈ entered new → rtc (door self (cells st)) (i, j) q) ∧
    (∀ p d, p ∈ entered new → in_bounds self (step p d) →
            wallb (cells st) p d = false →
            b = true ∨ step p d ∈ entered new) ∧
    (b = true ↔ rtc (door self (cells st)) (i, j) (target self)) ∧
    (b = true → target self ∈ entered new).
Proof.
  intros Hwf Hin Hnone Hfuel.
  assert (1 ≤ num_rows self ∧ 1 ≤ num_cols self) as [Hr Hc].
  { destruct Hin as [? ?]. simpl in *. lia. }
  destruct (solve_r_total self fuel i j st Hwf Hin)
    as (b & st' & new & Hrun & Hpost & Hroot).
  { intros g1 Hg1.
    pose proof (unvisited_count_mark self _ g1 (i, j) Hin (Hnone _ Hin) Hg1).
    pose proof (visited_unvisited self (cells st)).
    pose proof (length_all_cells_Z self Hr Hc). lia. }
  destruct (solve_r_log self fuel i j st b st' Hrun Hin)
    as [new' [Hlog _ Hreach (lines & Hwalk & _) Hmarked Hfound]].
  destruct Hpost as [Hext Hnd Hent Hcl Htg].
  pose proof (extends_by_same_walls self _ _ _ Hext) as Hsame.
  destruct Hext as (Hlog' & _ & _).
  assert (new' = new) as ->.
  { apply (app_inv_tail (log st)). by rewrite <- Hlog, <- Hlog'. }
  assert (b = false → ∀ p d, in_bounds self p → visitedb (cells st') p = true →
            in_bounds self (step p d) → wallb (cells st) p d = false →
            visitedb (cells st') (step p d) = true) as Hclosed.
  { intros Hb p d Hp Hv Hd Hw.
    apply (Hcl Hb p Hp Hv); [right; by apply Hnone|done|].
    by rewrite Hsame. }
  exists b, st', new.
  split; [done|]. split; [done|]. split; [done|]. split; [|split; [|done]].
  - intros p d Hp Hd Hw. destruct b; [by left|right].
    destruct (Hent p Hp) as (Hpin & Hpv & _).
    destruct (Hmarked _ Hd (Hclosed eq_refl p d Hpin Hpv Hd Hw)) as [Hv|?]; [|done].
    by rewrite (Hnone _ Hd) in Hv.
  - split.
    + intros ->. by apply (walk_door self _ _ _ lines).
    + intros Hgoal. destruct b; [done|exfalso].
      assert (∀ q, rtc (door self (cells st)) (i, j) q →
                visitedb (cells st') q = true) as Hall.
      { apply rtc_ind_r.
        - by destruct (Hent _ Hroot) as (_ & ? & _).
        - intros p q _ (Hp & Hq & d & -> & Hw) IH. by apply (Hclosed eq_refl p d). }
      specialize (Htg eq_refl (Hall _ Hgoal)).
      rewrite Hnone in Htg; [done|].
      split; unfold target; simpl; lia.
Qed.

Lemma solver_reads_own_wall_only_witness :
  well_formed (one_by_two 5 5 10 10 None) (cells (row_of_two cell_a cell_b 0 [])) ∧
  in_bounds (one_by_two 5 5 10 10 None) (0, 0) ∧
  all_unvisited (one_by_two 5 5 10 10 None) (cells (row_of_two cell_a cell_b 0 [])) ∧
  (Z.to_nat (num_rows (one_by_two 5 5 10 10 None)
             * num_cols (one_by_two 5 5 10 10 None)) ≤ 2)%nat ∧
  wallb (cells (row_of_two cell_a cell_b 0 [])) (0, 0) Right = false ∧
  wallb (cells (row_of_two cell_a cell_b 0 [])) (0, 1) Left = true ∧
  ∃ b st' new,
    solve_r (one_by_two 5 5 10 10 None) 2 0 0 (row_of_two cell_a cell_b 0 [])
      = Ok (b, st') ∧
    log st' = new ++ log (row_of_two cell_a cell_b 0 []) ∧
    (∀ q, q ∈ entered new →
          rtc (door (one_by_two 5 5 10 10 None) (cells (row_of_two cell_a cell_b 0 [])))
            (0, 0) q) ∧
    (∀ p d, p ∈ entered new → in_bounds (one_by_two 5 5 10 10 None) (step p d) →
            wallb (cells (row_of_two cell_a cell_b 0 [])) p d = false →
            b = true ∨ step p d ∈ entered new) ∧
    (b = true ↔
     rtc (door (one_by_two 5 5 10 10 None) (cells (row_of_two cell_a cell_b 0 [])))
       (0, 0) (target (one_by_two 5 5 10 10 None))) ∧
    (b = true → target (one_by_two 5 5 10 10 None) ∈ entered new).
Proof.
  split; [(split; [reflexivity|by repeat constructor])|].
  split; [split; simpl; lia|].
  split; [(intros q [-> | ->]%one_by_two_positions; reflexivity)|].
  split; [simpl; lia|].
  split; [reflexivity|]. split; [reflexivity|].
  apply (solver_reads_own_wall_only (one_by_two 5 5 10 10 None) 2 0 0
           (row_of_two cell_a cell_b 0 [])).
  - (split; [reflexivity|by repeat constructor]).
  - split; simpl; lia.
  - (intros q [-> | ->]%one_by_two_positions; reflexivity).
  - simpl; lia.
Defined.

(** X5.  On a table without marks, [solve_r(i, j)] returns [True] exactly
    when the goal cell can be reached from [(i, j)] by moves that leave
    each cell on a side where that cell itself has no wall. *)
Theorem solver_decides_reachability (self : Maze) (fuel : nat) (i j : Z) (st : State) :
  well_formed self (cells st) → in_bounds self (i, j) →
  all_unvisited self (cells st) →
  (Z.to_nat (num_rows self * num_cols self) ≤ fuel)%nat →
  ∃ b st',
    solve_r self fuel i j st = Ok (b, st') ∧
    (b = true ↔ rtc (door self (cells st)) (i, j) (target self)).
Proof.
  intros Hwf Hin Hnone Hfuel.
  assert (1 ≤ num_rows self ∧ 1 ≤ num_cols self) as [Hr Hc].
  { destruct Hin as [? ?]. simpl in *. lia. }
  destruct (solve_r_total self fuel i j st Hwf Hin)
    as (b & st' & new & Hrun & Hpost & Hroot).
  { intros g1 Hg1.
    pose proof (unvisited_count_mark self _ g1 (i, j) Hin (Hnone _ Hin) Hg1).
    pose proof (visited_unvisited self (cells st)).
    pose proof (length_all_cells_Z self Hr Hc). lia. }
  exists b, st'. split; [done|].
  destruct (solve_r_log self fuel i j st b st' Hrun Hin)
    as [new' [_ _ _ (lines & Hwalk & _) _ _]].
  split.
  - intros ->. by apply (walk_door self _ _ _ lines).
  - intros Hreach. destruct b; [done|exfalso].
    destruct Hpost as [Hext Hnd Hent Hcl Htg].
    pose proof (extends_by_same_walls self _ _ _ Hext) as Hsame.
    assert (∀ q, rtc (door self (cells st)) (i, j) q → visitedb (cells st') q = true)
      as Hall.
    { apply rtc_ind_r.
      - by destruct (Hent _ Hroot) as (_ & ? & _).
      - intros p q _ (Hp & Hq & d & -> & Hw) IH.
        apply (Hcl eq_refl p Hp IH); [right; by apply Hnone|done|].
        by rewrite Hsame. }
    specialize (Htg eq_refl (Hall _ Hreach)).
    rewrite Hnone in Htg; [done|].
    split; unfold target; simpl; lia.
Qed.

(** X6.  The red lines on the canvas.  Every gray line [solve_r] draws
    repeats the latest red line not yet undone.  When the call returns
    [True], the red lines left are, in the order drawn, the segments from
    cell centre to cell centre of a walk from [(i, j)] to the goal cell
    which leaves each cell on a side where it has no wall; when the call
    returns [False], no red line is left. *)
Theorem solver_leaves_its_path (self : Maze) (fuel : nat) (i j : Z) (st : State) :
  well_formed self (cells st) → in_bounds self (i, j) →
  (Z.to_nat (num_rows self * num_cols self) < fuel)%nat →
  ∃ b st' new lines,
    solve_r self fuel i j st = Ok (b, st') ∧
    log st' = new ++ log st ∧
    red_path (events new) [] = Some (rev lines) ∧
    (if b then walk self (cells st) (i, j) (target self) lines else lines = []).
Proof.
  intros Hwf Hin Hfuel.
  assert (1 ≤ num_rows self ∧ 1 ≤ num_cols self) as [Hr Hc].
  { destruct Hin as [? ?]. simpl in *. lia. }
  destruct (solve_r_total self fuel i j st Hwf Hin)
    as (b & st' & new & Hrun & _ & _).
  { intros g1 _.
    pose proof (visited_unvisited self g1).
    pose proof (length_all_cells_Z self Hr Hc). lia. }
  destruct (solve_r_log self fuel i j st b st' Hrun Hin)
    as [new' [Hlog _ _ (lines & Hwalk & Hred) _ _]].
  exists b, st', new', lines. split; [done|]. split; [done|]. split; [|done].
  by rewrite Hred, app_nil_r.
Qed.

Lemma solver_decides_reachability_witness :
  well_formed (one_by_two 5 5 10 10 None) (cells (row_of_two cell_a cell_b 0 [])) ∧
  in_bounds (one_by_two 5 5 10 10 None) (0, 0) ∧
  all_unvisited (one_by_two 5 5 10 10 None) (cells (row_of_two cell_a cell_b 0 [])) ∧
  (Z.to_nat (num_rows (one_by_two 5 5 10 10 None)
             * num_cols (one_by_two 5 5 10 10 None)) ≤ 2)%nat ∧
  ∃ b st',
    solve_r (one_by_two 5 5 10 10 None) 2 0 0 (row_of_two cell_a cell_b 0 [])
      = Ok (b, st') ∧
    (b = true ↔
     rtc (door (one_by_two 5 5 10 10 None) (cells (row_of_two cell_a cell_b 0 [])))
       (0, 0) (target (one_by_two 5 5 10 10 None))).
Proof.
  split; [(split; [reflexivity|by repeat constructor])|].
  split; [split; simpl; lia|].
  split; [(intros q [-> | ->]%one_by_two_positions; reflexivity)|].
  split; [simpl; lia|].
  apply (solver_decides_reachability (one_by_two 5 5 10 10 None) 2 0 0
           (row_of_two cell_a cell_b 0 [])).
  - (split; [reflexivity|by repeat constructor]).
  - split; simpl; lia.
  - (intros q [-> | ->]%one_by_two_positions; reflexivity).
  - simpl; lia.
Defined.

Lemma solver_leaves_its_path_witness :
  well_formed (one_by_two 5 5 10 10 None) (cells (row_of_two cell_a cell_b 0 [])) ∧
  in_bounds (one_by_two 5 5 10 10 None) (0, 0) ∧
  (Z.to_nat (num_rows (one_by_two 5 5 10 10 None)
             * num_cols (one_by_two 5 5 10 10 None)) < 3)%nat ∧
  ∃ b st' new lines,
    solve_r (one_by_two 5 5 10 10 None) 3 0 0 (row_of_two cell_a cell_b 0 [])
      = Ok (b, st') ∧
    log st' = new ++ log (row_of_two cell_a cell_b 0 []) ∧
    red_path (events new) [] = Some (rev lines) ∧
    (if b
     then walk (one_by_two 5 5 10 10 None) (cells (row_of_two cell_a cell_b 0 []))
            (0, 0) (target (one_by_two 5 5 10 10 None)) lines
     else lines = []).
Proof.
  split; [(split; [reflexivity|by repeat constructor])|].
  split; [split; simpl; lia|].
  split; [simpl; lia|].
  apply (solver_leaves_its_path (one_by_two 5 5 10 10 None) 3 0 0
           (row_of_two cell_a cell_b 0 [])).
  - (split; [reflexivity|by repeat constructor]).
  - split; simpl; lia.
  - simpl; lia.
Defined.

Lemma layout_is_kept_witness :
  1 ≤ num_rows (two_by_two 5 5 10 10 None) ∧
  1 ≤ num_cols (two_by_two 5 5 10 10 None) ∧
  (2 * Z.to_nat (num_rows (two_by_two 5 5 10 10 None)
                 * num_cols (two_by_two 5 5 10 10 None)) ≤ 8)%nat ∧
  (Z.to_nat (num_rows (two_by_two 5 5 10 10 None)
             * num_cols (two_by_two 5 5 10 10 None)) ≤ 4)%nat ∧
  ∃ st1 b st2,
    __post_init__ (two_by_two 5 5 10 10 None) first_choice 8 fresh = Ok (tt, st1) ∧
    solve (two_by_two 5 5 10 10 None) 4 st1 = Ok (b, st2) ∧
    ∀ i j, in_bounds (two_by_two 5 5 10 10 None) (i, j) →
      box_at (cells st1) (i, j) =
        Some (x1 (two_by_two 5 5 10 10 None)
                + j * cell_size_x (two_by_two 5 5 10 10 None),
              y1 (two_by_two 5 5 10 10 None)
                + i * cell_size_y (two_by_two 5 5 10 10 None),
              x1 (two_by_two 5 5 10 10 None)
                + (j + 1) * cell_size_x (two_by_two 5 5 10 10 None),
              y1 (two_by_two 5 5 10 10 None)
                + (i + 1) * cell_size_y (two_by_two 5 5 10 10 None)) ∧
      box_at (cells st2) (i, j) = box_at (cells st1) (i, j).
Proof.
  split; [simpl; lia|]. split; [simpl; lia|]. split; [simpl; lia|].
  split; [simpl; lia|].
  apply (layout_is_kept (two_by_two 5 5 10 10 None) first_choice 8 4 fresh);
    simpl; lia.
Defined.

Lemma constructor_delivers_perfect_maze_witness :
  1 ≤ num_rows (two_by_two 5 5 10 10 None) ∧
  1 ≤ num_cols (two_by_two 5 5 10 10 None) ∧
  (2 * Z.to_nat (num_rows (two_by_two 5 5 10 10 None)
                 * num_cols (two_by_two 5 5 10 10 None)) ≤ 8)%nat ∧
  ∃ st,
    __post_init__ (two_by_two 5 5 10 10 None) first_choice 8 fresh = Ok (tt, st) ∧
    well_formed (two_by_two 5 5 10 10 None) (cells st) ∧
    all_unvisited (two_by_two 5 5 10 10 None) (cells st) ∧
    openings (two_by_two 5 5 10 10 None) (cells st) ∧
    mirrored (two_by_two 5 5 10 10 None) (cells st) ∧
    (∀ p, in_bounds (two_by_two 5 5 10 10 None) p →
          reachable (two_by_two 5 5 10 10 None) (cells st) (0, 0) p) ∧
    Z.of_nat (broken_pairs (two_by_two 5 5 10 10 None) (cells st)) =
      num_rows (two_by_two 5 5 10 10 None) * num_cols (two_by_two 5 5 10 10 None) - 1.
Proof.
  split; [simpl; lia|]. split; [simpl; lia|]. split; [simpl; lia|].
  apply (constructor_delivers_perfect_maze (two_by_two 5 5 10 10 None)
           first_choice 8 fresh); simpl; lia.
Defined.

Lemma solve_again_after_reset_witness :
  1 ≤ num_rows (two_by_two 5 5 10 10 None) ∧
  1 ≤ num_cols (two_by_two 5 5 10 10 None) ∧
  (2 * Z.to_nat (num_rows (two_by_two 5 5 10 10 None)
                 * num_cols (two_by_two 5 5 10 10 None)) ≤ 8)%nat ∧
  (Z.to_nat (num_rows (two_by_two 5 5 10 10 None)
             * num_cols (two_by_two 5 5 10 10 None)) ≤ 4)%nat ∧
  ∃ st1 st2 st3 st4,
    __post_init__ (two_by_two 5 5 10 10 None) first_choice 8 fresh = Ok (tt, st1) ∧
    solve (two_by_two 5 5 10 10 None) 4 st1 = Ok (true, st2) ∧
    _reset_cells_visited (two_by_two 5 5 10 10 None) st2 = Ok (tt, st3) ∧
    solve (two_by_two 5 5 10 10 None) 4 st3 = Ok (true, st4).
Proof.
  split; [simpl; lia|]. split; [simpl; lia|]. split; [simpl; lia|].
  split; [simpl; lia|].
  apply (solve_again_after_reset (two_by_two 5 5 10 10 None) first_choice 8 4 fresh);
    simpl; lia.
Defined.

(** X10.  [main]: whatever the random choices, the maze of 20 rows and 30
    columns is built, [solve()] returns [True], and every cell is then a
    box 26 wide and 29 high inside the 800 by 600 window. *)
Theorem main_stays_inside_window (pick : nat → nat) (fuel fuel' : nat) (st0 : State) :
  (1200 ≤ fuel)%nat → (600 ≤ fuel')%nat →
  ∃ st,
    main pick fuel fuel' st0 = Ok (true, st) ∧
    ∀ i j, 0 ≤ i < 20 → 0 ≤ j < 30 →
      ∃ c, cell_at (cells st) i j = Some c ∧
           bottom_x c - top_x c = 26 ∧ bottom_y c - top_y c = 29 ∧
           0 ≤ top_x c ∧ bottom_x c ≤ 800 ∧ 0 ≤ top_y c ∧ bottom_y c ≤ 600.
Proof.
  intros Hfuel Hfuel'.
  assert (1 ≤ num_rows main_maze) as Hr by done.
  assert (1 ≤ num_cols main_maze) as Hc by done.
  destruct (program_runs main_maze pick fuel fuel' st0 Hr Hc)
    as (st_a & st_b & st_c & st_d & n_b & n_c & n_d & b & st_e & n_e
        & Hcon & Hsolve & Hext); [simpl; lia|simpl; lia|].
  destruct (constructed_maze_is_solved main_maze pick fuel fuel' st0 Hr Hc)
    as (st1 & st2 & Hgen & Hsolve'); [simpl; lia|simpl; lia|].
  pose proof (construction_run _ _ _ _ _ _ _ _ _ _ _ Hcon) as Hgen'.
  rewrite Hgen' in Hgen. injection Hgen as <-.
  unfold solve in Hsolve. rewrite Hsolve' in Hsolve. injection Hsolve as <- <-.
  exists st2. split.
  { unfold main, __post_init__. by rewrite (bind_Ok _ _ _ _ _ Hgen'). }
  intros i j Hi Hj.
  assert (in_bounds main_maze (i, j)) as Hin by (split; simpl; lia).
  assert (box_at (cells st2) (i, j) = box_at (build_cells main_maze) (i, j)) as Hbox.
  { rewrite <- (construction_same_boxes _ _ _ _ _ _ _ _ _ _ _ Hcon _ Hin).
    destruct Hext as (_ & -> & Hl).
    apply (linked_ends (solve_step main_maze) (same_boxes main_maze)); eauto.
    - apply same_boxes_refl.
    - apply same_boxes_trans.
    - intros g g' Hstep. by apply gen_step_same_boxes, solve_step_gen_step. }
  rewrite box_at_build_cells in Hbox by done.
  unfold box_at in Hbox. simpl in Hbox.
  destruct (cell_at (cells st2) i j) as [c|]; [|done].
  injection Hbox as Htx Hty Hbx Hby.
  exists c. split; [done|].
  change ((800 - 5) `div` 30) with 26 in *.
  change ((600 - 5) `div` 20) with 29 in *. lia.
Qed.

Lemma main_stays_inside_window_witness :
  (1200 ≤ 1200)%nat ∧ (600 ≤ 600)%nat ∧
  ∃ st,
    main first_choice 1200 600 fresh = Ok (true, st) ∧
    ∀ i j, 0 ≤ i < 20 → 0 ≤ j < 30 →
      ∃ c, cell_at (cells st) i j = Some c ∧
           bottom_x c - top_x c = 26 ∧ bottom_y c - top_y c = 29 ∧
           0 ≤ top_x c ∧ bottom_x c ≤ 800 ∧ 0 ≤ top_y c ∧ bottom_y c ≤ 600.
Proof.
  split; [lia|]. split; [lia|].
  apply (main_stays_inside_window first_choice 1200 600 fresh); lia.
Defined.

(** ** A second search without a reset *)

(** X11.  The marks of a search block the next one.  In a maze of more than
    one cell, after the constructor, [solve()] returns [True], and a second
    [solve()], run without [_reset_cells_visited] in between, returns
    [False]: the goal cell is still marked, so it is never entered again. *)
Theorem second_solve_without_reset_fails (self : Maze) (pick : nat → nat)
    (fuel fuel' : nat) (st0 : State) :
  1 ≤ num_rows self → 1 ≤ num_cols self →
  1 < num_rows self * num_cols self →
  (2 * Z.to_nat (num_rows self * num_cols self) ≤ fuel)%nat →
  (Z.to_nat (num_rows self * num_cols self) < fuel')%nat →
  ∃ st1 st2 st3,
    __post_init__ self pick fuel st0 = Ok (tt, st1) ∧
    solve self fuel' st1 = Ok (true, st2) ∧
    solve self fuel' st2 = Ok (false, st3).
Proof.
  intros Hr Hc Hmany Hfuel Hfuel'.
  pose proof (in_bounds_origin self Hr Hc) as H0.
  pose proof (length_all_cells_Z self Hr Hc) as Hlen.
  destruct (constructed_maze_is_solved self pick fuel fuel' st0 Hr Hc Hfuel)
    as (st1 & st2 & Hgen & Hsolve); [lia|].
  destruct (construction_exists self pick Hr Hc fuel st0)
    as (st_a & st_b & st_c & st_d & n_b & n_c & n_d & Hcon); [by rewrite Hlen|].
  pose proof (construction_run _ _ _ _ _ _ _ _ _ _ _ Hcon) as Hgen'.
  rewrite Hgen' in Hgen. injection Hgen as <-.
  pose proof (construction_well_formed _ _ _ _ _ _ _ _ _ _ _ Hcon) as Hwf1.
  (* the first search leaves the goal marked *)
  destruct (solve_r_total self fuel' 0 0 st_d Hwf1 H0)
    as (b1 & st2' & n1 & Hrun1 & Hpost1 & _).
  { intros g1 _. pose proof (visited_unvisited self g1). lia. }
  rewrite Hsolve in Hrun1. injection Hrun1 as <- <-.
  destruct (solve_r_log self fuel' 0 0 st_d true st2 Hsolve H0)
    as [n1' [Hlog1 _ _ _ _ Hfound1]].
  destruct Hpost1 as [Hext1 _ Hent1 _ _].
  pose proof (extends_by_well_formed self _ _ _
                (extends_by_solve_gen self _ _ _ Hext1) Hwf1) as Hwf2.
  destruct Hext1 as (Hlog1' & _ & _).
  assert (n1' = n1) as ->.
  { apply (app_inv_tail (log st_d)). by rewrite <- Hlog1, <- Hlog1'. }
  destruct (Hent1 _ (Hfound1 eq_refl)) as (_ & Hgoal & _).
  (* the second search cannot enter it *)
  destruct (solve_r_total self fuel' 0 0 st2 Hwf2 H0)
    as (b2 & st3 & n2 & Hrun2 & Hpost2 & _).
  { intros g1 _. pose proof (visited_unvisited self g1). lia. }
  exists st_d, st2, st3.
  split; [done|]. split; [done|].
  destruct b2; [exfalso|done].
  destruct (solve_r_log self fuel' 0 0 st2 true st3 Hrun2 H0)
    as [n2' [Hlog2 _ _ _ _ Hfound2]].
  destruct Hpost2 as [Hext2 _ Hent2 _ _].
  destruct Hext2 as (Hlog2' & _ & _).
  assert (n2' = n2) as ->.
  { apply (app_inv_tail (log st2)). by rewrite <- Hlog2, <- Hlog2'. }
  destruct (Hent2 _ (Hfound2 eq_refl)) as (_ & _ & [Heq|Hfresh]).
  - unfold target in Heq. injection Heq as Hi Hj. nia.
  - by rewrite Hgoal in Hfresh.
Qed.

Lemma second_solve_without_reset_fails_witness :
  1 ≤ num_rows (two_by_two 5 5 10 10 None) ∧
  1 ≤ num_cols (two_by_two 5 5 10 10 None) ∧
  1 < num_rows (two_by_two 5 5 10 10 None) * num_cols (two_by_two 5 5 10 10 None) ∧
  (2 * Z.to_nat (num_rows (two_by_two 5 5 10 10 None)
                 * num_cols (two_by_two 5 5 10 10 None)) ≤ 8)%nat ∧
  (Z.to_nat (num_rows (two_by_two 5 5 10 10 None)
             * num_cols (two_by_two 5 5 10 10 None)) < 5)%nat ∧
  ∃ st1 st2 st3,
    __post_init__ (two_by_two 5 5 10 10 None) first_choice 8 fresh = Ok (tt, st1) ∧
    solve (two_by_two 5 5 10 10 None) 5 st1 = Ok (true, st2) ∧
    solve (two_by_two 5 5 10 10 None) 5 st2 = Ok (false, st3).
Proof.
  split; [simpl; lia|]. split; [simpl; lia|]. split; [simpl; lia|].
  split; [simpl; lia|]. split; [simpl; lia|].
  apply (second_solve_without_reset_fails (two_by_two 5 5 10 10 None)
           first_choice 8 5 fresh); simpl; lia.
Defined.
